(** * vidi.js: the reactive wrapper, the view handler, the renderer and the
      reconciler, embedded and checked against the specification.

    Source: [src/vidi.js].  The development has two halves.

    - Modules [JS], [View] and [NestProxy] embed the reactive half
      ([class NestProxy], [VidiView.setPath], [deletePath], [getPath],
      [render], [lock], [unlock]) over a heap of JavaScript objects, so that
      the aliasing between a wrapper's [target] and the model [$data] is the
      aliasing of the source.  [Reactive] and [Scenario] hold the vocabulary
      of the statements and the models of the examples.
    - Modules [Str], [Val], [Checksum], [Dom], [Moustache] and [Render]
      embed [Vidi.checksum], [VidiView.compareNodes],
      [VidiView.parseMoustache], [VidiView.cloneElement] and
      [VidiView.renderTemplate] over DOM trees.  [Rendered] and [Host] hold
      the vocabulary of the statements and a small host for the examples.

    - Modules [Schedule], [Route], [Polynomial], [Shape], [Signature] and
      [Transplant] add runs of calls on a view, the arithmetic of the
      checksum, the shape of DOM trees and [VidiView.transplantDom], for the
      properties of the code that go beyond the specification.

    The theorems follow the definitions; each statement about the
    specification carries the number of the claim it settles (C1, C2, ...),
    each further property of the code a number of its own (X1, X2, ...).

    Modelling boundary, stated once.  Numbers are integers plus [NaN] (no
    fractions), and they print as the source prints them while they are
    below 2^53 in size ([safe]).  Strings are sequences of code units below
    256.  Of an object the properties it holds itself are modelled, in
    insertion order; what the prototypes add to them (the names of
    [Object.prototype], the [length] of an array or of a string) is not, and
    a statement that depends on what a lookup answers assumes that the
    object itself settles the lookup ([own], [own_route]).  Callbacks
    supplied by the application (watchers, hooks) are recorded as events;
    they return normally and do not call back into the view.  The rendering
    inside [dorender()] is one event and does not raise: a statement about
    the outcome of a write that asks for a render assumes that the view has
    rendered once, so that the render is left to a timer. *)

From Stdlib Require Import ZArith List String Ascii Bool Lia.
From Stdlib Require Import HexadecimalString.
From Stdlib Require HexadecimalPos HexadecimalFacts.
From stdpp Require Import base gmap strings list pretty.
From Equations Require Import Equations.

Open Scope string_scope.
Open Scope Z_scope.
Open Scope list_scope.

(* ====================================================================== *)
(** ** JavaScript values and the object heap                              *)
(* ====================================================================== *)
Module JS.

Definition loc := positive.

(** A value is a primitive or a reference to a heap object. *)
Inductive value :=
| VUndef
| VNull
| VBool (b : bool)
| VNum (n : Z)
| VNaN
| VStr (s : string)
| VRef (l : loc).

(** What a reference points to: a plain object, an array, a DOM [Element]
    or a function. *)
Inductive okind := KPlain | KArray | KElement | KFunction.

(** Own enumerable properties, in insertion order (the order of
    [for (k in o)]). *)
Record object := Obj { okind_of : okind; oprops : list (string * value) }.

Abbreviation heap := (gmap loc object).

Definition empty_object : object := Obj KPlain [].

Definition obj_at (h : heap) (l : loc) : object := default empty_object (h !! l).

Fixpoint assoc_get (k : string) (ps : list (string * value)) : value :=
  match ps with
  | [] => VUndef
  | (k', v) :: ps' => if String.eqb k k' then v else assoc_get k ps'
  end.

(** Assignment keeps the position of an existing key and appends a new one. *)
Fixpoint assoc_set (k : string) (v : value) (ps : list (string * value))
  : list (string * value) :=
  match ps with
  | [] => [(k, v)]
  | (k', v') :: ps' =>
      if String.eqb k k' then (k, v) :: ps' else (k', v') :: assoc_set k v ps'
  end.

Fixpoint assoc_del (k : string) (ps : list (string * value))
  : list (string * value) :=
  match ps with
  | [] => []
  | (k', v') :: ps' =>
      if String.eqb k k' then ps' else (k', v') :: assoc_del k ps'
  end.

(** [typeof v] *)
Definition typeof (h : heap) (v : value) : string :=
  match v with
  | VUndef => "undefined"
  | VNull => "object"
  | VBool _ => "boolean"
  | VNum _ | VNaN => "number"
  | VStr _ => "string"
  | VRef l => match okind_of (obj_at h l) with
              | KFunction => "function"
              | _ => "object"
              end
  end.

(** [Array.isArray (v)] *)
Definition isArray (h : heap) (v : value) : bool :=
  match v with
  | VRef l => match okind_of (obj_at h l) with KArray => true | _ => false end
  | _ => false
  end.

(** [v instanceof Element] *)
Definition isElement (h : heap) (v : value) : bool :=
  match v with
  | VRef l => match okind_of (obj_at h l) with KElement => true | _ => false end
  | _ => false
  end.

(** [a === b] *)
Definition strict_eq (a b : value) : bool :=
  match a, b with
  | VUndef, VUndef => true
  | VNull, VNull => true
  | VBool x, VBool y => Bool.eqb x y
  | VNum x, VNum y => Z.eqb x y
  | VStr x, VStr y => String.eqb x y
  | VRef x, VRef y => Pos.eqb x y
  | _, _ => false
  end.

(** [v == undefined], true of [undefined] and of [null] only. *)
Definition nullish (v : value) : bool :=
  match v with VUndef | VNull => true | _ => false end.

(** [! v] is [negb (truthy v)]. *)
Definition truthy (v : value) : bool :=
  match v with
  | VUndef | VNull | VNaN => false
  | VBool b => b
  | VNum n => negb (Z.eqb n 0)
  | VStr s => negb (String.eqb s EmptyString)
  | VRef _ => true
  end.

(** [o[k]] as far as [o] itself settles it: the property that [o] holds
    under [k], and [undefined] when it holds none.  Where the source's
    lookup goes on into a prototype (a name of [Object.prototype], a
    property of a primitive) it finds more than this: see [own] below. *)
Definition get_prop (h : heap) (o : value) (k : string) : value :=
  match o with
  | VRef l => assoc_get k (oprops (obj_at h l))
  | _ => VUndef
  end.

(** [o[k] = v] in strict code (a class body is strict code), as a store
    into the properties [o] holds itself: assignment to a property of a
    primitive raises a [TypeError].  (The accessor [__proto__] and the
    [length] of an array take an assignment otherwise: see [own].) *)
Definition set_prop (h : heap) (o : value) (k : string) (v : value)
  : option heap :=
  match o with
  | VRef l =>
      let ob := obj_at h l in
      Some (<[l := Obj (okind_of ob) (assoc_set k v (oprops ob))]> h)
  | _ => None
  end.

(** [delete o[k]]: the property leaves the ones [o] holds itself. *)
Definition del_prop (h : heap) (o : value) (k : string) : heap :=
  match o with
  | VRef l =>
      let ob := obj_at h l in
      <[l := Obj (okind_of ob) (assoc_del k (oprops ob))]> h
  | _ => h
  end.

(** The keys [for (k in o)] visits. *)
Definition keys_of (h : heap) (v : value) : list string :=
  match v with
  | VRef l => map fst (oprops (obj_at h l))
  | _ => []
  end.

(** The names that [Object.prototype] defines.  Every object answers to
    them whether it holds them or not, and [__proto__] among them is an
    accessor: an assignment to it stores no property. *)
Definition object_prototype_names : list string :=
  ["constructor"; "__defineGetter__"; "__defineSetter__"; "hasOwnProperty";
   "__lookupGetter__"; "__lookupSetter__"; "isPrototypeOf";
   "propertyIsEnumerable"; "toString"; "valueOf"; "__proto__";
   "toLocaleString"].

Definition inherited (k : string) : bool :=
  existsb (String.eqb k) object_prototype_names.

(** [o] is a plain object of the heap: one made by [{}] or by an object
    literal, whose prototype is [Object.prototype] and whose properties are
    ordinary data properties. *)
Definition plain (h : heap) (o : value) : bool :=
  match o with
  | VRef l =>
      match h !! l with
      | Some ob => match okind_of ob with KPlain => true | _ => false end
      | None => false
      end
  | _ => false
  end.

(** [own h o k]: the object [o] itself settles what [o[k]] is.  [o] is a
    plain object and [k] is none of the names it inherits; there
    [get_prop], [set_prop] and [del_prop] are the source's [o[k]],
    [o[k] = v] and [delete o[k]]. *)
Definition own (h : heap) (o : value) (k : string) : bool :=
  plain h o && negb (inherited k).

(** [{}]: a fresh empty object. *)
Definition alloc (h : heap) (o : object) : loc * heap :=
  let l := fresh (dom h) in (l, <[l := o]> h).

(** What a [throw] carries. *)
Inductive exn :=
| Error (msg : string)
| TypeError (msg : string).

(** The result of running a piece of code: a value, an exception, or the
    recursion budget of the model ran out. *)
Inductive outcome (A : Type) :=
| Ok (a : A)
| Throw (e : exn)
| OutOfFuel.
Arguments Ok {A} a.
Arguments Throw {A} e.
Arguments OutOfFuel {A}.
Arguments VRef l%_positive.

End JS.
Export JS.

(* ====================================================================== *)
(** ** VidiView: the handler behind the wrapper, and the render scheduler *)
(* ====================================================================== *)
Module View.

(** What the outside can observe of a run, in order. *)
Inductive event :=
| HRead (path : list string)               (* handler.getPath (_, path) *)
| HWrite (path : list string) (v : value)  (* handler.setPath (_, path, v) *)
| HErase (path : list string)              (* handler.deletePath (_, path) *)
| Watch (k : string) (v : value)           (* self.$watch[k] (v) *)
| UpdateHook                               (* self.$onupdate (self) *)
| CreateHook                               (* self.$oncreate (self) *)
| ClearTimeout (t : nat)
| SetTimeout (t : nat)
| DoRender.                                (* the body of dorender() *)

(** The fields of a [VidiView] that the reactive half reads or writes. *)
Record view := MkView {
  hp : heap;
  data : loc;                      (* self.$data *)
  el : value;                      (* self.$el *)
  watch : list string;             (* the keys k with a callback self.$watch[k] *)
  onupdate : bool;                 (* self.$onupdate is set *)
  oncreate : bool;                 (* self.$oncreate is set *)
  renderlock : bool;               (* self.$renderlock *)
  renderedOnce : bool;             (* self.renderedOnce *)
  renderTimeout : option nat;      (* self.renderTimeout *)
  next_timer : nat;                (* the handle the next setTimeout returns;
                                      handles are positive, so a pending one
                                      is truthy *)
  events : list event
}.

Definition with_hp (h : heap) (s : view) : view :=
  MkView h (data s) (el s) (watch s) (onupdate s) (oncreate s) (renderlock s)
         (renderedOnce s) (renderTimeout s) (next_timer s) (events s).

Definition with_renderlock (b : bool) (s : view) : view :=
  MkView (hp s) (data s) (el s) (watch s) (onupdate s) (oncreate s) b
         (renderedOnce s) (renderTimeout s) (next_timer s) (events s).

Definition with_renderedOnce (b : bool) (s : view) : view :=
  MkView (hp s) (data s) (el s) (watch s) (onupdate s) (oncreate s)
         (renderlock s) b (renderTimeout s) (next_timer s) (events s).

Definition with_renderTimeout (t : option nat) (s : view) : view :=
  MkView (hp s) (data s) (el s) (watch s) (onupdate s) (oncreate s)
         (renderlock s) (renderedOnce s) t (next_timer s) (events s).

Definition with_next_timer (n : nat) (s : view) : view :=
  MkView (hp s) (data s) (el s) (watch s) (onupdate s) (oncreate s)
         (renderlock s) (renderedOnce s) (renderTimeout s) n (events s).

Definition emit (e : event) (s : view) : view :=
  MkView (hp s) (data s) (el s) (watch s) (onupdate s) (oncreate s)
         (renderlock s) (renderedOnce s) (renderTimeout s) (next_timer s)
         (events s ++ [e]).

(** The scheduler's part of the state. *)
Definition scheduler (s : view) : bool * bool * option nat * nat :=
  (renderlock s, renderedOnce s, renderTimeout s, next_timer s).

(** [dorender()]: the rendering itself is the event [DoRender], and the
    creation hook is the event [CreateHook]; neither raises nor calls back
    into the view, so that [renderedOnce] is set when [dorender()] is
    left. *)
Definition dorender (s : view) : view :=
  let s1 := emit DoRender s in
  if renderedOnce s1 then s1
  else
    let s2 := if oncreate s1 then emit CreateHook s1 else s1 in
    with_renderedOnce true s2.

(** [render()] *)
Definition render (s : view) : view :=
  if renderlock s then s
  else
    let s1 := if renderedOnce s && onupdate s then emit UpdateHook s else s in
    if negb (renderedOnce s1) then dorender s1
    else
      let s2 := match renderTimeout s1 with
                | Some t => emit (ClearTimeout t) s1
                | None => s1
                end in
      let t := next_timer s2 in
      emit (SetTimeout t)
           (with_next_timer (S t) (with_renderTimeout (Some t) s2)).

(** The callback handed to [setTimeout] in [render()], run by the host when
    timer [t] expires. *)
Definition timer_fires (t : nat) (s : view) : view :=
  match renderTimeout s with
  | Some t' =>
      if Nat.eqb t t'
      then dorender (with_renderTimeout None (emit (ClearTimeout t) s))
      else s
  | None => s
  end.

(** [lock()] *)
Definition lock (s : view) : view := with_renderlock true s.

(** [unlock()] *)
Definition unlock (s : view) : view :=
  if renderlock s then render (with_renderlock false s) else s.

(** The loop shared by [setPath] and [deletePath]:
    [for (idx=0; idx<(path.length-1); ++idx)], over the segments before the
    last; the result is the object the last segment is applied to. *)
Fixpoint walk (h : heap) (obj : value) (segs : list string)
  : outcome value :=
  match segs with
  | [] => Ok obj
  | key :: segs' =>
      if nullish (get_prop h obj key)
      then Throw (Error ("Can not set key '" +:+ key +:+ "'"))
      else walk h (get_prop h obj key) segs'
  end.

(** [path[idx]] after the loop; [path[0]] of an empty path is [undefined],
    which as a property key reads ["undefined"]. *)
Definition last_key (path : list string) : string := List.last path "undefined".

(** [setPath (data, path, value)] *)
Definition setPath (path : list string) (v : value) (s : view)
  : outcome bool * view :=
  let s := emit (HWrite path v) s in
  let s :=
    match path with
    | [k] => if bool_decide (k ∈ watch s) then emit (Watch k v) s else s
    | _ => s
    end in
  match walk (hp s) (VRef (data s)) (removelast path) with
  | Ok obj =>
      let key := last_key path in
      if negb (String.eqb (typeof (hp s) v) "object")
         && strict_eq (get_prop (hp s) obj key) v
      then (Ok true, s)
      else
        match set_prop (hp s) obj key v with
        | Some h' => (Ok true, render (with_hp h' s))
        | None => (Throw (TypeError "Cannot create property"), s)
        end
  | Throw e => (Throw e, s)
  | OutOfFuel => (OutOfFuel, s)
  end.

(** [deletePath (data, path)] *)
Definition deletePath (path : list string) (s : view) : outcome bool * view :=
  let s := emit (HErase path) s in
  match walk (hp s) (VRef (data s)) (removelast path) with
  | Ok obj =>
      (Ok true, render (with_hp (del_prop (hp s) obj (last_key path)) s))
  | Throw e => (Throw e, s)
  | OutOfFuel => (OutOfFuel, s)
  end.

(** The loop of [getPath]: [for (let key of path)]. *)
Fixpoint getPath_loop (h : heap) (obj : value) (path : list string) : value :=
  match path with
  | [] => obj
  | key :: path' =>
      if negb (String.eqb (typeof h obj) "object") then VUndef
      else
        let obj' := get_prop h obj key in
        if negb (truthy obj') then obj' else getPath_loop h obj' path'
  end.

(** [getPath (data, path)] *)
Definition getPath (path : list string) (s : view) : value * view :=
  let s := emit (HRead path) s in
  match path with
  | "$el" :: _ => (el s, s)
  | ["$isView"] => (VBool true, s)
  | _ => (getPath_loop (hp s) (VRef (data s)) path, s)
  end.

End View.
Export View.

(* ====================================================================== *)
(** ** class NestProxy: the reactive wrapper                               *)
(* ====================================================================== *)
Module NestProxy.

Definition wid := positive.

(** [this.parent] and [this.key], set once by the constructor and never
    assigned again: the chain of keys from the root wrapper down to this
    one.  [key ? key : null] turns a falsy key into [null]. *)
Inductive link :=
| Top
| Sub (parent : link) (key : option string).

(** One [NestProxy] instance.  [subtrees[prop] = {p, dp}] is the id of the
    child instance [dp]; the native [Proxy] [p] around it is identified
    with it.  [this.subtrees] is a plain object used as a map: the lookup
    [this.subtrees[prop]] is the lookup of the map for every [prop] that is
    not [inherited]. *)
Record nestproxy := MkProxy {
  target : loc;
  up : link;
  subtrees : gmap string wid
}.

(** The view together with every wrapper created so far. *)
Record world := MkWorld {
  vw : view;
  proxies : gmap wid nestproxy
}.

Definition proxy_at (σ : world) (w : wid) : nestproxy :=
  default (MkProxy (data (vw σ)) Top ∅) (proxies σ !! w).

Definition with_vw (s : view) (σ : world) : world := MkWorld s (proxies σ).

Definition with_heap (h : heap) (σ : world) : world :=
  MkWorld (with_hp h (vw σ)) (proxies σ).

Definition with_subtrees (w : wid) (m : gmap string wid) (σ : world) : world :=
  let P := proxy_at σ w in
  MkWorld (vw σ) (<[w := MkProxy (target P) (up P) m]> (proxies σ)).

(** Code that reads and writes the world and may throw. *)
Definition M (A : Type) : Type := world -> outcome A * world.

#[global] Instance M_ret : MRet M := λ A a σ, (Ok a, σ).

#[global] Instance M_bind : MBind M := λ A B f m σ,
  match m σ with
  | (Ok a, σ') => f a σ'
  | (Throw e, σ') => (Throw e, σ')
  | (OutOfFuel, σ') => (OutOfFuel, σ')
  end.

Definition throw {A} (e : exn) : M A := λ σ, (Throw e, σ).

Definition out_of_fuel {A} : M A := λ σ, (OutOfFuel, σ).

Definition get_world : M world := λ σ, (Ok σ, σ).

Definition modify (f : world -> world) : M unit := λ σ, (Ok tt, f σ).

(** A call of a handler method: it runs on the view. *)
Definition handler {A} (f : view -> outcome A * view) : M A := λ σ,
  let '(o, s') := f (vw σ) in (o, with_vw s' σ).

(** The segment a key contributes to a path: [null] reads ["null"] when it
    is used as a property name. *)
Definition seg (k : option string) : string :=
  match k with Some k => k | None => "null" end.

(** [keypath()] of the wrapper itself. *)
Fixpoint keypath0 (u : link) : list string :=
  match u with
  | Top => []
  | Sub p k => keypath0 p ++ [seg k]
  end.

(** [keypath (plus)]: [if (plus) res.push (plus)]. *)
Definition keypath (u : link) (plus : string) : list string :=
  keypath0 u ++ (if String.eqb plus EmptyString then [] else [plus]).

(** [if (! this.target[prop]) this.target[prop] = {};] *)
Definition ensure_target (w : wid) (prop : string) : M unit := λ σ,
  let t := VRef (target (proxy_at σ w)) in
  if truthy (get_prop (hp (vw σ)) t prop) then (Ok tt, σ)
  else
    let '(l, h1) := alloc (hp (vw σ)) empty_object in
    match set_prop h1 t prop (VRef l) with
    | Some h2 => (Ok tt, with_heap h2 σ)
    | None => (Throw (TypeError "Cannot create property"), σ)
    end.

(** [let dp = new NestProxy (this.target[prop], this.handler, this, prop);
     let p = new Proxy (this.target[prop], dp);
     this.subtrees[prop] = {p:p,dp:dp};]
    The native [Proxy] constructor refuses a target that is not an object. *)
Definition make_subtree (w : wid) (prop : string) : M wid := λ σ,
  let P := proxy_at σ w in
  match get_prop (hp (vw σ)) (VRef (target P)) prop with
  | VRef l =>
      let d := fresh (dom (proxies σ)) in
      let key := if String.eqb prop EmptyString then None else Some prop in
      let σ1 := MkWorld (vw σ)
                  (<[d := MkProxy l (Sub (up P) key) ∅]> (proxies σ)) in
      (Ok d, with_subtrees w (<[prop := d]> (subtrees P)) σ1)
  | _ =>
      (Throw (TypeError "Cannot create proxy with a non-object as target"), σ)
  end.

(** [delete this.subtrees[prop]] *)
Definition drop_subtree (w : wid) (prop : string) (σ : world) : world :=
  match subtrees (proxy_at σ w) !! prop with
  | Some _ => with_subtrees w (delete prop (subtrees (proxy_at σ w))) σ
  | None => σ
  end.

(** What a read through the wrapper hands back: a value, or the live
    handle of a child wrapper. *)
Inductive handle :=
| HValue (v : value)
| HProxy (w : wid).

(** [getProperty (obj, prop)], for a [prop] that is not [inherited] (an
    inherited name is found in [this.subtrees] without being cached there,
    and the read then gives [undefined]). *)
Definition getProperty (w : wid) (prop : string) : M handle :=
  σ ← get_world;
  match subtrees (proxy_at σ w) !! prop with
  | Some d => mret (HProxy d)
  | None =>
      handled ← handler (λ s,
                  let '(v, s') := getPath (keypath (up (proxy_at σ w)) prop) s
                  in (Ok v, s'));
      σ ← get_world;
      if nullish handled then mret (HValue handled)
      else if negb (String.eqb (typeof (hp (vw σ)) handled) "object")
      then mret (HValue handled)
      else if isElement (hp (vw σ)) handled then mret (HValue handled)
      else
        ensure_target w prop ;;
        d ← make_subtree w prop;
        mret (HProxy d)
  end.

(** [let isobj = (typeof (value) == "object");
     if (isobj && (value === null || value === undefined ||
         Array.isArray (value))) isobj = false;] *)
Definition isobj (h : heap) (v : value) : bool :=
  String.eqb (typeof h v) "object"
  && negb (nullish v || isArray h v).

(** [for (let k in value) body (k)], over the keys present when the loop
    starts. *)
Fixpoint for_in (ks : list string) (body : string -> M bool) : M unit :=
  match ks with
  | [] => mret tt
  | k :: ks' => body k ;; for_in ks' body
  end.

(** [this.target[prop] = value] *)
Definition store_target (w : wid) (prop : string) (v : value) : M unit := λ σ,
  match set_prop (hp (vw σ)) (VRef (target (proxy_at σ w))) prop v with
  | Some h' => (Ok tt, with_heap h' σ)
  | None => (Throw (TypeError "Cannot create property"), σ)
  end.

(** [setProperty (obj, prop, value, ignore, ischild)], for a [prop] that is
    not [inherited].  The recursion follows the nesting of [value], which
    lives in the heap and may be cyclic: [fuel] bounds the depth of the
    calls. *)
Fixpoint setProperty (fuel : nat) (w : wid) (prop : string) (v : value)
  (ischild : bool) : M bool :=
  match fuel with
  | O => out_of_fuel
  | S fuel' =>
      σ ← get_world;
      let io := isobj (hp (vw σ)) v in
      (if negb io then modify (drop_subtree w prop) else mret tt) ;;
      if negb io then
        if ischild then store_target w prop v ;; mret true
        else
          σ ← get_world;
          handler (setPath (keypath (up (proxy_at σ w)) prop) v)
      else
        ensure_target w prop ;;
        σ ← get_world;
        d ← match subtrees (proxy_at σ w) !! prop with
            | Some d => mret d
            | None => make_subtree w prop
            end;
        σ ← get_world;
        for_in (keys_of (hp (vw σ)) v)
          (λ k, σ ← get_world;
                setProperty fuel' d k (get_prop (hp (vw σ)) v k) true) ;;
        if ischild then mret true
        else
          store_target w prop v ;;
          σ ← get_world;
          handler (setPath (keypath (up (proxy_at σ w)) prop) v)
  end.

(** [deleteProperty (obj, prop)] *)
Definition deleteProperty (w : wid) (prop : string) : M bool :=
  modify (drop_subtree w prop) ;;
  σ ← get_world;
  handler (deletePath (keypath (up (proxy_at σ w)) prop)).

(** [NestProxy.create (target, handler)]: the root wrapper of a view. *)
Definition root : wid := 1%positive.

Definition create (s : view) : world :=
  MkWorld s {[ root := MkProxy (data s) Top ∅ ]}.

(** The handler calls among the events, in order. *)
Definition is_handler_call (e : event) : bool :=
  match e with
  | HRead _ | HWrite _ _ | HErase _ => true
  | _ => false
  end.

Definition handler_calls (σ : world) : list event :=
  List.filter is_handler_call (events (vw σ)).

End NestProxy.
Export NestProxy.
(* ====================================================================== *)
(** ** The vocabulary of the statements about the reactive half           *)
(* ====================================================================== *)
Module Reactive.

(** The events one call of [render()] adds when the view is not locked. *)
Definition render_events (s : view) : list event :=
  if renderedOnce s then
    (if onupdate s then [UpdateHook] else [])
    ++ match renderTimeout s with Some t => [ClearTimeout t] | None => [] end
    ++ [SetTimeout (next_timer s)]
  else DoRender :: (if oncreate s then [CreateHook] else []).

(** The events a watcher adds to a write at [path]. *)
Definition watch_events (s : view) (path : list string) (v : value)
  : list event :=
  match path with
  | [k] => if bool_decide (k ∈ watch s) then [Watch k v] else []
  | _ => []
  end.

(** The state [setPath] is in when it reaches its loop. *)
Definition entered (path : list string) (v : value) (s : view) : view :=
  match path with
  | [k] => if bool_decide (k ∈ watch s)
           then emit (Watch k v) (emit (HWrite path v) s)
           else emit (HWrite path v) s
  | _ => emit (HWrite path v) s
  end.

(** A prefix of segments can be followed from [obj] to [o]: every segment
    on the way holds something other than [undefined] and [null]. *)
Fixpoint follow (h : heap) (obj : value) (segs : list string) : option value :=
  match segs with
  | [] => Some obj
  | k :: segs' =>
      if nullish (get_prop h obj k) then None
      else follow h (get_prop h obj k) segs'
  end.

(** [path] traverses a missing intermediate segment [k]: the segments before
    [k] can be followed, [k] itself holds [undefined] or [null], and [k] is
    not the last segment. *)
Definition missing_intermediate (h : heap) (root : value)
  (path : list string) (k : string) : Prop :=
  exists pre post o,
    path = pre ++ k :: post /\ post <> [] /\
    follow h root pre = Some o /\ nullish (get_prop h o k) = true.

Definition invalid_path (k : string) : exn :=
  Error ("Can not set key '" +:+ k +:+ "'").

(** Every lookup made while [segs] are followed from [obj], up to the first
    segment that holds [undefined] or [null], is settled by the object it is
    made on ([own]): there the walk of the model is the walk of the
    source. *)
Fixpoint own_route (h : heap) (obj : value) (segs : list string) : bool :=
  match segs with
  | [] => true
  | k :: segs' =>
      own h obj k
      && (nullish (get_prop h obj k) || own_route h (get_prop h obj k) segs')
  end.

(** [v] is a plain object and none of its keys is a name it inherits:
    [for (k in v)] goes through [keys_of], and a store under one of the keys
    into a plain object is a store of a property. *)
Definition own_keys (h : heap) (v : value) : bool :=
  plain h v && forallb (λ k, negb (inherited k)) (keys_of h v).

(** The first part of a whole-object write at [w].[prop]: make sure
    [target[prop]] holds something truthy, then take the child wrapper
    cached for [prop], or make it. *)
Definition child_of (w : wid) (prop : string) : M wid :=
  ensure_target w prop ;;
  σ ← get_world;
  match subtrees (proxy_at σ w) !! prop with
  | Some d => mret d
  | None => make_subtree w prop
  end.

(** The object that the child wrapper for [prop] writes into is plain: the
    target of the cached child wrapper if there is one, else what
    [target[prop]] holds, which may also be falsy (it is then replaced by
    [{}]). *)
Definition slot_plain (σ : world) (w : wid) (prop : string) : bool :=
  let h := hp (vw σ) in
  match subtrees (proxy_at σ w) !! prop with
  | Some d => plain h (VRef (target (proxy_at σ d)))
  | None =>
      match get_prop h (VRef (target (proxy_at σ w))) prop with
      | VRef l => plain h (VRef l)
      | x => negb (truthy x)
      end
  end.

(** The part of [setProperty] that runs before the handler is called for a
    plain-object value: make sure the child wrapper exists, then write every
    key of the value through it in child mode. *)
Definition fan_out (fuel : nat) (w : wid) (prop : string) (v : value)
  : M unit :=
  ensure_target w prop ;;
  σ ← get_world;
  d ← match subtrees (proxy_at σ w) !! prop with
      | Some d => mret d
      | None => make_subtree w prop
      end;
  σ ← get_world;
  for_in (keys_of (hp (vw σ)) v)
    (λ k, σ ← get_world;
          setProperty fuel d k (get_prop (hp (vw σ)) v k) true).

(** [steady σ σ']: from [σ] to [σ'] nothing was observed and the scheduler
    did not move; wrappers that exist keep their place in the tree. *)
Definition steady (σ σ' : world) : Prop :=
  events (vw σ') = events (vw σ) /\
  data (vw σ') = data (vw σ) /\
  watch (vw σ') = watch (vw σ) /\
  scheduler (vw σ') = scheduler (vw σ) /\
  forall w, is_Some (proxies σ !! w) ->
            is_Some (proxies σ' !! w) /\
            up (proxy_at σ' w) = up (proxy_at σ w) /\
            target (proxy_at σ' w) = target (proxy_at σ w).

(** Code that is [quiet] leaves every world [steady]. *)
Definition quiet {A} (m : M A) : Prop := forall σ, steady σ (snd (m σ)).

Definition render_trace (s : view) : list event :=
  if renderlock s then [] else render_events s.

Definition is_prim (x : value) : bool :=
  match x with VRef _ => false | _ => true end.

(** Every property of the object at [l] holds a primitive. *)
Definition flat (h : heap) (l : loc) : bool :=
  forallb (λ p, is_prim (snd p)) (oprops (obj_at h l)).

(** What the specification asks of a whole-object write of [v] at
    [w].[prop]: a handler write at the path of every own key of [v], and one
    at the path itself. *)
Definition leaf_writes_notified (fuel : nat) (σ : world) (w : wid)
  (prop : string) (v : value) : Prop :=
  let σ' := snd (setProperty fuel w prop v false σ) in
  let P := keypath (up (proxy_at σ w)) prop in
  (forall k, In k (keys_of (hp (vw σ)) v) ->
             exists x, In (HWrite (P ++ [k]) x) (handler_calls σ')) /\
  In (HWrite P v) (handler_calls σ').

(** What the specification asks of a write of a scalar equal to the stored
    value: the handler is not called, the model is unchanged and the
    scheduler does not move. *)
Definition write_is_noop (fuel : nat) (σ : world) (w : wid) (prop : string)
  (v : value) : Prop :=
  let σ' := snd (setProperty fuel w prop v false σ) in
  handler_calls σ' = handler_calls σ /\
  hp (vw σ') = hp (vw σ) /\
  scheduler (vw σ') = scheduler (vw σ).

(** What the specification asks of [unlock()] when nothing was written
    while the view was locked: no render. *)
Definition unlock_respects_dirty (s : view) : Prop :=
  events (unlock (lock s)) = events s /\
  scheduler (unlock (lock s)) = scheduler s.

End Reactive.
Export Reactive.

(* ====================================================================== *)
(** ** Concrete models used in the examples                               *)
(* ====================================================================== *)
Module Scenario.

(** A view that has rendered once and is idle. *)
Definition idle (h : heap) (watched : list string) : view :=
  MkView h 1%positive VNull watched false false false true None 1%nat [].

(** Scenario D: the model [{obj: {}}] and the value [{a:1, b:2}]. *)
Definition heapD : heap :=
  <[3%positive := Obj KPlain [("a", VNum 1); ("b", VNum 2)]]>
    (<[2%positive := Obj KPlain []]>
       (<[1%positive := Obj KPlain [("obj", VRef 2)]]> ∅)).

Definition valueD : value := VRef 3.

(** [let obj = view.obj] *)
Definition worldD : world :=
  snd (getProperty root "obj" (create (idle heapD []))).

Definition objD : wid := 2%positive.

(** The model [{x: null, n: 5}], with a watcher on [n]. *)
Definition heapN : heap :=
  <[1%positive := Obj KPlain [("x", VNull); ("n", VNum 5)]]> ∅.

Definition worldN : world := create (idle heapN ["n"]).

(** The model [{a: {b: {}}}] after [let pa = view.a; let pb = pa.b;
    delete pa.b]: the wrapper [pb] outlives the object it was made for. *)
Definition heapM : heap :=
  <[3%positive := Obj KPlain []]>
    (<[2%positive := Obj KPlain [("b", VRef 3)]]>
       (<[1%positive := Obj KPlain [("a", VRef 2)]]> ∅)).

Definition worldM : world :=
  let σ1 := snd (getProperty root "a" (create (idle heapM []))) in
  let σ2 := snd (getProperty 2%positive "b" σ1) in
  snd (deleteProperty 2%positive "b" σ2).

Definition pbM : wid := 3%positive.

(** The model [{obj: {}}] and the value [{a: {b: 1}}]. *)
Definition heapE : heap :=
  <[4%positive := Obj KPlain [("b", VNum 1)]]>
    (<[3%positive := Obj KPlain [("a", VRef 4)]]>
       (<[2%positive := Obj KPlain []]>
          (<[1%positive := Obj KPlain [("obj", VRef 2)]]> ∅))).

Definition worldE : world :=
  snd (getProperty root "obj" (create (idle heapE []))).

(** The model [{title: "My page"}] and the value [{a:1, b:2}]. *)
Definition heapT : heap :=
  <[3%positive := Obj KPlain [("a", VNum 1); ("b", VNum 2)]]>
    (<[1%positive := Obj KPlain [("title", VStr "My page")]]> ∅).

End Scenario.

(* ====================================================================== *)
(** ** Strings as the renderer uses them                                  *)
(* ====================================================================== *)
Module Str.

Definition quote : ascii := ascii_of_nat 34.
Definition backslash : ascii := ascii_of_nat 92.

(** [s.startsWith (p)] *)
Definition startsWith (p s : string) : bool := String.prefix p s.

(** [s.substr (n)] *)
Fixpoint drop (n : nat) (s : string) : string :=
  match n, s with
  | O, _ => s
  | S n', String _ s' => drop n' s'
  | S _, EmptyString => EmptyString
  end.

(** [s.endsWith (p)] *)
Definition endsWith (p s : string) : bool :=
  Nat.leb (String.length p) (String.length s)
  && String.eqb (drop (String.length s - String.length p) s) p.

(** [s.indexOf (p) >= 0] *)
Fixpoint contains (p s : string) : bool :=
  String.prefix p s
  || match s with
     | EmptyString => false
     | String _ s' => contains p s'
     end.

(** [s.split (sep)] for a separator that is not empty: [cur] holds the
    piece being read, reversed, and [skip] counts the characters of a
    separator still to be passed over. *)
Fixpoint split_go (sep : string) (skip : nat) (cur : list ascii) (s : string)
  : list string :=
  match s with
  | EmptyString => [string_of_list_ascii (rev cur)]
  | String c s' =>
      match skip with
      | S k => split_go sep k cur s'
      | O =>
          if String.prefix sep s
          then string_of_list_ascii (rev cur)
               :: split_go sep (String.length sep - 1) [] s'
          else split_go sep 0 (c :: cur) s'
      end
  end.

Definition split (sep s : string) : list string := split_go sep 0 [] s.

(** [l.join (sep)] *)
Definition join (sep : string) (l : list string) : string := String.concat sep l.

Definition lower_char (c : ascii) : ascii :=
  let n := nat_of_ascii c in
  if Nat.leb 65 n && Nat.leb n 90 then ascii_of_nat (n + 32) else c.

(** [s.toLowerCase ()] *)
Fixpoint toLowerCase (s : string) : string :=
  match s with
  | EmptyString => EmptyString
  | String c s' => String (lower_char c) (toLowerCase s')
  end.

(** [s.padStart (n, '0')] *)
Definition padStart0 (n : nat) (s : string) : string :=
  string_of_list_ascii (repeat "0"%char (n - String.length s)) +:+ s.

End Str.

(* ====================================================================== *)
(** ** Values as the renderer sees them                                   *)
(* ====================================================================== *)
Module Val.

(** The renderer inspects, serialises and enumerates the values that
    expressions evaluate to and never assigns into them: they are taken as
    finite trees.  A function is known by its source text. *)
#[local] Set Warnings "-register-all".
Inductive jsval :=
| JUndef
| JNull
| JBool (b : bool)
| JNum (n : Z)
| JNaN
| JStr (s : string)
| JFun (src : string)
| JArr (items : list jsval)
| JObj (props : list (string * jsval)).
#[local] Set Warnings "+register-all".

(** A local scope ([tempvars]): names in insertion order. *)
Definition locals := list (string * jsval).

(** [typeof v] *)
Definition jtypeof (v : jsval) : string :=
  match v with
  | JUndef => "undefined"
  | JNull | JArr _ | JObj _ => "object"
  | JBool _ => "boolean"
  | JNum _ | JNaN => "number"
  | JStr _ => "string"
  | JFun _ => "function"
  end.

(** [! v] is [negb (jtruthy v)]. *)
Definition jtruthy (v : jsval) : bool :=
  match v with
  | JUndef | JNull | JNaN => false
  | JBool b => b
  | JNum n => negb (Z.eqb n 0)
  | JStr s => negb (String.eqb s EmptyString)
  | JFun _ | JArr _ | JObj _ => true
  end.

(** The integers that a number holds exactly and prints digit by digit:
    those below 2^53 in size.  [safe v]: every number in [v] is one. *)
Fixpoint safe (v : jsval) : bool :=
  match v with
  | JNum n => Z.abs n <? 2 ^ 53
  | JArr items => forallb safe items
  | JObj props => forallb (fun p => safe (snd p)) props
  | _ => true
  end.

(** [String (v)], for [safe v]; a larger number prints rounded, or with an
    exponent. *)
Fixpoint to_string (v : jsval) : string :=
  match v with
  | JUndef => "undefined"
  | JNull => "null"
  | JBool true => "true"
  | JBool false => "false"
  | JNum n => pretty n
  | JNaN => "NaN"
  | JStr s => s
  | JFun src => src
  | JArr items =>
      Str.join ","
        (map (fun x => match x with
                       | JUndef | JNull => EmptyString
                       | _ => to_string x
                       end) items)
  | JObj _ => "[object Object]"
  end.

Definition hex_digit (n : nat) : ascii :=
  if Nat.ltb n 10 then ascii_of_nat (48 + n) else ascii_of_nat (87 + n).

(** One character inside a JSON string literal. *)
Definition json_escape_char (c : ascii) : string :=
  let n := nat_of_ascii c in
  if Ascii.eqb c Str.quote then String Str.backslash (String Str.quote EmptyString)
  else if Ascii.eqb c Str.backslash
  then String Str.backslash (String Str.backslash EmptyString)
  else if Nat.eqb n 8 then String Str.backslash "b"
  else if Nat.eqb n 9 then String Str.backslash "t"
  else if Nat.eqb n 10 then String Str.backslash "n"
  else if Nat.eqb n 12 then String Str.backslash "f"
  else if Nat.eqb n 13 then String Str.backslash "r"
  else if Nat.ltb n 32
  then String Str.backslash
         ("u00" +:+ String (hex_digit (n / 16)) (String (hex_digit (n mod 16)) EmptyString))
  else String c EmptyString.

Fixpoint json_escape (s : string) : string :=
  match s with
  | EmptyString => EmptyString
  | String c s' => json_escape_char c +:+ json_escape s'
  end.

Definition json_quote (s : string) : string :=
  String Str.quote (json_escape s) +:+ String Str.quote EmptyString.

(** [JSON.stringify (v)], for [safe v]: [None] is [undefined].  Inside an
    array [undefined] and functions read [null]; inside an object their key
    is left out. *)
Fixpoint json (v : jsval) : option string :=
  match v with
  | JUndef | JFun _ => None
  | JNull | JNaN => Some "null"
  | JBool true => Some "true"
  | JBool false => Some "false"
  | JNum n => Some (pretty n)
  | JStr s => Some (json_quote s)
  | JArr items =>
      Some ("[" +:+ Str.join "," (map (fun x => default "null" (json x)) items)
                +:+ "]")
  | JObj props =>
      let fix members (ps : list (string * jsval)) : list string :=
        match ps with
        | [] => []
        | (k, x) :: ps' =>
            match json x with
            | Some t => (json_quote k +:+ ":" +:+ t) :: members ps'
            | None => members ps'
            end
        end in
      Some ("{" +:+ Str.join "," (members props) +:+ "}")
  end.

(** The pairs [(i, data[i])] that [for (let i in data)] goes through. *)
Definition entries (data : jsval) : list (string * jsval) :=
  match data with
  | JArr items => imap (fun i x => (pretty i, x)) items
  | JObj props => props
  | JStr s =>
      imap (fun i c => (pretty i, JStr (String c EmptyString)))
           (list_ascii_of_string s)
  | _ => []
  end.

Fixpoint jlookup (k : string) (ps : list (string * jsval)) : jsval :=
  match ps with
  | [] => JUndef
  | (k', v) :: ps' => if String.eqb k k' then v else jlookup k ps'
  end.

(** [o[k] = v] on a scope. *)
Fixpoint assign (k : string) (v : jsval) (ps : locals) : locals :=
  match ps with
  | [] => [(k, v)]
  | (k', v') :: ps' =>
      if String.eqb k k' then (k, v) :: ps' else (k', v') :: assign k v ps'
  end.

(** [v[k]]: a property of an object, an index or the [length] of an array
    or of a string. *)
Definition jget (v : jsval) (k : string) : jsval :=
  match v with
  | JObj props => jlookup k props
  | JArr items =>
      if String.eqb k "length" then JNum (Z.of_nat (List.length items))
      else jlookup k (entries v)
  | JStr s =>
      if String.eqb k "length" then JNum (Z.of_nat (String.length s))
      else jlookup k (entries v)
  | _ => JUndef
  end.

End Val.
Export Val.

(* ====================================================================== *)
(** ** Vidi.checksum                                                      *)
(* ====================================================================== *)
Module Checksum.

(** [ToInt32]: what [|] and [<<] do to their operands and their result. *)
Definition to_int32 (z : Z) : Z :=
  let m := z mod 2 ^ 32 in
  if m <? 2 ^ 31 then m else m - 2 ^ 32.

(** [a << n] *)
Definition shl32 (a : Z) (n : Z) : Z := to_int32 (Z.shiftl (to_int32 a) n).

(** [a | b] *)
Definition or32 (a b : Z) : Z := to_int32 (Z.lor (to_int32 a) (to_int32 b)).

(** [s.charCodeAt (i)] *)
Definition charCode (c : ascii) : Z := Z.of_nat (nat_of_ascii c).

(** The loop: [hash = ((hash << 5) - hash) + chr; hash |= 0;] *)
Fixpoint hash_loop (s : string) (hash : Z) : Z :=
  match s with
  | EmptyString => hash
  | String c s' => hash_loop s' (or32 ((shl32 hash 5 - hash) + charCode c) 0)
  end.

(** [n.toString (16)] for [n >= 0] *)
Definition toString16 (n : Z) : string :=
  HexadecimalString.NilZero.string_of_uint (N.to_hex_uint (Z.to_N n)).

(** [Vidi.checksum] on a string. *)
Definition checksum (s : string) : string :=
  let hash := hash_loop s 0 in
  let hash := if hash <? 0 then - (hash - 1) else hash in
  let code := Str.padStart0 8 (toString16 hash) in
  substring 0 4 code +:+ "-" +:+ Str.drop 4 code.

(** [Vidi.checksum] on any value:
    [if (typeof (s) == "object") s = JSON.stringify (s);
     if (typeof (s) != "string") s = String (s);] *)
Definition checksum_value (v : jsval) : string :=
  match v with
  | JStr s => checksum s
  | JNull | JArr _ | JObj _ => checksum (default "undefined" (json v))
  | _ => checksum (to_string v)
  end.

End Checksum.

(* ====================================================================== *)
(** ** DOM nodes and VidiView.compareNodes                                *)
(* ====================================================================== *)
Module Dom.

(** A node of a template or of a rendered tree.  [uid] stands for the
    identity of an element object: [document.createElement] hands out a new
    one each time.  The [value] property is kept apart from the attribute list
    (the reflection between the two that form controls do is not modelled); [listeners] records, for each
    [addEventListener], the event name and the source text bound to it. *)
#[local] Set Warnings "-register-all".
Inductive node :=
| Element (uid : nat) (tagName : string) (attrs : list (string * string))
          (value : option string)
          (listeners : list (string * string)) (childNodes : list node)
| TextNode (data : string)
| CommentNode (data : string).
#[local] Set Warnings "+register-all".

Inductive nodeType := ELEMENT_NODE | TEXT_NODE | COMMENT_NODE.

Definition nodeType_of (n : node) : nodeType :=
  match n with
  | Element _ _ _ _ _ _ => ELEMENT_NODE
  | TextNode _ => TEXT_NODE
  | CommentNode _ => COMMENT_NODE
  end.

Definition nodeType_eqb (a b : nodeType) : bool :=
  match a, b with
  | ELEMENT_NODE, ELEMENT_NODE | TEXT_NODE, TEXT_NODE
  | COMMENT_NODE, COMMENT_NODE => true
  | _, _ => false
  end.

(** [n.tagName]: [undefined] on text and comments. *)
Definition tagName_of (n : node) : option string :=
  match n with Element _ t _ _ _ _ => Some t | _ => None end.

Definition attrs_of (n : node) : list (string * string) :=
  match n with Element _ _ a _ _ _ => a | _ => [] end.

Definition value_of (n : node) : option string :=
  match n with Element _ _ _ v _ _ => v | _ => None end.

Definition childNodes_of (n : node) : list node :=
  match n with Element _ _ _ _ _ c => c | _ => [] end.

Definition uid_of (n : node) : option nat :=
  match n with Element u _ _ _ _ _ => Some u | _ => None end.

Definition is_element (n : node) : bool :=
  match n with Element _ _ _ _ _ _ => true | _ => false end.

(** [n.childElementCount] *)
Definition childElementCount (n : node) : nat :=
  List.length (List.filter is_element (childNodes_of n)).

(** [n.textContent]: the text of the descendants, comments left out. *)
Fixpoint textContent (n : node) : string :=
  match n with
  | Element _ _ _ _ _ kids =>
      (fix go (ks : list node) : string :=
         match ks with
         | [] => EmptyString
         | CommentNode _ :: ks' => go ks'
         | k :: ks' => textContent k +:+ go ks'
         end) kids
  | TextNode d => d
  | CommentNode d => d
  end.

(** [getAttribute (a)]: [None] is [null]. *)
Fixpoint getAttr (a : string) (attrs : list (string * string)) : option string :=
  match attrs with
  | [] => None
  | (a', v) :: attrs' => if String.eqb a a' then Some v else getAttr a attrs'
  end.

(** [setAttribute (a, v)] *)
Fixpoint setAttr (a v : string) (attrs : list (string * string))
  : list (string * string) :=
  match attrs with
  | [] => [(a, v)]
  | (a', v') :: attrs' =>
      if String.eqb a a' then (a, v) :: attrs' else (a', v') :: setAttr a v attrs'
  end.

(** [removeAttribute (a)] *)
Fixpoint removeAttr (a : string) (attrs : list (string * string))
  : list (string * string) :=
  match attrs with
  | [] => []
  | (a', v') :: attrs' =>
      if String.eqb a a' then attrs' else (a', v') :: removeAttr a attrs'
  end.

Definition getAttribute (n : node) (a : string) : option string :=
  getAttr a (attrs_of n).

(** A string attribute read in a condition: [null] and the empty string
    are falsy. *)
Definition attr_truthy (o : option string) : bool :=
  match o with
  | Some s => negb (String.eqb s EmptyString)
  | None => false
  end.

Definition opt_string_eqb (a b : option string) : bool :=
  match a, b with
  | Some x, Some y => String.eqb x y
  | None, None => true
  | _, _ => false
  end.

Definition with_childNodes (n : node) (kids : list node) : node :=
  match n with
  | Element u t a v l _ => Element u t a v l kids
  | _ => n
  end.

Definition with_value (n : node) (v : option string) : node :=
  match n with
  | Element u t a _ l c => Element u t a v l c
  | _ => n
  end.

Definition with_attrs (n : node) (a : list (string * string)) : node :=
  match n with
  | Element u t _ v l c => Element u t a v l c
  | _ => n
  end.

(** [a] and [b] are one and the same element. *)
Definition same_node (a b : node) : bool :=
  match uid_of a, uid_of b with
  | Some x, Some y => Nat.eqb x y
  | _, _ => false
  end.

(** [into.appendChild (elm)], on the children of [into]: an element that
    has a place among them already leaves that place. *)
Definition appendChild (into : list node) (elm : node) : list node :=
  List.filter (fun n => negb (same_node n elm)) into ++ [elm].

(** No element occurs twice in the list. *)
Fixpoint apart (els : list node) : bool :=
  match els with
  | [] => true
  | e :: es => negb (existsb (same_node e) es) && apart es
  end.

(** [document.createElement ("div")] *)
Definition filler (uid : nat) : node := Element uid "DIV" [] None [] [].

(** [while (left.childNodes.length < rl)
       left.appendChild (document.createElement ("div"));]
    with [n] the number of children still to add. *)
Fixpoint pad (n : nat) (doc : nat) (kids : list node) : list node * nat :=
  match n with
  | O => (kids, doc)
  | S n' => pad n' (S doc) (kids ++ [filler doc])
  end.

(** One round of the attribute loops of [compareNodes], for the name [a]. *)
Definition sync_attr (right : list (string * string)) (a : string)
  (left : list (string * string)) : list (string * string) :=
  if opt_string_eqb (getAttr a left) (getAttr a right) then left
  else
    match getAttr a right with
    | None => removeAttr a left
    | Some v => setAttr a v left
    end.

Definition sync_attrs (right : list (string * string)) (names : list string)
  (left : list (string * string)) : list (string * string) :=
  fold_left (fun l a => sync_attr right a l) names left.

(** The child-count branches of [compareNodes]: [None] is [return false];
    otherwise the old node with its children added to or cut down. *)
Definition resize (left right : node) (doc : nat) : option (node * nat) :=
  let ll := List.length (childNodes_of left) in
  let rl := List.length (childNodes_of right) in
  if Nat.ltb ll rl then
    if Nat.eqb ll 0 then None
    else if Nat.ltb 100 ll then None
    else
      let '(kids, doc') := pad (rl - ll) doc (childNodes_of left) in
      Some (with_childNodes left kids, doc')
  else if Nat.ltb rl ll then
    if Nat.ltb 100 ll then None
    else Some (with_childNodes left (firstn rl (childNodes_of left)), doc)
  else Some (left, doc).

(** The rest of [compareNodes], from the text comparison on. *)
Definition settle (left right : node) (doc : nat) : bool * node * nat :=
  if Nat.eqb (childElementCount left) 0
     && negb (String.eqb (textContent left) (textContent right))
  then (false, left, doc)
  else
    let left2 :=
      if negb (opt_string_eqb (value_of left) (value_of right))
      then with_value left (value_of right) else left in
    if is_element left2 then
      let lefteventid := getAttribute left2 "v-eventid" in
      let righteventid := getAttribute right "v-eventid" in
      if (attr_truthy lefteventid || attr_truthy righteventid)
         && negb (opt_string_eqb lefteventid righteventid)
      then (false, left2, doc)
      else
        let a1 := sync_attrs (attrs_of right) (map fst (attrs_of left2))
                    (attrs_of left2) in
        let a2 := sync_attrs (attrs_of right) (map fst (attrs_of right)) a1 in
        (true, with_attrs left2 a2, doc)
    else (true, left2, doc).

(** [compareNodes (left, right)].  [left] is changed in place: the result
    carries what [left] has become; [doc] is the identity the next created
    element gets. *)
Definition compareNodes (left right : node) (doc : nat) : bool * node * nat :=
  if negb (nodeType_eqb (nodeType_of left) (nodeType_of right))
  then (false, left, doc)
  else if negb (opt_string_eqb (tagName_of left) (tagName_of right))
  then (false, left, doc)
  else if is_element left
          && opt_string_eqb (getAttribute left "v-static") (Some "keep")
  then (true, left, doc)
  else
    match resize left right doc with
    | None => (false, left, doc)
    | Some (left1, doc1) => settle left1 right doc1
    end.

End Dom.
Export Dom.

(* ====================================================================== *)
(** ** Moustache spans: the regular expression of parseMoustache          *)
(* ====================================================================== *)
Module Moustache.

(** A piece of a scanned string: a character copied as it is, or one match
    [m] of the regular expression of [parseMoustache]: two opening braces,
    an optional blank, any characters other than a closing brace, an
    optional blank, two closing braces. *)
Inductive piece :=
| Lit (c : ascii)
| Span (m : string).

(** After an opening [{{]: the characters up to the first [}], which must be
    followed at once by a second [}]; and what comes after that.  (The
    optional blanks add nothing: what they may match, the run of characters
    other than [}] matches as well.) *)
Fixpoint close_at (s : string) : option (string * string) :=
  match s with
  | EmptyString => None
  | String c s' =>
      if Ascii.eqb c "}"
      then match s' with
           | String c' rest =>
               if Ascii.eqb c' "}" then Some (EmptyString, rest) else None
           | EmptyString => None
           end
      else match close_at s' with
           | Some (inner, rest) => Some (String c inner, rest)
           | None => None
           end
  end.

(** A match of the expression at the start of [s]: the match and the rest. *)
Definition match_at (s : string) : option (string * string) :=
  match s with
  | String c1 (String c2 s') =>
      if Ascii.eqb c1 "{" && Ascii.eqb c2 "{" then
        match close_at s' with
        | Some (inner, rest) => Some ("{{" +:+ inner +:+ "}}", rest)
        | None => None
        end
      else None
  | _ => None
  end.

Definition inspect {A} (a : A) : {b | a = b} := exist _ a eq_refl.

(** The scan of [str.replace], left to right: after a match
    the scan goes on behind it, elsewhere one character further. *)
Equations? pieces (s : string) : list piece by wf (String.length s) lt :=
  pieces EmptyString := [];
  pieces (String c s') with inspect (match_at (String c s')) := {
    | exist _ (Some (m, rest)) H := Span m :: pieces rest;
    | exist _ None H := Lit c :: pieces s' }.
Proof.
  assert (L : forall t i r, close_at t = Some (i, r) ->
                            (String.length r < String.length t)%nat).
  { induction t as [|a t IH]; cbn; [discriminate|].
    intros i r. destruct (Ascii.eqb a "}").
    - destruct t as [|b t]; [discriminate|].
      destruct (Ascii.eqb b "}"); [|discriminate].
      intros [= _ <-]. cbn. lia.
    - destruct (close_at t) as [[i' r']|] eqn:E; [|discriminate].
      intros [= _ <-]. specialize (IH _ _ eq_refl). lia. }
  unfold match_at in H. destruct s' as [|c2 s'']; [discriminate|].
  destruct (_ && _); [|discriminate].
  destruct (close_at s'') as [[i r]|] eqn:E; [|discriminate].
  injection H as _ <-. apply L in E. cbn. lia.
Qed.

End Moustache.
Export Moustache.

(* ====================================================================== *)
(** ** The renderer: parseMoustache, cloneElement, renderTemplate         *)
(* ====================================================================== *)
Module Render.

Section WithHost.

(** The renderer's collaborators, taken as given.  [W] is everything an
    expression can read or change (the model behind the reactive wrapper).
    [eval e tempvars noreturn] is [VidiView.eval]: it hands back the value,
    the diagnostics it gave, and the new world; it catches what the
    expression throws.  [view_get index] is the inner [get (self.view,
    index)] of [getChild].  [abstract_eq] is [==].  [parse_html] gives the
    children that [nw.innerHTML = s] leaves.  [style_display_none] gives
    the [style] attribute after [nw.style.display = "none"]. *)
Variable W : Type.
Variable eval : string -> locals -> bool -> W -> jsval * list string * W.
Variable view_get : string -> W -> jsval * W.
Variable abstract_eq : jsval -> jsval -> bool.
Variable parse_html : string -> list node.
Variable style_display_none : option string -> string.

(** One entry of [self.$loopcache]. *)
Record cache_entry := MkEntry { datachk : string; elements : list node }.

(** What a render reads and writes: the host's world, [self.$loopcache], what
    [Vidi.warn] was called with, and the identity the next created element
    gets. *)
Record rstate := MkR {
  host : W;
  loopcache : gmap string cache_entry;
  console : list string;
  doc : nat
}.

Definition R (A : Type) : Type := rstate -> outcome A * rstate.

#[export] Instance R_ret : MRet R := λ A a st, (Ok a, st).

#[export] Instance R_bind : MBind R := λ A B f m st,
  match m st with
  | (Ok a, st') => f a st'
  | (Throw e, st') => (Throw e, st')
  | (OutOfFuel, st') => (OutOfFuel, st')
  end.

Definition get_state : R rstate := λ st, (Ok st, st).

Definition rthrow {A} (e : exn) : R A := λ st, (Throw e, st).

(** [Vidi.warn (str)] *)
Definition warn (str : string) : R unit := λ st,
  (Ok tt, MkR (host st) (loopcache st) (console st ++ [str]) (doc st)).

(** [self.eval (e, tempvars, noreturn)] *)
Definition run_eval (e : string) (tv : locals) (noreturn : bool) : R jsval :=
  λ st,
    let '(v, warns, w') := eval e tv noreturn (host st) in
    (Ok v, MkR w' (loopcache st) (console st ++ warns) (doc st)).

(** [document.createElement (tag)] *)
Definition createElement (tag : string) : R node := λ st,
  (Ok (Element (doc st) tag [] None [] []),
   MkR (host st) (loopcache st) (console st) (S (doc st))).

Definition set_cache (k : string) (e : cache_entry) : R unit := λ st,
  (Ok tt, MkR (host st) (<[k := e]> (loopcache st)) (console st) (doc st)).

(** The callback of [parseMoustache], for one match [m]. *)
Definition moustache_span (m : string) (tv : locals) : R string :=
  let src := substring 2 (String.length m - 4) m in
  res ← run_eval src tv false;
  match res with
  | JNull | JUndef => mret (to_string res)
  | _ =>
      if negb (String.eqb (jtypeof res) "object") then mret (to_string res)
      else
        warn ("[Vidi] got an object when evaluating {{" +:+ src +:+ "}}") ;;
        mret "[Object]"
  end.

Fixpoint replace_pieces (ps : list piece) (tv : locals) : R string :=
  match ps with
  | [] => mret EmptyString
  | Lit c :: ps' => out ← replace_pieces ps' tv; mret (String c out)
  | Span m :: ps' =>
      r ← moustache_span m tv;
      out ← replace_pieces ps' tv;
      mret (r +:+ out)
  end.

(** [parseMoustache (str, tempvars)] *)
Definition parseMoustache (str : string) (tv : locals) : R string :=
  replace_pieces (pieces str) tv.

(** The inner [get (obj, index)] of [getChild], on a scope. *)
Fixpoint get_keys (crsr : jsval) (keys : list string) : jsval :=
  match keys with
  | [] => crsr
  | key :: keys' =>
      let crsr' := jget crsr key in
      if negb (jtruthy crsr') then crsr' else get_keys crsr' keys'
  end.

Definition get_local (tv : locals) (index : string) : jsval :=
  if negb (Str.contains "." index) then jlookup index tv
  else get_keys (JObj tv) (Str.split "." index).

(** [getChild (tempvars, index)] *)
Definition getChild (tv : locals) (index : string) : R jsval :=
  match get_local tv index with
  | JUndef => λ st,
      let '(v, w') := view_get index (host st) in
      (Ok v, MkR w' (loopcache st) (console st) (doc st))
  | res => mret res
  end.

(** What the attribute loop of [cloneElement] builds up: the attributes and
    listeners of [nw], and the locals [checksumstr], [innerhtml],
    [setvalue]. *)
Record builder := MkBuilder {
  b_attrs : list (string * string);
  b_listeners : list (string * string);
  b_checksumstr : string;
  b_innerhtml : jsval;
  b_setvalue : jsval
}.

Definition b_setAttribute (a v : string) (b : builder) : builder :=
  MkBuilder (setAttr a v (b_attrs b)) (b_listeners b) (b_checksumstr b)
            (b_innerhtml b) (b_setvalue b).

Definition b_removeAttribute (a : string) (b : builder) : builder :=
  MkBuilder (removeAttr a (b_attrs b)) (b_listeners b) (b_checksumstr b)
            (b_innerhtml b) (b_setvalue b).

Definition b_addEventListener (ev src : string) (b : builder) : builder :=
  MkBuilder (b_attrs b) (b_listeners b ++ [(ev, src)]) (b_checksumstr b)
            (b_innerhtml b) (b_setvalue b).

Definition b_checksum_add (s : string) (b : builder) : builder :=
  MkBuilder (b_attrs b) (b_listeners b) (b_checksumstr b +:+ s)
            (b_innerhtml b) (b_setvalue b).

Definition b_with_innerhtml (v : jsval) (b : builder) : builder :=
  MkBuilder (b_attrs b) (b_listeners b) (b_checksumstr b) v (b_setvalue b).

Definition b_with_setvalue (v : jsval) (b : builder) : builder :=
  MkBuilder (b_attrs b) (b_listeners b) (b_checksumstr b) (b_innerhtml b) v.

Definition opt_jsval (o : option string) : jsval :=
  match o with Some s => JStr s | None => JUndef end.

(** [case "v-model"] *)
Definition clone_v_model (orig : node) (tv : locals) (val : string)
  (b : builder) : R builder :=
  curval ← getChild tv val;
  let b := b_with_setvalue curval b in
  let tag := default EmptyString (tagName_of orig) in
  let evid := if String.eqb tag "SELECT" then "change" else "input" in
  let inputtype :=
    if String.eqb tag "INPUT" then
      match getAttribute orig "type" with
      | Some t => if String.eqb t EmptyString then Some t
                  else Some (Str.toLowerCase t)
      | None => None
      end
    else None in
  let is_radio := opt_string_eqb inputtype (Some "radio") in
  let evid :=
    if opt_string_eqb inputtype (Some "checkbox") || is_radio
    then "change" else evid in
  let b :=
    if is_radio then
      let setvalue := opt_jsval (value_of orig) in
      let b := b_with_setvalue setvalue b in
      if abstract_eq setvalue curval then b_setAttribute "checked" EmptyString b
      else b_removeAttribute "checked" b
    else b in
  mret (b_checksum_add ("//" +:+ val) (b_addEventListener evid val b)).

(** [case "v-on"] *)
Definition clone_v_on (a : string) (tv : locals) (val : string) (b : builder)
  : R builder :=
  let evname := Str.drop 5 a in
  val ← (if Str.contains "{{" val then parseMoustache val tv else mret val);
  mret (b_addEventListener evname val (b_checksum_add ("//" +:+ val) b)).

(** [case "v-bind"] *)
Definition clone_v_bind (orig : node) (a : string) (tv : locals) (val : string)
  (b : builder) : R builder :=
  let bindto := Str.drop 7 a in
  val ← (if Str.contains "{{" val then parseMoustache val tv else mret val);
  v ← (if Str.startsWith "{" val && Str.endsWith "}" val then
         res ← run_eval val tv false;
         mret (JStr (Str.join " "
                 (map fst (List.filter (fun p => jtruthy (snd p)) (entries res)))))
       else run_eval val tv false);
  match v with
  | JBool false => mret (b_removeAttribute bindto b)
  | JUndef => mret b
  | JBool true => mret (b_setAttribute bindto EmptyString b)
  | _ =>
      let s :=
        if attr_truthy (getAttribute orig bindto)
        then default EmptyString (getAttribute orig bindto) +:+ " " +:+ to_string v
        else to_string v in
      mret (b_setAttribute bindto s b)
  end.

(** The body of [for (let a of orig.getAttributeNames())]. *)
Definition clone_attr (orig : node) (tv : locals) (a val : string)
  (b : builder) : R builder :=
  let a := if Str.startsWith ":" a then "v-bind" +:+ a else a in
  if Str.startsWith "v-" a then
    let attrbase := hd EmptyString (Str.split ":" a) in
    if String.eqb attrbase "v-model" then clone_v_model orig tv val b
    else if String.eqb attrbase "v-on" then clone_v_on a tv val b
    else if String.eqb attrbase "v-bind" then clone_v_bind orig a tv val b
    else if String.eqb attrbase "v-html" then
      v ← run_eval val tv false; mret (b_with_innerhtml v b)
    else if String.eqb attrbase "v-component" || String.eqb attrbase "v-static"
    then mret (b_setAttribute a val b)
    else if String.eqb attrbase "v-if" || String.eqb attrbase "v-for"
            || String.eqb attrbase "v-eventid" || String.eqb attrbase "v-show"
            || String.eqb attrbase "v-instance"
    then mret b
    else warn ("Unknown v-attribute: " +:+ a) ;; mret b
  else
    val ← (if Str.startsWith "{{" val then parseMoustache val tv else mret val);
    if negb (attr_truthy (getAttribute orig ("v-bind:" +:+ a)))
    then mret (b_setAttribute a val b)
    else mret b.

Fixpoint clone_attrs (orig : node) (tv : locals)
  (attrs : list (string * string)) (b : builder) : R builder :=
  match attrs with
  | [] => mret b
  | (a, val) :: attrs' =>
      b' ← clone_attr orig tv a val b; clone_attrs orig tv attrs' b'
  end.

(** The string the event signature is the checksum of: the sources
    gathered from [v-model] and [v-on], then the scope without its
    [$]-names. *)
Definition signature_text (checksumstr : string) (tv : locals) : string :=
  checksumstr +:+ "//"
  +:+ default "undefined"
        (json (JObj (List.filter (fun p => negb (Str.startsWith "$" (fst p))) tv))).

(** [if (checksumstr.length) { ... nw.setAttribute ("v-eventid", checksum) }] *)
Definition stamp (tv : locals) (b : builder) : builder :=
  if String.eqb (b_checksumstr b) EmptyString then b
  else b_setAttribute "v-eventid"
         (Checksum.checksum (signature_text (b_checksumstr b) tv)) b.

(** [appendClone (into, orig, tempvars, hide)], with the clone of [orig]
    still to be made by [clone].  The clone is a new element: it has no
    place yet, and [into.appendChild (nw)] adds it at the end. *)
Definition appendClone_with (clone : locals -> R node) (into : list node)
  (tv : locals) (hide : bool) : R (list node * node) :=
  nw ← clone tv;
  let nw :=
    if hide
    then with_attrs nw (setAttr "style"
                          (style_display_none (getAttribute nw "style"))
                          (attrs_of nw))
    else nw in
  mret (into ++ [nw], nw).

(** The loop [for (let i in data)] of [renderTemplate]. *)
Fixpoint render_entries (clone : locals -> R node) (loopfor : string)
  (loopvar : string) (indexvar countvar : option string) (hide : bool)
  (tv : locals) (es : list (string * jsval)) (index : Z) (into : list node)
  : R (list node) :=
  match es with
  | [] => mret into
  | (i, x) :: es' =>
      let tv1 := match indexvar with
                 | Some iv => assign iv (JStr i) tv
                 | None => tv
                 end in
      let tv2 := match countvar with
                 | Some cv => assign cv (JNum index) tv1
                 | None => tv1
                 end in
      let index' := match countvar with Some _ => index + 1 | None => index end in
      let tv3 := assign loopvar x tv2 in
      '(into', elm) ← appendClone_with clone into tv3 hide;
      st ← get_state;
      match loopcache st !! loopfor with
      | Some e => set_cache loopfor (MkEntry (datachk e) (elements e ++ [elm]))
      | None => rthrow (TypeError "Cannot read properties of undefined")
      end ;;
      render_entries clone loopfor loopvar indexvar countvar hide tv es'
        index' into'
  end.

(** A name read out of the [v-for] text: used only when it is not empty. *)
Definition opt_name (o : option string) : option string :=
  match o with
  | Some s => if String.eqb s EmptyString then None else Some s
  | None => None
  end.

(** The names a [v-for] text binds: [loopvar], [indexvar], [countvar]. *)
Definition loop_names (loopfor : string)
  : string * option string * option string :=
  let split0 := hd EmptyString (Str.split " in " loopfor) in
  let split0 := if Str.startsWith "(" split0
                then substring 1 (String.length split0 - 2) split0
                else split0 in
  let rsplit := Str.split "," split0 in
  (hd EmptyString rsplit, opt_name (nth_error rsplit 1),
   opt_name (nth_error rsplit 2)).

(** The [v-for] branch past the cache: the entry is replaced and every
    entry of the collection is cloned. *)
Definition render_afresh (clone : locals -> R node) (loopfor : string)
  (hide : bool) (tv : locals) (into : list node) (data : jsval)
  : R (list node) :=
  let '(loopvar, indexvar, countvar) := loop_names loopfor in
  set_cache loopfor (MkEntry (Checksum.checksum_value data) []) ;;
  render_entries clone loopfor loopvar indexvar countvar hide tv
    (entries data) 0 into.

(** The [v-for] branch once the collection is evaluated.  On a hit each
    cached root is appended in turn: [for (let elm of cache.elements)
    into.appendChild (elm)]. *)
Definition render_collection (clone : locals -> R node) (loopfor : string)
  (hide : bool) (tv : locals) (into : list node) (data : jsval)
  : R (list node) :=
  st ← get_state;
  match loopcache st !! loopfor with
  | Some cache =>
      if String.eqb (datachk cache) (Checksum.checksum_value data)
      then mret (fold_left appendChild (elements cache) into)
      else render_afresh clone loopfor hide tv into data
  | None => render_afresh clone loopfor hide tv into data
  end.

(** The [v-for] branch of [renderTemplate]. *)
Definition render_for (clone : locals -> R node) (loopfor : string)
  (hide : bool) (tv : locals) (into : list node) : R (list node) :=
  match nth_error (Str.split " in " loopfor) 1 with
  | None => rthrow (TypeError "Cannot read properties of undefined")
  | Some loopval =>
      data ← run_eval loopval tv false;
      render_collection clone loopfor hide tv into data
  end.

(** [renderTemplate (into, orig, tempvars)], with the clone of [orig] still
    to be made by [clone]; the result is the children of [into]. *)
Definition renderTemplate_with (clone : locals -> R node) (orig : node)
  (into : list node) (tv : locals) : R (list node) :=
  match orig with
  | Element _ _ _ _ _ _ =>
      let vif := getAttribute orig "v-if" in
      shown ← (if attr_truthy vif
               then r ← run_eval (default EmptyString vif) tv false;
                    mret (jtruthy r)
               else mret true);
      if negb shown then mret (into ++ [CommentNode "v-if"])
      else
        let vshow := getAttribute orig "v-show" in
        hide ← (if attr_truthy vshow
                then r ← run_eval (default EmptyString vshow) tv false;
                     mret (negb (jtruthy r))
                else mret false);
        let loopfor := getAttribute orig "v-for" in
        if attr_truthy loopfor
        then render_for clone (default EmptyString loopfor) hide tv into
        else
          '(into', _) ← appendClone_with clone into tv hide; mret into'
  | TextNode text =>
      if negb (String.eqb text EmptyString)
      then text' ← parseMoustache text tv; mret (into ++ [TextNode text'])
      else mret into
  | CommentNode _ => mret into
  end.

(** [cloneElement (orig, tempvars)], for a view with no component
    registered ([Vidi.components] is empty). *)
Fixpoint cloneElement (orig : node) (tv : locals) {struct orig} : R node :=
  match orig with
  | Element _ tag attrs _ _ kids =>
      nw ← createElement tag;
      b ← clone_attrs orig tv attrs (MkBuilder [] [] EmptyString JNull JNull);
      let b := stamp tv b in
      let value := if jtruthy (b_setvalue b)
                   then Some (to_string (b_setvalue b)) else None in
      if jtruthy (b_innerhtml b)
      then mret (Element (default O (uid_of nw)) tag (b_attrs b) None
                         (b_listeners b)
                         (parse_html (to_string (b_innerhtml b))))
      else
        rendered ←
          (fix go (ks : list node) (into : list node) : R (list node) :=
             match ks with
             | [] => mret into
             | k :: ks' =>
                 into' ← renderTemplate_with (cloneElement k) k into tv;
                 go ks' into'
             end) kids [];
        children ←
          (if Nat.eqb (childElementCount orig) 0
              && negb (String.eqb (textContent orig) EmptyString)
           then text ← parseMoustache (textContent orig) tv;
                mret (if String.eqb text EmptyString then []
                      else [TextNode text])
           else mret rendered);
        mret (Element (default O (uid_of nw)) tag (b_attrs b) value
                      (b_listeners b) children)
  | _ =>
      nw ← createElement "UNDEFINED";
      let text := textContent orig in
      children ←
        (if negb (String.eqb text EmptyString)
         then text ← parseMoustache text tv;
              mret (if String.eqb text EmptyString then []
                    else [TextNode text])
         else mret []);
      mret (with_childNodes nw children)
  end.

(** [renderTemplate (into, orig, tempvars)] *)
Definition renderTemplate (orig : node) (into : list node) (tv : locals)
  : R (list node) :=
  renderTemplate_with (cloneElement orig) orig into tv.

(** [appendClone (into, orig, tempvars, hide)] *)
Definition appendClone (orig : node) (into : list node) (tv : locals)
  (hide : bool) : R (list node * node) :=
  appendClone_with (cloneElement orig) into tv hide.

End WithHost.

Arguments host {W}.
Arguments loopcache {W}.
Arguments console {W}.
Arguments doc {W}.
Arguments MkR {W}.
Arguments get_state {W}.
Arguments rthrow {W A}.
Arguments getChild {W}.
Arguments clone_v_model {W}.
Arguments clone_v_on {W}.
Arguments clone_v_bind {W}.
Arguments clone_attr {W}.
Arguments clone_attrs {W}.
Arguments warn {W}.
Arguments set_cache {W}.
Arguments createElement {W}.
Arguments run_eval {W}.
Arguments moustache_span {W}.
Arguments replace_pieces {W}.
Arguments parseMoustache {W}.
Arguments appendClone_with {W}.
Arguments render_entries {W}.
Arguments render_afresh {W}.
Arguments render_collection {W}.
Arguments render_for {W}.
Arguments renderTemplate_with {W}.
Arguments cloneElement {W}.
Arguments renderTemplate {W}.
Arguments appendClone {W}.

End Render.
Export Render.

(* ====================================================================== *)
(** ** The vocabulary of the statements about the renderer                *)
(* ====================================================================== *)
Module Rendered.

(** [c] occurs in [s]. *)
Fixpoint has_char (c : ascii) (s : string) : bool :=
  match s with
  | EmptyString => false
  | String c' s' => Ascii.eqb c c' || has_char c s'
  end.

(** The message [parseMoustache] warns with when [src] gives an object. *)
Definition object_warning (src : string) : string :=
  "[Vidi] got an object when evaluating {{" +:+ src +:+ "}}".

(** The state after an evaluation that gave the diagnostics [warns] and
    left the world [w]. *)
Definition evaluated {W} (st : rstate W) (warns : list string) (w : W)
  : rstate W :=
  MkR w (loopcache st) (console st ++ warns) (doc st).

(** The text a moustache span is replaced by when its expression
    evaluates to [res]. *)
Definition replacement (res : jsval) : string :=
  match res with
  | JNull => "null"
  | JUndef => "undefined"
  | JArr _ | JObj _ => "[Object]"
  | v => to_string v
  end.

(** The diagnostics [parseMoustache] itself gives for a span of source
    [src] that evaluates to [res]. *)
Definition span_warnings (src : string) (res : jsval) : list string :=
  match res with
  | JArr _ | JObj _ => [object_warning src]
  | _ => []
  end.

(** Code that never takes back an element identity. *)
Definition grows {W A} (m : R W A) : Prop :=
  forall st, (doc st <= doc (snd (m st)))%nat.

(** Whenever [m] returns, [Q] relates the state before, the result and the
    state after. *)
Definition ensures {W A} (m : R W A)
  (Q : rstate W -> A -> rstate W -> Prop) : Prop :=
  forall st a st', m st = (Ok a, st') -> Q st a st'.

(** A way of cloning a template element: each clone is a new element, with
    the identity that was next when the cloning began. *)
Definition clones_afresh {W} (clone : locals -> R W node) : Prop :=
  (forall tv, grows (clone tv)) /\
  (forall tv, ensures (clone tv)
     (fun st nw st' => uid_of nw = Some (doc st) /\ (doc st < doc st')%nat)).

(** Some element at or below [n] is a loop site with the text [key]. *)
Fixpoint loops_on (key : string) (n : node) : bool :=
  match n with
  | Element _ _ attrs _ _ kids =>
      opt_string_eqb (getAttr "v-for" attrs) (Some key)
      || existsb (loops_on key) kids
  | _ => false
  end.

(** No loop site with the text [key] lies inside [n]. *)
Definition inner_free (key : string) (n : node) : bool :=
  negb (existsb (loops_on key) (childNodes_of n)).

(** Code that leaves the cache entry of [key] as it is. *)
Definition keeps {W A} (key : string) (m : R W A) : Prop :=
  forall st, loopcache (snd (m st)) !! key = loopcache st !! key.

(** The node is an element made while the identity counter went from [lo]
    to [hi]. *)
Definition made_between (lo hi : nat) (n : node) : Prop :=
  exists u, uid_of n = Some u /\ (lo <= u < hi)%nat.

(** Two nodes that pass the guards of [compareNodes]: same kind, same tag,
    and the old one not marked [v-static="keep"]. *)
Definition comparable (left right : node) : Prop :=
  nodeType_of left = nodeType_of right /\
  tagName_of left = tagName_of right /\
  (is_element left
   && opt_string_eqb (getAttribute left "v-static") (Some "keep")) = false.

(** What the specification asks of the reconciler for the child counts
    [ll] of the old and [rl] of the new node, with the bound 100 read as a
    bound on the mismatch: a smaller mismatch is evened out on the old node,
    a larger one makes the pair incompatible. *)
Definition tolerates_small_mismatch (left right : node) (d : nat) : Prop :=
  let ll := List.length (childNodes_of left) in
  let rl := List.length (childNodes_of right) in
  let '(ok, left', _) := compareNodes left right d in
  (ll <> rl -> (Nat.max ll rl - Nat.min ll rl <= 100)%nat ->
   List.length (childNodes_of left') = rl) /\
  ((Nat.max ll rl - Nat.min ll rl > 100)%nat -> ok = false).

(** What the specification asks of two rendered elements that differ only
    in the source text bound to their events: the reconciler judges them
    incompatible. *)
Definition protected_by_signature (n1 n2 : node) (d : nat) : Prop :=
  fst (fst (compareNodes n1 n2 d)) = false.

End Rendered.
Export Rendered.

(* ====================================================================== *)
(** ** A small host, for the examples                                     *)
(* ====================================================================== *)
Module Host.

(** The world is a scope of named values and an expression is a name:
    a local if there is one, else a model variable. *)
Definition eval (e : string) (tv : locals) (noreturn : bool) (w : locals)
  : jsval * list string * locals :=
  match jlookup e tv with
  | JUndef => (jlookup e w, [], w)
  | v => (v, [], w)
  end.

Definition view_get (index : string) (w : locals) : jsval * locals :=
  (jlookup index w, w).

Definition abstract_eq (a b : jsval) : bool :=
  String.eqb (to_string a) (to_string b).

Definition parse_html (s : string) : list node := [TextNode s].

Definition style_display_none (old : option string) : string :=
  match old with
  | Some s => s +:+ " display: none;"
  | None => "display: none;"
  end.

Definition renderTemplate :=
  Render.renderTemplate eval view_get abstract_eq parse_html style_display_none.

Definition cloneElement :=
  Render.cloneElement eval view_get abstract_eq parse_html style_display_none.

Definition parseMoustache (str : string) (tv : locals) :=
  Render.parseMoustache eval str tv.

(** A render state with the model [w], nothing cached, and [n] elements
    made so far. *)
Definition start (w : locals) (n : nat) : rstate locals := MkR w ∅ [] n.

(** [<button v-on:click="src">go</button>] *)
Definition button (src : string) : node :=
  Element 0 "BUTTON" [("v-on:click", src)] None [] [TextNode "go"].

(** The button as [cloneElement] renders it when [n] elements have been
    made before. *)
Definition rendered_button (src : string) (n : nat) : node :=
  match fst (cloneElement (button src) [] (start [] n)) with
  | Ok nw => nw
  | _ => CommentNode "failed"
  end.

(** [<li v-for="item in items">{{item}}</li>] *)
Definition item_list : node :=
  Element 0 "LI" [("v-for", "item in items")] None [] [TextNode "{{item}}"].

(** The roots [item_list] renders to with the model [w1], and then, with
    the loop cache that render left, with the model [w2]. *)
Definition rerender (w1 w2 : locals)
  : outcome (list node) * outcome (list node) :=
  let r1 := renderTemplate item_list [] [] (start w1 0) in
  let st1 := snd r1 in
  let r2 := renderTemplate item_list [] []
              (MkR w2 (loopcache st1) (console st1) (doc st1)) in
  (fst r1, fst r2).

(** What the specification asks of two renders of one loop site: when the
    collection has changed in an element, the roots of the first render
    are not reused by the second. *)
Definition reuse_only_if_unchanged (w1 w2 : locals) : Prop :=
  jlookup "items" w1 <> jlookup "items" w2 ->
  fst (rerender w1 w2) <> snd (rerender w1 w2).

(** [<a class="val">go</a>] as [cloneElement] renders it with the model
    [w]. *)
Definition rendered_link (val : string) (w : locals) : node :=
  match fst (cloneElement (Element 0 "A" [("class", val)] None []
                                   [TextNode "go"]) [] (start w 0)) with
  | Ok nw => nw
  | _ => CommentNode "failed"
  end.

(** What the specification asks of a plain attribute: its rendered value is
    the template's value with every moustache span replaced. *)
Definition attribute_spans_replaced (val : string) (w : locals) : Prop :=
  Some (getAttribute (rendered_link val w) "class")
  = match fst (parseMoustache val [] (start w 0)) with
    | Ok s => Some (Some s)
    | _ => None
    end.

(** [<div v-if="flag"><p>x</p></div>] *)
Definition guarded : node :=
  Element 0 "DIV" [("v-if", "flag")] None []
    [Element 1 "P" [] None [] [TextNode "x"]].

(** [<ul>] with [item_list] twice: two loop sites with the same text under
    one parent. *)
Definition twin_lists : node :=
  Element 0 "UL" [] None [] [item_list; item_list].

(** [<li v-if="flag" v-for="item in items">{{item}}</li>] *)
Definition guarded_loop : node :=
  Element 0 "LI" [("v-if", "flag"); ("v-for", "item in items")] None []
    [TextNode "{{item}}"].

(** [<p v-if="">x</p>] *)
Definition guarded_by_nothing : node :=
  Element 0 "P" [("v-if", "")] None [] [TextNode "x"].

(** How many children a parent gets when [orig] is rendered into it with
    the model [w]. *)
Definition positions (orig : node) (w : locals) : option nat :=
  match fst (renderTemplate orig [] [] (start w 0)) with
  | Ok out => Some (List.length out)
  | _ => None
  end.

(** What the specification asks of a conditional element: it takes as many
    positions among the children of its parent when its condition is false
    as when it is true. *)
Definition positions_stable (orig : node) (w_false w_true : locals) : Prop :=
  positions orig w_false = positions orig w_true.

(** What the specification asks of an element whose condition is present
    and evaluates to a falsy value: a placeholder, and none of its
    children. *)
Definition placeholder_emitted (orig : node) (w : locals) : Prop :=
  fst (renderTemplate orig [] [] (start w 0)) = Ok [CommentNode "v-if"].

End Host.

(* ====================================================================== *)
(** ** Runs of calls on a view                                            *)
(* ====================================================================== *)
Module Schedule.

(** What reaches a view from outside: a call of one of its methods, or the
    host running the callback that [render()] handed to [setTimeout] as
    timer [t]. *)
Inductive call :=
| CallRender
| CallLock
| CallUnlock
| CallSetPath (path : list string) (v : value)
| CallDeletePath (path : list string)
| CallGetPath (path : list string)
| TimerFires (t : nat).

Definition step (c : call) (s : view) : view :=
  match c with
  | CallRender => render s
  | CallLock => lock s
  | CallUnlock => unlock s
  | CallSetPath path v => snd (setPath path v s)
  | CallDeletePath path => snd (deletePath path s)
  | CallGetPath path => snd (getPath path s)
  | TimerFires t => timer_fires t s
  end.

(** The calls of [cs] one after the other; an exception a call raises is
    caught by its caller and the next call goes on from the state it left. *)
Definition run (cs : list call) (s : view) : view :=
  fold_left (fun s c => step c s) cs s.

Definition is_timer (c : call) : bool :=
  match c with TimerFires _ => true | _ => false end.

Definition is_create (e : event) : bool :=
  match e with CreateHook => true | _ => false end.

Definition is_dorender (e : event) : bool :=
  match e with DoRender => true | _ => false end.

(** How often [self.$oncreate] has run. *)
Definition creations (s : view) : nat :=
  List.length (List.filter is_create (events s)).

(** How often the body of [dorender()] has run. *)
Definition renders (s : view) : nat :=
  List.length (List.filter is_dorender (events s)).

(** The renders a view has done and the one its pending timer stands
    for. *)
Definition render_debt (s : view) : nat :=
  (renders s + match renderTimeout s with Some _ => 1 | None => 0 end)%nat.

End Schedule.
Export Schedule.

(* ====================================================================== *)
(** ** Paths that a read can follow                                       *)
(* ====================================================================== *)
Module Route.

(** [getPath] goes through [obj] only if [typeof] calls it ["object"].
    [route_ok h dst obj segs]: following [segs] from [obj], every holder on
    the way is such an object and is not the object [dst]; so is the holder
    the segments end in, which may be [dst]. *)
Fixpoint route_ok (h : heap) (dst : loc) (obj : value) (segs : list string)
  : bool :=
  String.eqb (typeof h obj) "object"
  && match segs with
     | [] => true
     | k :: segs' =>
         negb (strict_eq obj (VRef dst))
         && route_ok h dst (get_prop h obj k) segs'
     end.

(** The paths [getPath] answers by itself, without looking into the
    model. *)
Definition reserved (path : list string) : bool :=
  match path with
  | "$el" :: _ => true
  | ["$isView"] => true
  | _ => false
  end.

(** No key occurs twice among the own properties of the object at [l]. *)
Definition keys_unique (h : heap) (l : loc) : Prop :=
  NoDup (map fst (oprops (obj_at h l))).

End Route.
Export Route.

(* ====================================================================== *)
(** ** The arithmetic of Vidi.checksum                                    *)
(* ====================================================================== *)
Module Polynomial.

(** What the loop of [Vidi.checksum] adds up when nothing wraps around:
    from [h], each character in turn takes the sum to [31 * sum + code]. *)
Fixpoint poly (s : string) (h : Z) : Z :=
  match s with
  | EmptyString => h
  | String c s' => poly s' (31 * h + Checksum.charCode c)
  end.

(** [hash] after [if (hash<0) hash = -(hash-1);] *)
Definition folded (hash : Z) : Z := if hash <? 0 then - (hash - 1) else hash.

End Polynomial.
Export Polynomial.

(* ====================================================================== *)
(** ** The shape of a DOM tree                                            *)
(* ====================================================================== *)
Module Shape.

Definition listeners_of (n : node) : list (string * string) :=
  match n with Element _ _ _ _ l _ => l | _ => [] end.

(** Two attribute lists that answer every [getAttribute] alike. *)
Definition same_attrs (a b : list (string * string)) : Prop :=
  forall k, getAttr k a = getAttr k b.

(** Two trees that a reader of the document cannot tell apart: the same
    kinds of nodes in the same places, with the same tags, attributes,
    values and text.  The identity of the elements and the listeners bound
    to them are left out. *)
Fixpoint same_shape (a b : node) {struct a} : Prop :=
  match a, b with
  | Element _ ta aa va _ ka, Element _ tb ab vb _ kb =>
      ta = tb /\ same_attrs aa ab /\ va = vb /\
      (fix all2 (xs ys : list node) {struct xs} : Prop :=
         match xs, ys with
         | [], [] => True
         | x :: xs', y :: ys' => same_shape x y /\ all2 xs' ys'
         | _, _ => False
         end) ka kb
  | TextNode x, TextNode y => x = y
  | CommentNode x, CommentNode y => x = y
  | _, _ => False
  end.

(** No element at or below [n] names an attribute twice. *)
Fixpoint attrs_unique (n : node) : Prop :=
  match n with
  | Element _ _ a _ _ kids =>
      NoDup (map fst a) /\
      (fix all (ks : list node) : Prop :=
         match ks with
         | [] => True
         | k :: ks' => attrs_unique k /\ all ks'
         end) kids
  | _ => True
  end.

(** [n] is an element marked [v-static="keep"]. *)
Definition kept (n : node) : bool :=
  is_element n && opt_string_eqb (getAttribute n "v-static") (Some "keep").

(** [n] is an element marked [v-static="non-interactive"]. *)
Definition non_interactive (n : node) : bool :=
  is_element n
  && opt_string_eqb (getAttribute n "v-static") (Some "non-interactive").

(** No element at or below [n] is marked [v-static] in either way. *)
Fixpoint unpinned (n : node) : bool :=
  negb (kept n) && negb (non_interactive n)
  && match n with
     | Element _ _ _ _ _ kids => forallb unpinned kids
     | _ => true
     end.

(** Code that ends by itself: it returns or it raises. *)
Definition definite {W A} (m : R W A) : Prop :=
  forall st, fst (m st) <> OutOfFuel.

(** Code that always returns. *)
Definition succeeds {W A} (m : R W A) : Prop :=
  forall st, exists a st', m st = (Ok a, st').

End Shape.
Export Shape.

(* ====================================================================== *)
(** ** The reconciler: VidiView.transplantDom                             *)
(* ====================================================================== *)
Module Transplant.

Section WithHost.

(** The collaborators of the renderer, as in [Render]: [transplantDom]
    calls [cloneElement]. *)
Variable W : Type.
Variable eval : string -> locals -> bool -> W -> jsval * list string * W.
Variable view_get : string -> W -> jsval * W.
Variable abstract_eq : jsval -> jsval -> bool.
Variable parse_html : string -> list node.
Variable style_display_none : option string -> string.

(** [into == document.activeElement], with [active] the identity of the
    element that has the focus, if one has.  Identities are unique in a
    document, and an element that is replaced leaves it: the comparison can
    succeed once in a run, so [active] is read and never written. *)
Definition has_focus (active : option nat) (into : node) : bool :=
  match active, uid_of into with
  | Some a, Some u => Nat.eqb a u
  | _, _ => false
  end.

(** What one call leaves behind where [into] was: the node now [placed]
    there; whether [from] was [taken] out of its parent with nothing put in
    its place; and the elements [focus()] was called on. *)
Record graft := MkGraft {
  placed : node;
  taken : bool;
  focused : list nat
}.

(** The identity counter after [compareNodes] has created elements. *)
Definition set_doc (d : nat) : R W unit := λ st,
  (Ok tt, MkR (host st) (loopcache st) (console st) d).

(** The loop [for (i=0; i<from.childNodes.length; ++i)
      self.transplantDom (into.childNodes[i], from.childNodes[i]);]
    with [transplant] the call on one pair of children.  The loop reads
    [from.childNodes] anew in each round: where a call has taken its [from]
    out of that list, the index has moved on by one all the same, so the
    new sibling that followed is passed over.  [into.childNodes[i]] beyond
    the end is [undefined], and the call on it raises at
    [into.getAttribute].  Old children beyond the last round stay.  The
    result is the children of [into] and the elements [focus()] was called
    on. *)
Section Loop.

Variable transplant : node -> node -> R W graft.

Fixpoint transplant_children (intos froms : list node) {struct froms}
  : R W (list node * list nat) :=
  match froms with
  | [] => mret (intos, [])
  | f :: fs =>
      match intos with
      | [] => rthrow (TypeError "Cannot read properties of undefined")
      | i :: rest =>
          g ← transplant i f;
          r ← (if taken g
               then match fs with
                    | [] => mret (rest, [])
                    | _ :: fs' => transplant_children rest fs'
                    end
               else transplant_children rest fs);
          mret (placed g :: fst r, focused g ++ snd r)
      end
  end.

End Loop.

(** [transplantDom (into, from, isroot)].  The recursive calls pass no
    [isroot]. *)
Fixpoint transplantDom (active : option nat) (into from : node)
  (isroot : bool) {struct from} : R W graft :=
  let descend (into : node) : R W graft :=
    match from with
    | Element _ _ _ _ _ fkids =>
        r ← transplant_children
              (fun i f => transplantDom active i f false)
              (childNodes_of into) fkids;
        mret (MkGraft (with_childNodes into (fst r)) false (snd r))
    | _ => mret (MkGraft into false [])
    end in
  if isroot then descend into
  else if kept into then mret (MkGraft into false [])
  else if non_interactive into then mret (MkGraft from true [])
  else
    st ← get_state;
    let '(ok, into1, doc1) := compareNodes into from (doc st) in
    set_doc doc1 ;;
    if negb ok then
      Render.cloneElement eval view_get abstract_eq parse_html
        style_display_none from [] ;;
      if has_focus active into then
        match uid_of from with
        | Some u => mret (MkGraft from false [u])
        | None => rthrow (TypeError "from.focus is not a function")
        end
      else mret (MkGraft from false [])
    else descend into1.

End WithHost.

Arguments set_doc {W}.
Arguments transplant_children {W}.
Arguments transplantDom {W}.

End Transplant.
Export Transplant.

(* ====================================================================== *)
(** ** Event signatures                                                   *)
(* ====================================================================== *)
Module Signature.

(** The builder of an element that has a listener has gathered a source
    for the signature. *)
Definition signed (b : builder) : Prop :=
  b_listeners b = [] \/ b_checksumstr b <> EmptyString.

(** What the attribute [a] with the value [val] adds to the string that
    the signature is the checksum of: [//] and the value for a [v-model]
    and for a [v-on] attribute, nothing for any other. *)
Definition source_of (a val : string) : string :=
  let a := if Str.startsWith ":" a then "v-bind" +:+ a else a in
  if Str.startsWith "v-" a then
    let attrbase := hd EmptyString (Str.split ":" a) in
    if String.eqb attrbase "v-model" || String.eqb attrbase "v-on"
    then "//" +:+ val
    else EmptyString
  else EmptyString.

(** The sources of all the attributes, in their order. *)
Fixpoint gathered (attrs : list (string * string)) : string :=
  match attrs with
  | [] => EmptyString
  | (a, val) :: attrs' => source_of a val +:+ gathered attrs'
  end.

(** No value of a [v-on] attribute holds a moustache span: the source
    bound to the event is the value as it is written. *)
Definition literal_handlers (attrs : list (string * string)) : bool :=
  forallb (fun p =>
             negb (String.eqb (hd EmptyString (Str.split ":" (fst p))) "v-on")
             || negb (Str.contains "{{" (snd p))) attrs.

(** No attribute is a [v-html] directive. *)
Definition html_free (attrs : list (string * string)) : bool :=
  forallb (fun p =>
             negb (String.eqb (hd EmptyString (Str.split ":" (fst p)))
                              "v-html")) attrs.

(** An attribute that is no directive and whose value [cloneElement] does
    not scan: its name begins neither with [:] nor with [v-], its value
    not with two opening braces. *)
Definition plain_attr (p : string * string) : bool :=
  negb (Str.startsWith ":" (fst p)) && negb (Str.startsWith "v-" (fst p))
  && negb (Str.startsWith "{{" (snd p)).

End Signature.
Export Signature.

(* ====================================================================== *)
(** ** Small trees, for the examples of the reconciler                    *)
(* ====================================================================== *)
Module Fixture.

Definition transplantDom :=
  Transplant.transplantDom Host.eval Host.view_get Host.abstract_eq
    Host.parse_html Host.style_display_none.

(** [<div class="a"><span>x</span></div>], as it stands in the document. *)
Definition old_tree : node :=
  Element 1 "DIV" [("class", "a")] None []
    [Element 2 "SPAN" [] None [] [TextNode "x"]].

(** [<div class="b"><span>y</span></div>], as a render has made it. *)
Definition new_tree : node :=
  Element 3 "DIV" [("class", "b")] None []
    [Element 4 "SPAN" [] None [] [TextNode "y"]].

(** What [old_tree] is rendered to again when nothing has changed. *)
Definition same_tree : node :=
  Element 5 "DIV" [("class", "a")] None []
    [Element 6 "SPAN" [] None [] [TextNode "x"]].

(** A render state with nothing in the model and [n] elements made. *)
Definition start (n : nat) : rstate locals := Host.start [] n.

(** What the reconciler leaves in the place of [old_tree] when it is given
    [new_tree]. *)
Definition grafted : graft :=
  match fst (transplantDom None old_tree new_tree false (start 10)) with
  | Ok g => g
  | _ => MkGraft old_tree false []
  end.

(** [<ul><li>a</li></ul>] and [<ul><li>a</li><li>b</li></ul>] *)
Definition short_list : node :=
  Element 1 "UL" [] None [] [Element 2 "LI" [] None [] [TextNode "a"]].

Definition long_list : node :=
  Element 3 "UL" [] None []
    [Element 4 "LI" [] None [] [TextNode "a"];
     Element 5 "LI" [] None [] [TextNode "b"]].

(** [<input>], which has the focus when its identity is [active]. *)
Definition input : node := Element 7 "INPUT" [] None [] [].

End Fixture.

(* ====================================================================== *)
(** * Theorems                                                            *)
(* ====================================================================== *)

(** *** Facts about the scheduler *)

Lemma render_locked s : renderlock s = true -> render s = s.
Proof. unfold render. now intros ->. Qed.

Lemma render_hp s : hp (render s) = hp s.
Proof.
  unfold render, dorender.
  destruct (renderlock s); [reflexivity|].
  destruct (renderedOnce s) eqn:R, (onupdate s) eqn:U; cbn; rewrite ?R; cbn;
    try destruct (renderTimeout s); try destruct (oncreate s); reflexivity.
Qed.

Lemma render_unlocked_events s :
  renderlock s = false -> events (render s) = events s ++ render_events s.
Proof.
  unfold render, render_events, dorender. intros ->.
  destruct (renderedOnce s) eqn:R, (onupdate s) eqn:U; cbn; rewrite ?R; cbn;
    try destruct (renderTimeout s); try destruct (oncreate s); cbn;
    rewrite <- ?app_assoc; reflexivity.
Qed.

Lemma render_renderlock s : renderlock (render s) = renderlock s.
Proof.
  destruct s as [h d e w ou oc rl ro rt nt ev]. unfold render, dorender. cbn.
  destruct rl, ro, ou, rt, oc; reflexivity.
Qed.

Lemma render_events_nonempty s : render_events s <> [].
Proof.
  unfold render_events.
  destruct (renderedOnce s), (onupdate s), (renderTimeout s), (oncreate s);
    discriminate.
Qed.

Lemma entered_events path v s :
  events (entered path v s)
  = events s ++ HWrite path v :: watch_events s path v.
Proof.
  unfold entered, watch_events.
  destruct path as [|k [|]]; cbn; try reflexivity.
  destruct (bool_decide _); cbn; rewrite <- ?app_assoc; reflexivity.
Qed.

Lemma entered_hp path v s : hp (entered path v s) = hp s.
Proof.
  unfold entered. destruct path as [|k [|]]; cbn; try reflexivity.
  destruct (bool_decide _); reflexivity.
Qed.

Lemma entered_data path v s : data (entered path v s) = data s.
Proof.
  unfold entered. destruct path as [|k [|]]; cbn; try reflexivity.
  destruct (bool_decide _); reflexivity.
Qed.

Lemma entered_scheduler path v s :
  scheduler (entered path v s) = scheduler s.
Proof.
  unfold entered. destruct path as [|k [|]]; cbn; try reflexivity.
  destruct (bool_decide _); reflexivity.
Qed.

Lemma setPath_unfold path v s :
  setPath path v s =
  let s1 := entered path v s in
  match walk (hp s1) (VRef (data s1)) (removelast path) with
  | Ok obj =>
      if negb (String.eqb (typeof (hp s1) v) "object")
         && strict_eq (get_prop (hp s1) obj (last_key path)) v
      then (Ok true, s1)
      else
        match set_prop (hp s1) obj (last_key path) v with
        | Some h' => (Ok true, render (with_hp h' s1))
        | None => (Throw (TypeError "Cannot create property"), s1)
        end
  | Throw e => (Throw e, s1)
  | OutOfFuel => (OutOfFuel, s1)
  end.
Proof.
  unfold setPath, entered. destruct path as [|k [|]]; reflexivity.
Qed.

Lemma removelast_app_cons {A} (pre : list A) k post :
  post <> [] -> removelast (pre ++ k :: post) = pre ++ k :: removelast post.
Proof.
  intros Hp. rewrite removelast_app by discriminate.
  f_equal. destruct post; [congruence|reflexivity].
Qed.

Lemma walk_app_missing h pre : forall obj o k rest,
  follow h obj pre = Some o -> nullish (get_prop h o k) = true ->
  walk h obj (pre ++ k :: rest) = Throw (invalid_path k).
Proof.
  induction pre as [|p pre IH]; intros obj o k rest Hf Hn; cbn in *.
  - injection Hf as ->. now rewrite Hn.
  - destruct (nullish (get_prop h obj p)); [discriminate|]. eauto.
Qed.

Lemma walk_missing h root path k :
  missing_intermediate h root path k ->
  walk h root (removelast path) = Throw (invalid_path k).
Proof.
  intros (pre & post & o & -> & Hp & Hf & Hn).
  rewrite removelast_app_cons by assumption. eauto using walk_app_missing.
Qed.

Lemma setPath_missing path v s k :
  missing_intermediate (hp s) (VRef (data s)) path k ->
  setPath path v s = (Throw (invalid_path k), entered path v s).
Proof.
  intros H. rewrite setPath_unfold. cbv zeta.
  rewrite entered_hp, entered_data, (walk_missing _ _ _ _ H). reflexivity.
Qed.

Lemma deletePath_missing path s k :
  missing_intermediate (hp s) (VRef (data s)) path k ->
  deletePath path s = (Throw (invalid_path k), emit (HErase path) s).
Proof.
  intros H. unfold deletePath. cbn [hp data emit].
  rewrite (walk_missing _ _ _ _ H). reflexivity.
Qed.

(** *** Facts about the wrapper *)

Lemma drop_subtree_vw w prop σ : vw (drop_subtree w prop σ) = vw σ.
Proof. unfold drop_subtree. destruct (_ !! _); reflexivity. Qed.

Lemma proxy_at_with_subtrees w m σ :
  proxy_at (with_subtrees w m σ) w
  = MkProxy (target (proxy_at σ w)) (up (proxy_at σ w)) m.
Proof.
  unfold proxy_at at 1, with_subtrees. cbn [proxies].
  now rewrite lookup_insert_eq.
Qed.

Lemma drop_subtree_up w prop σ :
  up (proxy_at (drop_subtree w prop σ) w) = up (proxy_at σ w).
Proof.
  unfold drop_subtree. destruct (_ !! _); [|reflexivity].
  now rewrite proxy_at_with_subtrees.
Qed.

(** A write of a scalar through the wrapper is the handler's [setPath] at
    the wrapper's path, after the cached child wrapper is dropped. *)
Lemma setProperty_scalar n w prop v σ :
  isobj (hp (vw σ)) v = false ->
  setProperty (S n) w prop v false σ
  = handler (setPath (keypath (up (proxy_at σ w)) prop) v)
            (drop_subtree w prop σ).
Proof.
  intros Hi. cbn [setProperty]. unfold mbind, M_bind, get_world at 1.
  rewrite Hi. cbn [negb]. unfold modify, get_world.
  now rewrite drop_subtree_up.
Qed.

(** An erase through the wrapper is the handler's [deletePath] at the
    wrapper's path, after the cached child wrapper is dropped. *)
Lemma deleteProperty_unfold w prop σ :
  deleteProperty w prop σ
  = handler (deletePath (keypath (up (proxy_at σ w)) prop))
            (drop_subtree w prop σ).
Proof.
  unfold deleteProperty, mbind, M_bind, modify, get_world.
  now rewrite drop_subtree_up.
Qed.

Lemma handler_fst {A} (f : view -> outcome A * view) σ :
  fst (handler f σ) = fst (f (vw σ)).
Proof. unfold handler. now destruct (f (vw σ)). Qed.

Lemma handler_vw {A} (f : view -> outcome A * view) σ :
  vw (snd (handler f σ)) = snd (f (vw σ)).
Proof. unfold handler. now destruct (f (vw σ)). Qed.

Lemma bind_assoc_at {A B C} (m : M A) (f : A -> M B) (g : B -> M C) σ :
  ((m ≫= f) ≫= g) σ = (m ≫= (λ a, f a ≫= g)) σ.
Proof. unfold mbind, M_bind. destruct (m σ) as [[a|e|] σ1]; reflexivity. Qed.

Lemma bind_ext_at {A B} (m : M A) (f g : A -> M B) σ :
  (forall a σ', f a σ' = g a σ') -> (m ≫= f) σ = (m ≫= g) σ.
Proof.
  intros H. unfold mbind, M_bind. destruct (m σ) as [[a|e|] σ1]; auto.
Qed.

Lemma bind_at {A B} (m : M A) (f : A -> M B) σ :
  (m ≫= f) σ
  = match m σ with
    | (Ok a, σ') => f a σ'
    | (Throw e, σ') => (Throw e, σ')
    | (OutOfFuel, σ') => (OutOfFuel, σ')
    end.
Proof. reflexivity. Qed.

Lemma bind_get_world {B} (f : world -> M B) σ :
  (get_world ≫= f) σ = f σ σ.
Proof. reflexivity. Qed.

Lemma bind_ret_at {A B} (a : A) (f : A -> M B) σ : (mret a ≫= f) σ = f a σ.
Proof. reflexivity. Qed.

Lemma setProperty_object n w prop v ischild σ :
  isobj (hp (vw σ)) v = true ->
  setProperty (S n) w prop v ischild σ
  = (fan_out n w prop v ;;
     if ischild then mret true
     else
       store_target w prop v ;;
       σ ← get_world;
       handler (setPath (keypath (up (proxy_at σ w)) prop) v)) σ.
Proof.
  intros Hi. cbn [setProperty]. rewrite bind_get_world. cbv zeta.
  rewrite Hi. cbn [negb]. rewrite bind_ret_at.
  unfold fan_out.
  rewrite bind_assoc_at. apply bind_ext_at. intros [] σ1.
  rewrite bind_assoc_at. apply bind_ext_at. intros σ1' σ2.
  rewrite bind_assoc_at. apply bind_ext_at. intros d σ3.
  rewrite bind_assoc_at. apply bind_ext_at. intros σ3' σ4.
  reflexivity.
Qed.

(** A write of a scalar in child mode is a store into the wrapper's own
    target. *)
Lemma setProperty_child_scalar n w prop v σ :
  isobj (hp (vw σ)) v = false ->
  setProperty (S n) w prop v true σ
  = (store_target w prop v ;; mret true) (drop_subtree w prop σ).
Proof.
  intros Hi. cbn [setProperty]. rewrite bind_get_world. cbv zeta.
  rewrite Hi. cbn [negb]. reflexivity.
Qed.

Lemma steady_refl σ : steady σ σ.
Proof. unfold steady. intuition. Qed.

Lemma steady_trans σ1 σ2 σ3 : steady σ1 σ2 -> steady σ2 σ3 -> steady σ1 σ3.
Proof.
  intros (E1 & D1 & W1 & S1 & P1) (E2 & D2 & W2 & S2 & P2).
  repeat split; try congruence.
  - apply P2, P1; assumption.
  - destruct (P1 w H) as (I & U & T). destruct (P2 w I) as (_ & U' & _).
    congruence.
  - destruct (P1 w H) as (I & U & T). destruct (P2 w I) as (_ & _ & T').
    congruence.
Qed.

Lemma quiet_ret {A} (a : A) : quiet (mret a).
Proof. intros σ. apply steady_refl. Qed.

Lemma quiet_bind {A B} (m : M A) (f : A -> M B) :
  quiet m -> (forall a, quiet (f a)) -> quiet (m ≫= f).
Proof.
  intros Hm Hf σ. unfold mbind, M_bind.
  specialize (Hm σ). destruct (m σ) as [[a|e|] σ1]; cbn in *; try assumption.
  eapply steady_trans; [eassumption|apply Hf].
Qed.

Lemma quiet_get_world : quiet get_world.
Proof. intros σ. apply steady_refl. Qed.

Lemma quiet_out_of_fuel {A} : quiet (@out_of_fuel A).
Proof. intros σ. apply steady_refl. Qed.

Lemma steady_with_heap h σ : steady σ (with_heap h σ).
Proof. unfold steady. cbn. intuition. Qed.

Lemma steady_with_subtrees w m σ : steady σ (with_subtrees w m σ).
Proof.
  unfold steady. cbn. repeat split; trivial.
  - destruct (decide (w = w0)) as [->|Hne].
    + rewrite lookup_insert_eq. eauto.
    + rewrite lookup_insert_ne; assumption.
  - destruct (decide (w = w0)) as [->|Hne].
    + now rewrite proxy_at_with_subtrees.
    + unfold proxy_at, with_subtrees. cbn. now rewrite lookup_insert_ne.
  - destruct (decide (w = w0)) as [->|Hne].
    + now rewrite proxy_at_with_subtrees.
    + unfold proxy_at, with_subtrees. cbn. now rewrite lookup_insert_ne.
Qed.

Lemma steady_register d P σ :
  proxies σ !! d = None ->
  steady σ (MkWorld (vw σ) (<[d := P]> (proxies σ))).
Proof.
  intros Hd. unfold steady. cbn. repeat split; trivial.
  - destruct (decide (d = w)) as [->|Hne].
    + rewrite Hd in H. now destruct H.
    + rewrite lookup_insert_ne; assumption.
  - unfold proxy_at. cbn. destruct (decide (d = w)) as [->|Hne].
    + rewrite Hd in H. now destruct H.
    + now rewrite lookup_insert_ne.
  - unfold proxy_at. cbn. destruct (decide (d = w)) as [->|Hne].
    + rewrite Hd in H. now destruct H.
    + now rewrite lookup_insert_ne.
Qed.

Lemma quiet_ensure_target w prop : quiet (ensure_target w prop).
Proof.
  intros σ. unfold ensure_target.
  destruct (truthy _); [apply steady_refl|].
  cbn. apply steady_with_heap.
Qed.

Lemma quiet_store_target w prop v : quiet (store_target w prop v).
Proof. intros σ. unfold store_target. cbn. apply steady_with_heap. Qed.

Lemma quiet_make_subtree w prop : quiet (make_subtree w prop).
Proof.
  intros σ. unfold make_subtree.
  destruct (get_prop _ _ _); try apply steady_refl.
  cbn [snd]. eapply steady_trans; [|apply steady_with_subtrees].
  apply steady_register. apply not_elem_of_dom, is_fresh.
Qed.

Lemma quiet_drop_subtree w prop : quiet (modify (drop_subtree w prop)).
Proof.
  intros σ. unfold modify, drop_subtree. cbn [snd].
  destruct (_ !! _); [apply steady_with_subtrees|apply steady_refl].
Qed.

Lemma quiet_for_in ks body :
  (forall k, quiet (body k)) -> quiet (for_in ks body).
Proof.
  intros Hb. induction ks as [|k ks IH]; cbn [for_in].
  - apply quiet_ret.
  - apply quiet_bind; auto.
Qed.

Create HintDb quiet.

#[local] Hint Resolve quiet_ret quiet_get_world quiet_out_of_fuel
  quiet_ensure_target quiet_store_target quiet_make_subtree
  quiet_drop_subtree : quiet.

(** A write in child mode is quiet: it reaches neither the handler nor the
    scheduler, whatever the value and however deep it nests. *)
Lemma quiet_setProperty_child fuel :
  forall w prop v, quiet (setProperty fuel w prop v true).
Proof.
  induction fuel as [|n IH]; intros w prop v; cbn [setProperty].
  - apply quiet_out_of_fuel.
  - apply quiet_bind; [apply quiet_get_world|]. intros σ0. cbv zeta.
    apply quiet_bind.
    { destruct (negb _); auto with quiet. }
    intros _. destruct (negb _).
    + apply quiet_bind; auto with quiet.
    + apply quiet_bind; [auto with quiet|]. intros _.
      apply quiet_bind; [auto with quiet|]. intros σ1.
      apply quiet_bind.
      { destruct (_ !! _); auto with quiet. }
      intros d. apply quiet_bind; [auto with quiet|]. intros σ2.
      apply quiet_bind; [|auto with quiet].
      apply quiet_for_in. intros k.
      apply quiet_bind; [auto with quiet|]. intros σ3. apply IH.
Qed.

Lemma quiet_fan_out n w prop v : quiet (fan_out n w prop v).
Proof.
  unfold fan_out.
  apply quiet_bind; [auto with quiet|]. intros _.
  apply quiet_bind; [auto with quiet|]. intros σ1.
  apply quiet_bind.
  { destruct (_ !! _); auto with quiet. }
  intros d. apply quiet_bind; [auto with quiet|]. intros σ2.
  apply quiet_for_in. intros k.
  apply quiet_bind; [auto with quiet|]. intros σ3.
  apply quiet_setProperty_child.
Qed.

(** *** What a handler write adds to the trace *)

Lemma render_events_eq s : events (render s) = events s ++ render_trace s.
Proof.
  unfold render_trace. destruct (renderlock s) eqn:L.
  - rewrite render_locked by assumption. now rewrite app_nil_r.
  - now apply render_unlocked_events.
Qed.

Lemma render_trace_no_handler s :
  List.filter is_handler_call (render_trace s) = [].
Proof.
  unfold render_trace, render_events.
  destruct (renderlock s), (renderedOnce s), (onupdate s), (renderTimeout s),
    (oncreate s); reflexivity.
Qed.

Lemma watch_events_no_handler s path v :
  List.filter is_handler_call (watch_events s path v) = [].
Proof.
  unfold watch_events. destruct path as [|k [|]]; try reflexivity.
  destruct (bool_decide _); reflexivity.
Qed.

Lemma setPath_events path v s :
  exists rest,
    events (snd (setPath path v s)) = events s ++ HWrite path v :: rest /\
    List.filter is_handler_call rest = [].
Proof.
  rewrite setPath_unfold. cbv zeta.
  pose proof (entered_events path v s) as He.
  pose proof (watch_events_no_handler s path v) as Hw.
  destruct (walk _ _ _) as [obj|e|]; cbn [snd]; eauto.
  destruct (_ && _); cbn [snd]; eauto.
  destruct (set_prop _ _ _ _) as [h'|]; cbn [snd]; eauto.
  rewrite render_events_eq. cbn [events with_hp]. rewrite He.
  rewrite <- app_assoc. cbn [app]. eexists. split; [reflexivity|].
  rewrite List.filter_app, Hw, render_trace_no_handler. reflexivity.
Qed.

Lemma handler_calls_setPath path v σ :
  handler_calls (snd (handler (setPath path v) σ))
  = handler_calls σ ++ [HWrite path v].
Proof.
  unfold handler_calls. rewrite handler_vw.
  destruct (setPath_events path v (vw σ)) as (rest & -> & Hr).
  rewrite List.filter_app. cbn [List.filter is_handler_call]. now rewrite Hr.
Qed.

Lemma steady_handler_calls σ σ' :
  steady σ σ' -> handler_calls σ' = handler_calls σ.
Proof. intros (E & _). unfold handler_calls. now rewrite E. Qed.

(** A whole-object write either stops before the handler is reached, or
    calls it exactly once, at the wrapper's own path. *)
Lemma object_write_calls n w prop v σ :
  isobj (hp (vw σ)) v = true ->
  is_Some (proxies σ !! w) ->
  let r := setProperty (S n) w prop v false σ in
  match fst (fan_out n w prop v σ) with
  | Ok _ =>
      handler_calls (snd r)
      = handler_calls σ ++ [HWrite (keypath (up (proxy_at σ w)) prop) v]
  | Throw e => fst r = Throw e /\ handler_calls (snd r) = handler_calls σ
  | OutOfFuel => fst r = OutOfFuel /\ handler_calls (snd r) = handler_calls σ
  end.
Proof.
  intros Hi Hw r. subst r. rewrite setProperty_object by assumption.
  pose proof (quiet_fan_out n w prop v σ) as Hq.
  rewrite bind_at.
  destruct (fan_out n w prop v σ) as [[[]|e|] σ1]; cbn [fst snd] in *.
  - rewrite bind_at.
    pose proof (quiet_store_target w prop v σ1) as Hs.
    unfold store_target in *. cbn [set_prop] in *. cbn [snd] in Hs.
    rewrite bind_get_world, handler_calls_setPath.
    pose proof (steady_trans _ _ _ Hq Hs) as Ht.
    rewrite (steady_handler_calls _ _ Ht).
    destruct Ht as (_ & _ & _ & _ & Hp). destruct (Hp w Hw) as (_ & -> & _).
    reflexivity.
  - split; [reflexivity|now apply steady_handler_calls].
  - split; [reflexivity|now apply steady_handler_calls].
Qed.

Lemma assoc_get_prim k ps :
  forallb (λ p, is_prim (snd p)) ps = true -> is_prim (assoc_get k ps) = true.
Proof.
  induction ps as [|[k' x] ps IH]; cbn; [reflexivity|].
  intros [Hx Hps]%andb_prop. destruct (String.eqb k k'); auto.
Qed.

Lemma assoc_get_set_eq k x ps : assoc_get k (assoc_set k x ps) = x.
Proof.
  induction ps as [|[k' x'] ps IH]; cbn.
  - now rewrite String.eqb_refl.
  - destruct (String.eqb k k') eqn:E; cbn.
    + now rewrite String.eqb_refl.
    + now rewrite E.
Qed.

Lemma obj_at_insert_eq (h : heap) l o : obj_at (<[l := o]> h) l = o.
Proof. unfold obj_at. now rewrite lookup_insert_eq. Qed.

Lemma obj_at_insert_ne (h : heap) l l' o :
  l <> l' -> obj_at (<[l := o]> h) l' = obj_at h l'.
Proof. intros. unfold obj_at. now rewrite lookup_insert_ne. Qed.

Lemma isobj_prim h x : is_prim x = true -> isobj h x = false.
Proof. destruct x; try reflexivity. discriminate. Qed.

Lemma assoc_get_set k' k x ps :
  assoc_get k' (assoc_set k x ps)
  = if String.eqb k' k then x else assoc_get k' ps.
Proof.
  induction ps as [|[k0 x0] ps IH]; cbn [assoc_set assoc_get].
  - now destruct (String.eqb k' k).
  - destruct (String.eqb k k0) eqn:E; cbn [assoc_get].
    + apply String.eqb_eq in E as ->. now destruct (String.eqb k' k0).
    + rewrite IH. destruct (String.eqb k' k0) eqn:E0; [|reflexivity].
      apply String.eqb_eq in E0 as ->.
      rewrite String.eqb_sym in E. now rewrite E.
Qed.

(** What a store of [x] under [k] into the object at [c] changes: that one
    property, and nothing else in the heap. *)
Lemma get_prop_store (h : heap) c k x o k' :
  get_prop (<[c := Obj (okind_of (obj_at h c))
                       (assoc_set k x (oprops (obj_at h c)))]> h) o k'
  = if strict_eq o (VRef c) && String.eqb k' k then x else get_prop h o k'.
Proof.
  destruct o as [| | | | | |l]; try reflexivity. cbn [get_prop strict_eq].
  destruct (Pos.eqb_spec l c) as [->|Ne].
  - rewrite obj_at_insert_eq. cbn [oprops andb]. apply assoc_get_set.
  - rewrite obj_at_insert_ne by congruence. reflexivity.
Qed.

Lemma drop_subtree_target w prop σ d :
  target (proxy_at (drop_subtree w prop σ) d) = target (proxy_at σ d).
Proof.
  unfold drop_subtree. destruct (_ !! _); [|reflexivity].
  destruct (decide (w = d)) as [->|Ne].
  - now rewrite proxy_at_with_subtrees.
  - unfold proxy_at, with_subtrees. cbn. now rewrite lookup_insert_ne.
Qed.

Lemma proxy_at_with_heap h σ w : proxy_at (with_heap h σ) w = proxy_at σ w.
Proof. reflexivity. Qed.

(** The fan-out over a flat value, key by key: each round stores the value
    of the key into the target [c] of the child wrapper [d].  [g] is what
    the value holds; [done] are the keys already gone through. *)
Lemma for_in_stores n d lv c (g : string -> value) ks : forall σi done,
  target (proxy_at σi d) = c ->
  (forall k, is_prim (g k) = true) ->
  (forall k, get_prop (hp (vw σi)) (VRef lv) k = g k) ->
  (forall k, In k done -> get_prop (hp (vw σi)) (VRef c) k = g k) ->
  exists σf,
    for_in ks
      (λ k, σ ← get_world;
            setProperty (S n) d k (get_prop (hp (vw σ)) (VRef lv) k) true) σi
    = (Ok tt, σf) /\
    forall k, In k (done ++ ks) -> get_prop (hp (vw σf)) (VRef c) k = g k.
Proof.
  induction ks as [|k ks IH]; intros σi done Ht Hp Hv Hd; cbn [for_in].
  - exists σi. split; [reflexivity|]. now rewrite app_nil_r.
  - rewrite bind_at, bind_get_world.
    rewrite setProperty_child_scalar
      by (apply isobj_prim; rewrite Hv; apply Hp).
    rewrite bind_at. unfold store_target at 1.
    rewrite drop_subtree_vw, drop_subtree_target, Ht, Hv. cbn [set_prop].
    set (h' := <[c := _]> (hp (vw σi))).
    set (σ' := with_heap h' (drop_subtree d k σi)).
    change ((mret true : M bool) σ') with (Ok true, σ').
    assert (Hg : forall o k0,
               get_prop (hp (vw σ')) o k0
               = if strict_eq o (VRef c) && String.eqb k0 k then g k
                 else get_prop (hp (vw σi)) o k0).
    { intros o k0. unfold σ', h'. cbn [with_heap vw hp with_hp].
      apply get_prop_store. }
    destruct (IH σ' (done ++ [k])) as (σf & Hrun & Hall).
    + unfold σ'. now rewrite proxy_at_with_heap, drop_subtree_target.
    + exact Hp.
    + intros k0. rewrite Hg, Hv.
      destruct (strict_eq (VRef lv) (VRef c) && String.eqb k0 k) eqn:E;
        [|reflexivity].
      apply andb_prop in E as [_ E]. now apply String.eqb_eq in E as ->.
    + intros k0 Hin. rewrite Hg. cbn [strict_eq]. rewrite Pos.eqb_refl.
      cbn [andb]. destruct (String.eqb_spec k0 k) as [->|Ne]; [reflexivity|].
      apply in_app_or in Hin as [Hin|[->|[]]]; [now apply Hd|congruence].
    + exists σf. split; [exact Hrun|].
      intros k0 Hin. apply Hall. now rewrite <- List.app_assoc.
Qed.

Lemma fan_out_child n w prop v σ :
  fan_out n w prop v σ
  = (d ← child_of w prop;
     σ' ← get_world;
     for_in (keys_of (hp (vw σ')) v)
       (λ k, σ0 ← get_world;
             setProperty n d k (get_prop (hp (vw σ0)) v k) true)) σ.
Proof.
  unfold fan_out, child_of.
  rewrite bind_assoc_at. apply bind_ext_at. intros [] σ1.
  rewrite bind_assoc_at. reflexivity.
Qed.

(** The child wrapper is there to be written through whenever the slot can
    carry one; getting it leaves every other object of the heap as it
    is. *)
Lemma child_of_ready w prop lv σ :
  lv <> target (proxy_at σ w) ->
  slot_plain σ w prop = true ->
  exists d σ1,
    child_of w prop σ = (Ok d, σ1) /\
    obj_at (hp (vw σ1)) lv = obj_at (hp (vw σ)) lv.
Proof.
  intros Hne Hs. unfold child_of. rewrite bind_at.
  set (t := target (proxy_at σ w)) in *.
  assert (He : exists σ1,
             ensure_target w prop σ = (Ok tt, σ1) /\
             obj_at (hp (vw σ1)) lv = obj_at (hp (vw σ)) lv /\
             proxy_at σ1 w = proxy_at σ w /\
             (subtrees (proxy_at σ w) !! prop = None ->
              exists l, get_prop (hp (vw σ1)) (VRef t) prop = VRef l)).
  { unfold ensure_target. fold t.
    destruct (truthy (get_prop (hp (vw σ)) (VRef t) prop)) eqn:T.
    - exists σ. repeat split; trivial. intros E.
      unfold slot_plain in Hs. rewrite E in Hs. fold t in Hs.
      destruct (get_prop (hp (vw σ)) (VRef t) prop) as [| | | | | |l];
        cbn [negb] in Hs; try (rewrite T in Hs; discriminate Hs).
      now exists l.
    - cbn [alloc set_prop]. eexists. split; [reflexivity|].
      cbn [with_heap vw hp with_hp]. split; [|split].
      + rewrite obj_at_insert_ne by congruence.
        destruct (decide (fresh (dom (hp (vw σ))) = lv)) as [<-|Hn].
        * rewrite obj_at_insert_eq. unfold obj_at.
          now rewrite (not_elem_of_dom_1 _ _ (is_fresh (dom (hp (vw σ))))).
        * now rewrite obj_at_insert_ne.
      + reflexivity.
      + intros _. eexists. cbn [get_prop]. rewrite obj_at_insert_eq.
        cbn [oprops]. apply assoc_get_set_eq. }
  destruct He as (σ1 & -> & Ho & Hp & Hl).
  rewrite bind_get_world, Hp.
  destruct (subtrees (proxy_at σ w) !! prop) as [d|] eqn:E.
  - exists d, σ1. now split.
  - destruct (Hl eq_refl) as [l Hg]. unfold make_subtree.
    rewrite Hp. fold t. rewrite Hg. eexists _, _. split; [reflexivity|].
    exact Ho.
Qed.

(** *** Whole-object writes of flat objects run to the handler *)

(** The fan-out over a flat value completes, and it has then stored every
    key of the value into the target of the child wrapper. *)
Lemma fan_out_flat_stores n w prop lv σ :
  flat (hp (vw σ)) lv = true ->
  lv <> target (proxy_at σ w) ->
  slot_plain σ w prop = true ->
  exists d σ1,
    child_of w prop σ = (Ok d, σ1) /\
    fst (fan_out (S n) w prop (VRef lv) σ) = Ok tt /\
    forall k, In k (keys_of (hp (vw σ)) (VRef lv)) ->
      get_prop (hp (vw (snd (fan_out (S n) w prop (VRef lv) σ))))
               (VRef (target (proxy_at σ1 d))) k
      = get_prop (hp (vw σ)) (VRef lv) k.
Proof.
  intros Hf Hne Hs.
  destruct (child_of_ready w prop lv σ Hne Hs) as (d & σ1 & Hc & Ho).
  exists d, σ1. split; [exact Hc|].
  rewrite fan_out_child, bind_at, Hc, bind_get_world.
  assert (Hk : keys_of (hp (vw σ1)) (VRef lv) = keys_of (hp (vw σ)) (VRef lv))
    by (cbn [keys_of]; now rewrite Ho).
  destruct (for_in_stores n d lv (target (proxy_at σ1 d))
              (fun k => get_prop (hp (vw σ)) (VRef lv) k)
              (keys_of (hp (vw σ1)) (VRef lv)) σ1 [])
    as (σf & -> & Hall).
  - reflexivity.
  - intros k. now apply assoc_get_prim.
  - intros k. cbn [get_prop]. now rewrite Ho.
  - intros k [].
  - split; [reflexivity|]. intros k Hin. apply Hall. cbn [app fst snd].
    now rewrite Hk.
Qed.

(** *** Examples: the scenarios run *)

Example worldD_handle :
  fst (getProperty root "obj" (create (Scenario.idle Scenario.heapD [])))
  = Ok (HProxy Scenario.objD).
Proof. vm_compute. reflexivity. Qed.

(** Scenario D, run: one handler write, at [obj.sub]. *)
Example scenario_D_trace :
  let r := setProperty 2 Scenario.objD "sub" Scenario.valueD false
             Scenario.worldD in
  fst r = Ok true /\
  events (vw (snd r))
  = [HRead ["obj"]; HWrite ["obj"; "sub"] Scenario.valueD; SetTimeout 1].
Proof. vm_compute. split; reflexivity. Qed.

(** Writing a plain object over a truthy primitive: the child wrapper
    cannot be made, and the handler is never reached. *)
Example object_over_string :
  let r := setProperty 2 root "title" (VRef 3) false
             (create (Scenario.idle Scenario.heapT [])) in
  fst r = Throw (TypeError "Cannot create proxy with a non-object as target")
  /\ events (vw (snd r)) = [].
Proof. vm_compute. split; reflexivity. Qed.

(** A nested value: the leaves are stored two wrappers down, and the
    handler is still called once. *)
Example nested_object_write :
  let r := setProperty 3 Scenario.objD "sub" (VRef 3) false Scenario.worldE in
  fst r = Ok true /\
  handler_calls (snd r) = [HRead ["obj"]; HWrite ["obj"; "sub"] (VRef 3)].
Proof. vm_compute. split; reflexivity. Qed.

(** Writing the wrapper's own target below itself, [obj.sub = obj], keeps
    finding a new [sub] to descend into: the recursion does not end. *)
Example self_write_exhausts :
  fst (setProperty 40 Scenario.objD "sub" (VRef 2) false Scenario.worldD)
  = OutOfFuel.
Proof. vm_compute. reflexivity. Qed.

Example worldM_stale_path :
  keypath (up (proxy_at Scenario.worldM Scenario.pbM)) "x" = ["a"; "b"; "x"]
  /\ get_prop (hp (vw Scenario.worldM)) (VRef 2) "b" = VUndef.
Proof. vm_compute. split; reflexivity. Qed.

(** *** C1: whole-object writes *)




(** *** C2: writes of a value equal to the stored one *)

Lemma typeof_not_object_isobj h v :
  String.eqb (typeof h v) "object" = false -> isobj h v = false.
Proof. unfold isobj. now intros ->. Qed.

(** C2, as stated, fails for [null]: with the model [{x: null}], the write
    [view.x = null] calls the handler and starts the render timer. *)
Lemma null_rewrite_is_not_noop :
  strict_eq (get_prop (hp (vw Scenario.worldN)) (VRef 1) "x") VNull = true /\
  isobj (hp (vw Scenario.worldN)) VNull = false /\
  ~ write_is_noop 1 Scenario.worldN root "x" VNull.
Proof.
  split; [reflexivity|]. split; [reflexivity|].
  intros (_ & _ & Hs). vm_compute in Hs. discriminate Hs.
Qed.

Lemma plain_ref h o : plain h o = true -> exists l, o = VRef l.
Proof. destruct o; try discriminate. eauto. Qed.

Lemma own_plain h o k : own h o k = true -> plain h o = true.
Proof. unfold own. now intros [H _]%andb_prop. Qed.

(** Once a view has rendered, a render that is asked for while the view is
    not locked leaves a timer pending. *)
Lemma render_starts_timer s :
  renderedOnce s = true -> renderlock s = false ->
  renderTimeout (render s) = Some (next_timer s).
Proof.
  destruct s as [h d e w ou oc rl ro rt nt ev]. cbn [renderedOnce renderlock].
  intros -> ->. now destruct ou, rt.
Qed.

(** Entering [setPath] and storing into the model leave the scheduler and
    the hooks as they are. *)
Lemma stored_flags h' path v s :
  let s' := with_hp h' (entered path v s) in
  renderlock s' = renderlock s /\ renderedOnce s' = renderedOnce s /\
  renderTimeout s' = renderTimeout s /\ next_timer s' = next_timer s /\
  onupdate s' = onupdate s /\ oncreate s' = oncreate s.
Proof.
  cbv zeta. unfold entered. destruct path as [|k [|]]; cbn; auto 10.
  destruct (bool_decide _); cbn; auto 10.
Qed.

(** C2 (amended).  The path [P] of [w].[prop] is taken to run through plain
    objects, under names that [Object.prototype] does not define.  For a
    value [v] whose [typeof] is not ["object"] (undefined, a boolean, a
    number, a string, a function) that is strictly equal to the value stored
    at [P]: the wrapper still calls [Handler.write (root, P, v)], which
    returns [true] at once after the watcher of a single-segment path, if
    any, has run; the model and the scheduler are unchanged, so no render is
    enqueued.  For a value whose [typeof] is ["object"] ([null], a sequence,
    any object) the handler makes no comparison: whatever is stored at [P],
    the value is stored and [render()] is called, which on a view that has
    rendered and is not locked leaves a timer pending; and for [null] and
    for a sequence the wrapper's write is that handler call. *)
Theorem equal_primitive_write_suppressed
  (n : nat) (w : wid) (prop : string) (v : value) (σ : world) (obj : value) :
  let s := vw σ in
  let P := keypath (up (proxy_at σ w)) prop in
  walk (hp s) (VRef (data s)) (removelast P) = Ok obj ->
  own_route (hp s) (VRef (data s)) (removelast P) = true ->
  own (hp s) obj (last_key P) = true ->
  let r := setProperty (S n) w prop v false σ in
  (String.eqb (typeof (hp s) v) "object" = false ->
   strict_eq (get_prop (hp s) obj (last_key P)) v = true ->
   fst r = Ok true /\
   hp (vw (snd r)) = hp s /\
   scheduler (vw (snd r)) = scheduler s /\
   events (vw (snd r)) = events s ++ HWrite P v :: watch_events s P v) /\
  (String.eqb (typeof (hp s) v) "object" = true ->
   renderedOnce s = true ->
   exists h',
     set_prop (hp s) obj (last_key P) v = Some h' /\
     setPath P v s = (Ok true, render (with_hp h' (entered P v s))) /\
     events (snd (setPath P v s))
     = events s ++ HWrite P v :: watch_events s P v ++ render_trace s /\
     (renderlock s = false ->
      renderTimeout (snd (setPath P v s)) = Some (next_timer s))) /\
  (isobj (hp s) v = false ->
   fst r = fst (setPath P v s) /\ vw (snd r) = snd (setPath P v s)).
Proof.
  intros s P Hwalk _ Hown r. subst r. split; [|split].
  - intros Ht Heq.
    rewrite setProperty_scalar by now apply typeof_not_object_isobj.
    rewrite handler_fst, handler_vw, drop_subtree_vw. fold s P.
    rewrite setPath_unfold. cbv zeta.
    rewrite entered_hp, entered_data, Hwalk, Ht, Heq. cbn [negb andb fst snd].
    rewrite entered_hp, entered_scheduler, entered_events. auto.
  - intros Ht Hr.
    destruct (plain_ref _ _ (own_plain _ _ _ Hown)) as [l ->].
    cbn [set_prop]. eexists. split; [reflexivity|].
    assert (E : setPath P v s
                = (Ok true,
                   render (with_hp (<[l := Obj (okind_of (obj_at (hp s) l))
                                        (assoc_set (last_key P) v
                                           (oprops (obj_at (hp s) l)))]> (hp s))
                             (entered P v s)))).
    { rewrite setPath_unfold. cbv zeta.
      rewrite entered_hp, entered_data, Hwalk, Ht. reflexivity. }
    rewrite E. split; [reflexivity|]. cbn [snd].
    destruct (stored_flags (<[l := Obj (okind_of (obj_at (hp s) l))
                                (assoc_set (last_key P) v
                                   (oprops (obj_at (hp s) l)))]> (hp s))
                P v s) as (F1 & F2 & F3 & F4 & F5 & F6).
    split.
    + rewrite render_events_eq. cbn [events with_hp].
      rewrite entered_events, <- List.app_assoc. cbn [app].
      do 3 f_equal. unfold render_trace, render_events.
      now rewrite F1, F2, F3, F4, F5, F6.
    + intros Hl. rewrite render_starts_timer; [now rewrite F4|..]; congruence.
  - intros Hi. rewrite setProperty_scalar by exact Hi.
    now rewrite handler_fst, handler_vw, drop_subtree_vw.
Qed.

Lemma equal_primitive_write_suppressed_witness :
  let r := setProperty 1 root "n" (VNum 5) false Scenario.worldN in
  fst r = Ok true /\
  hp (vw (snd r)) = hp (vw Scenario.worldN) /\
  scheduler (vw (snd r)) = scheduler (vw Scenario.worldN) /\
  events (vw (snd r)) = [HWrite ["n"] (VNum 5); Watch "n" (VNum 5)].
Proof.
  refine (proj1 (equal_primitive_write_suppressed 0 root "n" (VNum 5)
                   Scenario.worldN (VRef 1) _ _ _) _ _); reflexivity.
Defined.

(** *** C3: the render lock *)

(** C3, as stated, fails: locking and unlocking an idle view, with no write
    in between, starts the render timer. *)
Lemma unlock_renders_without_mutation :
  ~ unlock_respects_dirty (Scenario.idle Scenario.heapN []).
Proof. intros [He _]. vm_compute in He. discriminate He. Qed.

(** C3 (amended).  While the view is locked a write or an erase changes the
    model but leaves the scheduler as it was: no hook, no timer, no render,
    and nothing that records the mutation.  [unlock()] on a locked view
    clears the lock and calls [render()] once, whether or not anything was
    written meanwhile: before the first render that is the render itself,
    afterwards the update hook and a restarted timer.  [unlock()] on a view
    that is not locked does nothing. *)
Theorem locked_view_scheduler (s : view) (path : list string) (v : value) :
  renderlock s = true ->
  (scheduler (snd (setPath path v s)) = scheduler s /\
   events (snd (setPath path v s))
   = events s ++ HWrite path v :: watch_events s path v) /\
  (scheduler (snd (deletePath path s)) = scheduler s /\
   events (snd (deletePath path s)) = events s ++ [HErase path]) /\
  (unlock s = render (with_renderlock false s) /\
   events (unlock s) = events s ++ render_events s /\
   render_events s <> [] /\
   renderlock (unlock s) = false) /\
  (forall s', renderlock s' = false -> unlock s' = s').
Proof.
  intros L. repeat split.
  - rewrite setPath_unfold. cbv zeta.
    destruct (walk _ _ _); cbn [snd]; try apply entered_scheduler.
    destruct (_ && _); cbn [snd]; try apply entered_scheduler.
    destruct (set_prop _ _ _ _); cbn [snd]; try apply entered_scheduler.
    rewrite render_locked.
    + apply (entered_scheduler path v s).
    + cbn. pose proof (entered_scheduler path v s) as E.
      unfold scheduler in E. congruence.
  - rewrite setPath_unfold. cbv zeta.
    destruct (walk _ _ _); cbn [snd]; try apply entered_events.
    destruct (_ && _); cbn [snd]; try apply entered_events.
    destruct (set_prop _ _ _ _); cbn [snd]; try apply entered_events.
    rewrite render_locked.
    + apply (entered_events path v s).
    + cbn. pose proof (entered_scheduler path v s) as E.
      unfold scheduler in E. congruence.
  - unfold deletePath. destruct (walk _ _ _); cbn [snd]; try reflexivity.
    rewrite render_locked by exact L. unfold scheduler. reflexivity.
  - unfold deletePath. destruct (walk _ _ _); cbn [snd]; try reflexivity.
    rewrite render_locked by exact L. reflexivity.
  - unfold unlock. now rewrite L.
  - unfold unlock. rewrite L. now rewrite render_unlocked_events.
  - apply render_events_nonempty.
  - unfold unlock. rewrite L. now rewrite render_renderlock.
  - intros s' U. unfold unlock. now rewrite U.
Qed.

(** A timer started before [lock()] is not held back by the lock. *)
Example pending_timer_fires_under_lock :
  let s := lock (render (Scenario.idle Scenario.heapN [])) in
  renderlock s = true /\
  events (timer_fires 1 s) = [SetTimeout 1; ClearTimeout 1; DoRender].
Proof. vm_compute. split; reflexivity. Qed.

Lemma locked_view_scheduler_witness :
  let s := lock (Scenario.idle Scenario.heapN []) in
  scheduler (snd (setPath ["x"] (VNum 1) s)) = scheduler s /\
  events (unlock s) = [SetTimeout 1].
Proof.
  destruct (locked_view_scheduler (lock (Scenario.idle Scenario.heapN []))
              ["x"] (VNum 1) eq_refl) as ((Hs & _) & _ & (_ & He & _) & _).
  split; [exact Hs | exact He].
Defined.

(** *** C4: a missing intermediate segment *)

Lemma plain_isobj h v : plain h v = true -> isobj h v = true.
Proof.
  destruct v as [| | | | | |l]; try discriminate. unfold plain, isobj.
  cbn [typeof isArray nullish orb]. unfold obj_at.
  destruct (h !! l) as [[[] ps]|]; cbn; intros H; try discriminate H;
    reflexivity.
Qed.

(** C4.  When the path [P] of [w].[prop] traverses a missing intermediate
    segment [k] (the segments before it run through plain objects under
    names that [Object.prototype] does not define, and [k] is no such name
    either), the handler's [setPath] and [deletePath] throw
    [Error ("Can not set key 'k'")], and the wrapper's write and erase end in
    that same exception: a scalar write and an erase hand the handler's
    outcome back as it is, and so does the write of a flat plain object once
    its fan-out is done (the path being judged in the state the handler
    then sees). *)
Theorem invalid_path_propagates
  (n : nat) (w : wid) (prop : string) (v : value) (σ : world) (k : string) :
  let P := keypath (up (proxy_at σ w)) prop in
  missing_intermediate (hp (vw σ)) (VRef (data (vw σ))) P k ->
  own_route (hp (vw σ)) (VRef (data (vw σ))) P = true ->
  fst (setPath P v (vw σ)) = Throw (invalid_path k) /\
  fst (deletePath P (vw σ)) = Throw (invalid_path k) /\
  (isobj (hp (vw σ)) v = false ->
   fst (setProperty (S n) w prop v false σ) = Throw (invalid_path k)) /\
  fst (deleteProperty w prop σ) = Throw (invalid_path k) /\
  (forall lv k',
     flat (hp (vw σ)) lv = true ->
     lv <> target (proxy_at σ w) ->
     own (hp (vw σ)) (VRef (target (proxy_at σ w))) prop = true ->
     own_keys (hp (vw σ)) (VRef lv) = true ->
     slot_plain σ w prop = true ->
     let σ1 := snd ((fan_out (S n) w prop (VRef lv) ;;
                     store_target w prop (VRef lv)) σ) in
     let P1 := keypath (up (proxy_at σ1 w)) prop in
     missing_intermediate (hp (vw σ1)) (VRef (data (vw σ1))) P1 k' ->
     own_route (hp (vw σ1)) (VRef (data (vw σ1))) P1 = true ->
     fst (setProperty (S (S n)) w prop (VRef lv) false σ)
     = Throw (invalid_path k')).
Proof.
  intros P Hm _. repeat split.
  - now rewrite (setPath_missing P v (vw σ) k Hm).
  - now rewrite (deletePath_missing P (vw σ) k Hm).
  - intros Hi. rewrite setProperty_scalar by assumption.
    rewrite handler_fst, drop_subtree_vw. fold P.
    now rewrite (setPath_missing P v (vw σ) k Hm).
  - rewrite deleteProperty_unfold, handler_fst, drop_subtree_vw. fold P.
    now rewrite (deletePath_missing P (vw σ) k Hm).
  - intros lv k' Hf Hne _ Hk Hs σ1 P1 Hm' _.
    assert (Hi : isobj (hp (vw σ)) (VRef lv) = true).
    { apply plain_isobj. unfold own_keys in Hk.
      now apply andb_prop in Hk as [Hk _]. }
    destruct (fan_out_flat_stores n w prop lv σ Hf Hne Hs)
      as (_ & _ & _ & Hrun & _).
    rewrite setProperty_object by assumption.
    subst P1 σ1. revert Hm'. rewrite !bind_at.
    destruct (fan_out (S n) w prop (VRef lv) σ) as [[[]|e|] σ0];
      try discriminate Hrun.
    rewrite bind_at. unfold store_target. cbn [set_prop snd]. intros Hm'.
    rewrite bind_get_world, handler_fst.
    now rewrite (setPath_missing _ (VRef lv) _ k' Hm').
Qed.

Lemma invalid_path_propagates_witness :
  fst (setProperty 1 Scenario.pbM "x" (VNum 1) false Scenario.worldM)
  = Throw (Error "Can not set key 'b'") /\
  fst (deleteProperty Scenario.pbM "x" Scenario.worldM)
  = Throw (Error "Can not set key 'b'").
Proof.
  assert (Hm : missing_intermediate (hp (vw Scenario.worldM))
                 (VRef (data (vw Scenario.worldM)))
                 (keypath (up (proxy_at Scenario.worldM Scenario.pbM)) "x")
                 "b").
  { exists ["a"], ["x"], (VRef 2). vm_compute. repeat split; congruence. }
  destruct (invalid_path_propagates 0 Scenario.pbM "x" (VNum 1)
              Scenario.worldM "b" Hm eq_refl) as (_ & _ & Hw & Hd & _).
  split; [apply Hw; reflexivity | exact Hd].
Defined.

(** *** C9: watchers *)

Lemma proxy_at_create_root s : proxy_at (create s) root = MkProxy (data s) Top ∅.
Proof. reflexivity. Qed.

(** C9.  A write whose path is exactly [[k]], with a watcher registered for
    [k], calls the watcher with the new value first thing, before the path
    is walked and before the stored value is compared: the trace continues
    with [HWrite [k] v; Watch k v] in every case, and when the write is then
    suppressed (a non-object [v] strictly equal to the stored value) that is
    all that happens.  A scalar write of [view.k] through the root wrapper
    is such a write. *)
Theorem watch_fires_before_suppression (s : view) (k : string) (v : value) :
  k ∈ watch s ->
  (exists rest,
     events (snd (setPath [k] v s))
     = events s ++ HWrite [k] v :: Watch k v :: rest) /\
  (String.eqb (typeof (hp s) v) "object" = false ->
   strict_eq (get_prop (hp s) (VRef (data s)) k) v = true ->
   setPath [k] v s
   = (Ok true, emit (Watch k v) (emit (HWrite [k] v) s))) /\
  (forall n, k <> EmptyString -> isobj (hp s) v = false ->
     vw (snd (setProperty (S n) root k v false (create s)))
     = snd (setPath [k] v s)).
Proof.
  intros Hk. pose proof (bool_decide_eq_true_2 (k ∈ watch s) Hk) as Hb.
  assert (He : entered [k] v s = emit (Watch k v) (emit (HWrite [k] v) s)).
  { unfold entered. cbn [watch emit]. now rewrite Hb. }
  split; [|split].
  - rewrite setPath_unfold. cbv zeta. rewrite He.
    cbn [removelast walk hp data emit].
    destruct (_ && _); cbn [snd events emit].
    + exists []. now rewrite <- List.app_assoc.
    + cbn [set_prop]. unfold last_key. cbn [List.last snd].
      rewrite render_events_eq. cbn [events with_hp emit].
      eexists. rewrite <- !List.app_assoc. reflexivity.
  - intros Ht Heq. rewrite setPath_unfold. cbv zeta. rewrite He.
    cbn [removelast walk hp data emit]. unfold last_key. cbn [List.last].
    now rewrite Ht, Heq.
  - intros n Hne Hi. rewrite setProperty_scalar by exact Hi.
    rewrite handler_vw, drop_subtree_vw, proxy_at_create_root.
    unfold keypath. cbn [up keypath0 app create vw].
    apply String.eqb_neq in Hne. now rewrite Hne.
Qed.

Lemma watch_fires_before_suppression_witness :
  setPath ["n"] (VNum 5) (vw Scenario.worldN)
  = (Ok true,
     emit (Watch "n" (VNum 5)) (emit (HWrite ["n"] (VNum 5))
                                     (vw Scenario.worldN))).
Proof.
  assert (Hk : "n" ∈ watch (vw Scenario.worldN))
    by (apply (bool_decide_eq_true_1 _); vm_compute; reflexivity).
  destruct (watch_fires_before_suppression (vw Scenario.worldN) "n" (VNum 5)
              Hk) as (_ & Hs & _).
  apply Hs; reflexivity.
Defined.

(** *** Facts about compareNodes *)

Lemma pad_spec n : forall d kids,
  pad n d kids = (kids ++ map filler (seq d n), (d + n)%nat).
Proof.
  induction n as [|n IH]; intros d kids; cbn [pad seq map].
  - now rewrite app_nil_r, Nat.add_0_r.
  - rewrite IH, <- List.app_assoc. cbn [app]. f_equal. lia.
Qed.

Lemma childNodes_with_value n v : childNodes_of (with_value n v) = childNodes_of n.
Proof. now destruct n. Qed.

Lemma childNodes_with_attrs n a : childNodes_of (with_attrs n a) = childNodes_of n.
Proof. now destruct n. Qed.

Lemma childNodes_with_childNodes n kids :
  is_element n = true -> childNodes_of (with_childNodes n kids) = kids.
Proof. destruct n; cbn; [reflexivity|discriminate|discriminate]. Qed.

Lemma attrs_with_value n v : attrs_of (with_value n v) = attrs_of n.
Proof. now destruct n. Qed.

Lemma attrs_with_childNodes n kids : attrs_of (with_childNodes n kids) = attrs_of n.
Proof. now destruct n. Qed.

Lemma is_element_with_value n v : is_element (with_value n v) = is_element n.
Proof. now destruct n. Qed.

Lemma is_element_with_childNodes n kids :
  is_element (with_childNodes n kids) = is_element n.
Proof. now destruct n. Qed.

(** The last part of [compareNodes] leaves the children alone and makes no
    element. *)
Lemma settle_frame left1 right d1 :
  childNodes_of (snd (fst (settle left1 right d1))) = childNodes_of left1 /\
  snd (settle left1 right d1) = d1.
Proof.
  unfold settle.
  destruct (_ && _); cbn [fst snd]; [auto|].
  destruct (negb (opt_string_eqb (value_of left1) (value_of right)));
    destruct (is_element _); cbn [fst snd];
    try destruct (_ && _); cbn [fst snd];
    rewrite ?childNodes_with_attrs, ?childNodes_with_value; auto.
Qed.

Lemma nodeType_eqb_refl t : nodeType_eqb t t = true.
Proof. now destruct t. Qed.

Lemma opt_string_eqb_refl o : opt_string_eqb o o = true.
Proof. destruct o; cbn; [apply String.eqb_refl|reflexivity]. Qed.

Lemma opt_string_eqb_neq a b : a <> b -> opt_string_eqb a b = false.
Proof.
  destruct a as [x|], b as [y|]; cbn; intros H; try reflexivity.
  - apply String.eqb_neq. congruence.
  - congruence.
Qed.

Lemma compareNodes_comparable left right d :
  comparable left right ->
  compareNodes left right d
  = match resize left right d with
    | None => (false, left, d)
    | Some (left1, d1) => settle left1 right d1
    end.
Proof.
  intros (Hk & Ht & Hs). unfold compareNodes.
  now rewrite Hk, Ht, nodeType_eqb_refl, opt_string_eqb_refl, Hs.
Qed.

Lemma has_children_is_element n :
  (0 < List.length (childNodes_of n))%nat -> is_element n = true.
Proof. destruct n; cbn; [reflexivity|lia|lia]. Qed.

(** *** C7: child counts *)

(** C7, as stated, fails: an old node without children against a new node
    with one child is a mismatch of one, and it is not evened out; the pair
    is incompatible. *)
Lemma empty_old_node_is_not_padded :
  ~ tolerates_small_mismatch
      (Element 1 "UL" [] None [] [])
      (Element 2 "UL" [] None [] [Element 3 "LI" [] None [] []]) 10.
Proof.
  unfold tolerates_small_mismatch. cbn. intros [H _].
  assert (0 = 1)%nat by (apply H; lia). discriminate.
Qed.

(** The bound is not on the mismatch either: one child against 102 is
    evened out. *)
Example large_mismatch_is_padded :
  let left := Element 1 "UL" [] None [] [CommentNode "a"] in
  let right := Element 2 "UL" [] None [] (repeat (CommentNode "a") 102) in
  let r := compareNodes left right 10 in
  fst (fst r) = true /\ List.length (childNodes_of (snd (fst r))) = 102%nat.
Proof. vm_compute. split; reflexivity. Qed.

(** C7 (amended).  For an old and a new node that pass the guards of the
    predicate (same kind, same tag, old not marked [keep]), with [ll] and
    [rl] children: if [ll < rl], the pair is incompatible when the old node
    has no child or more than 100, otherwise [rl - ll] empty [div]s are
    appended to the old node; if [ll > rl], the pair is incompatible when
    the old node has more than 100 children, otherwise the old node keeps
    its first [rl] children; if [ll = rl] nothing is changed.  Only the old
    node is changed, and the bound is on its own child count. *)
Theorem child_count_mismatch_on_old_node (left right : node) (d : nat) :
  comparable left right ->
  let ll := List.length (childNodes_of left) in
  let rl := List.length (childNodes_of right) in
  let r := compareNodes left right d in
  ((ll < rl)%nat ->
     ((ll = 0 \/ 100 < ll)%nat -> r = (false, left, d)) /\
     ((0 < ll <= 100)%nat ->
        childNodes_of (snd (fst r))
        = childNodes_of left ++ map filler (seq d (rl - ll)) /\
        snd r = (d + (rl - ll))%nat)) /\
  ((rl < ll)%nat ->
     ((100 < ll)%nat -> r = (false, left, d)) /\
     ((ll <= 100)%nat ->
        childNodes_of (snd (fst r)) = firstn rl (childNodes_of left) /\
        snd r = d)) /\
  (ll = rl -> childNodes_of (snd (fst r)) = childNodes_of left /\ snd r = d).
Proof.
  intros Hc ll rl r. subst r. rewrite compareNodes_comparable by assumption.
  unfold resize. fold ll rl.
  split; [|split].
  - intros Hlt. apply Nat.ltb_lt in Hlt as Hb. rewrite Hb. split.
    + intros [H0|H100].
      * apply Nat.eqb_eq in H0. now rewrite H0.
      * apply Nat.ltb_lt in H100. rewrite H100. now destruct (Nat.eqb ll 0).
    + intros [H0 H100].
      assert (E0 : Nat.eqb ll 0 = false) by (apply Nat.eqb_neq; lia).
      assert (E1 : Nat.ltb 100 ll = false) by (apply Nat.ltb_ge; lia).
      rewrite E0, E1, pad_spec.
      destruct (settle_frame (with_childNodes left
                   (childNodes_of left ++ map filler (seq d (rl - ll))))
                  right (d + (rl - ll))) as [Hk Hd].
      rewrite Hk, Hd. split; [|reflexivity].
      apply childNodes_with_childNodes, has_children_is_element. exact H0.
  - intros Hgt.
    assert (E0 : Nat.ltb ll rl = false) by (apply Nat.ltb_ge; lia).
    apply Nat.ltb_lt in Hgt as Hb. rewrite E0, Hb. split.
    + intros H100. apply Nat.ltb_lt in H100. now rewrite H100.
    + intros H100.
      assert (E1 : Nat.ltb 100 ll = false) by (apply Nat.ltb_ge; lia).
      rewrite E1.
      destruct (settle_frame (with_childNodes left
                   (firstn rl (childNodes_of left))) right d) as [Hk Hd].
      rewrite Hk, Hd. split; [|reflexivity].
      apply childNodes_with_childNodes, has_children_is_element.
      fold ll. lia.
  - intros Heq.
    assert (E0 : Nat.ltb ll rl = false) by (apply Nat.ltb_ge; lia).
    assert (E1 : Nat.ltb rl ll = false) by (apply Nat.ltb_ge; lia).
    rewrite E0, E1. apply settle_frame.
Qed.

Lemma child_count_mismatch_on_old_node_witness :
  let left := Element 1 "UL" [] None [] [Element 3 "LI" [] None [] []] in
  let right := Element 2 "UL" [] None []
                 [Element 4 "LI" [] None [] []; Element 5 "LI" [] None [] []] in
  childNodes_of (snd (fst (compareNodes left right 10)))
  = [Element 3 "LI" [] None [] []; filler 10].
Proof.
  intros left right.
  assert (Hc : comparable left right) by (repeat split).
  destruct (child_count_mismatch_on_old_node left right 10 Hc)
    as (Hlt & _ & _).
  destruct Hlt as [_ Hpad]; [cbn; lia|].
  destruct Hpad as [Hk _]; [cbn; lia|]. exact Hk.
Defined.

(** *** C5: event signatures *)

Lemma resize_frame left right d left1 d1 :
  resize left right d = Some (left1, d1) ->
  attrs_of left1 = attrs_of left /\ is_element left1 = is_element left.
Proof.
  unfold resize. rewrite pad_spec.
  destruct (Nat.ltb _ _).
  - destruct (Nat.eqb _ 0); [discriminate|].
    destruct (Nat.ltb 100 _); [discriminate|].
    intros [= <- _]. now rewrite attrs_with_childNodes, is_element_with_childNodes.
  - destruct (Nat.ltb _ _).
    + destruct (Nat.ltb 100 _); [discriminate|].
      intros [= <- _].
      now rewrite attrs_with_childNodes, is_element_with_childNodes.
    + intros [= <- _]. auto.
Qed.

Example rendered_buttons :
  Host.rendered_button "Aa" 0
  = Element 0 "BUTTON" [("v-eventid", "3cf4-2362")] None [("click", "Aa")]
            [TextNode "go"] /\
  Host.rendered_button "BB" 1
  = Element 1 "BUTTON" [("v-eventid", "3cf4-2362")] None [("click", "BB")]
            [TextNode "go"].
Proof. vm_compute. split; reflexivity. Qed.

(** C5.  The buttons rendered from [v-on:click="Aa"] and from
    [v-on:click="BB"] are alike but for the source bound to [click]; the
    checksum gives both the same signature, and the reconciler judges them
    compatible: two nodes bound to different listeners are merged. *)
Lemma colliding_sources_are_merged :
  ~ protected_by_signature (Host.rendered_button "Aa" 0)
                           (Host.rendered_button "BB" 1) 2.
Proof. unfold protected_by_signature. vm_compute. discriminate. Qed.

(** An old node marked [keep] is judged compatible whatever the
    signatures. *)
Example keep_ignores_signatures :
  fst (fst (compareNodes
              (Element 1 "A" [("v-static", "keep"); ("v-eventid", "0000-0001")]
                       None [] [])
              (Element 2 "A" [("v-static", "keep"); ("v-eventid", "0000-0002")]
                       None [] []) 3)) = true.
Proof. reflexivity. Qed.

(** X24.  For two element nodes that pass the guards of the predicate (same
    tag, old not marked [keep]): if either carries a [v-eventid] signature
    and the two signatures differ, the pair is incompatible, whatever else
    the nodes hold. *)
Theorem distinct_signatures_incompatible (left right : node) (d : nat) :
  comparable left right ->
  is_element left = true ->
  (attr_truthy (getAttribute left "v-eventid")
   || attr_truthy (getAttribute right "v-eventid")) = true ->
  getAttribute left "v-eventid" <> getAttribute right "v-eventid" ->
  fst (fst (compareNodes left right d)) = false.
Proof.
  intros Hc He Ht Hne. rewrite compareNodes_comparable by assumption.
  destruct (resize left right d) as [[left1 d1]|] eqn:R; [|reflexivity].
  destruct (resize_frame _ _ _ _ _ R) as [Ha Hi].
  unfold settle. destruct (_ && _); [reflexivity|].
  set (left2 := if negb (opt_string_eqb (value_of left1) (value_of right))
                then with_value left1 (value_of right) else left1).
  assert (Ha2 : attrs_of left2 = attrs_of left).
  { subst left2. destruct (negb _); rewrite ?attrs_with_value; exact Ha. }
  assert (Hi2 : is_element left2 = true).
  { subst left2. destruct (negb _); rewrite ?is_element_with_value; congruence. }
  rewrite Hi2. unfold getAttribute in *. rewrite Ha2, Ht.
  now rewrite (opt_string_eqb_neq _ _ Hne).
Qed.

Lemma distinct_signatures_incompatible_witness :
  fst (fst (compareNodes
              (Element 1 "A" [("v-eventid", "0000-0001")] None [] [])
              (Element 2 "A" [("v-eventid", "0000-0002")] None [] []) 3))
  = false.
Proof.
  apply distinct_signatures_incompatible.
  - repeat split.
  - reflexivity.
  - reflexivity.
  - cbn. congruence.
Defined.

(** *** Facts about the scan for moustache spans *)

Lemma append_String c s t : String c s +:+ t = String c (s +:+ t).
Proof. reflexivity. Qed.

Lemma append_Empty t : EmptyString +:+ t = t.
Proof. reflexivity. Qed.

Lemma has_char_false_head c c' s :
  has_char c (String c' s) = false -> Ascii.eqb c' c = false /\ has_char c s = false.
Proof.
  cbn [has_char]. intros [H1 H2]%orb_false_elim. split; [|exact H2].
  now rewrite Ascii.eqb_sym.
Qed.

Lemma close_at_spec src rest :
  has_char "}" src = false ->
  close_at (src +:+ "}}" +:+ rest) = Some (src, rest).
Proof.
  induction src as [|c src IH]; intros H.
  - rewrite append_Empty, !append_String, append_Empty. cbn [close_at].
    now rewrite !Ascii.eqb_refl.
  - apply has_char_false_head in H as [Hc Hs].
    rewrite append_String. cbn [close_at]. rewrite Hc. now rewrite (IH Hs).
Qed.

Lemma close_at_inv s : forall inner rest,
  close_at s = Some (inner, rest) ->
  s = inner +:+ "}}" +:+ rest /\ has_char "}" inner = false.
Proof.
  induction s as [|c s IH]; intros inner rest; cbn [close_at];
    [discriminate|].
  destruct (Ascii.eqb c "}") eqn:E.
  - destruct s as [|c' s]; [discriminate|].
    destruct (Ascii.eqb c' "}") eqn:E'; [|discriminate].
    intros [= <- <-]. apply Ascii.eqb_eq in E as ->, E' as ->. auto.
  - destruct (close_at s) as [[i r]|]; [|discriminate].
    intros [= <- <-]. destruct (IH _ _ eq_refl) as [-> Hi].
    split; [reflexivity|]. cbn [has_char]. rewrite Ascii.eqb_sym, E. exact Hi.
Qed.

Lemma match_at_spec src rest :
  has_char "}" src = false ->
  match_at ("{{" +:+ src +:+ "}}" +:+ rest)
  = Some ("{{" +:+ src +:+ "}}", rest).
Proof.
  intros H.
  change ("{{" +:+ src +:+ "}}" +:+ rest)
    with (String "{" (String "{" (src +:+ "}}" +:+ rest))).
  cbn [match_at]. rewrite !Ascii.eqb_refl. cbn [andb].
  now rewrite close_at_spec.
Qed.

Lemma append_assoc_str (a b c : string) : (a +:+ b) +:+ c = a +:+ b +:+ c.
Proof. induction a as [|x a IH]; [reflexivity|]. rewrite !append_String. now f_equal. Qed.

Lemma match_at_inv s m rest :
  match_at s = Some (m, rest) ->
  exists src, m = "{{" +:+ src +:+ "}}" /\ has_char "}" src = false /\
              s = m +:+ rest.
Proof.
  unfold match_at. destruct s as [|c1 [|c2 s]]; try discriminate.
  destruct (_ && _) eqn:E; [|discriminate].
  destruct (close_at s) as [[i r]|] eqn:C; [|discriminate].
  intros [= <- <-]. apply andb_prop in E as [E1 E2].
  apply Ascii.eqb_eq in E1 as ->, E2 as ->.
  destruct (close_at_inv _ _ _ C) as [-> Hi].
  exists i. repeat split; trivial.
  rewrite !append_String, !append_Empty. f_equal. f_equal.
  now rewrite append_assoc_str.
Qed.

Lemma match_at_not_brace c s :
  Ascii.eqb c "{" = false -> match_at (String c s) = None.
Proof.
  intros H. cbn [match_at]. destruct s; [reflexivity|]. now rewrite H.
Qed.

Lemma pieces_match c s m rest :
  match_at (String c s) = Some (m, rest) ->
  pieces (String c s) = Span m :: pieces rest.
Proof.
  intros H. simp pieces.
  destruct (inspect (match_at (String c s))) as [[[m' r']|] E];
    simp pieces; congruence.
Qed.

Lemma pieces_nomatch c s :
  match_at (String c s) = None -> pieces (String c s) = Lit c :: pieces s.
Proof.
  intros H. simp pieces.
  destruct (inspect (match_at (String c s))) as [[[m' r']|] E];
    simp pieces; congruence.
Qed.

(** Every match has the shape [{{src}}] with no [}] in [src]. *)
Lemma pieces_spans s : forall m,
  In (Span m) (pieces s) ->
  exists src, m = "{{" +:+ src +:+ "}}" /\ has_char "}" src = false.
Proof.
  funelim (pieces s); intros m0 Hin.
  - destruct Hin.
  - destruct Hin as [[= <-]|Hin]; [|eauto].
    match goal with
    | E : match_at _ = Some _ |- _ =>
        destruct (match_at_inv _ _ _ E) as (src & -> & Hs & _)
    end.
    eauto.
  - destruct Hin as [[=]|Hin]. eauto.
Qed.

Lemma pieces_literal lit : forall s,
  has_char "{" lit = false ->
  pieces (lit +:+ s) = map Lit (list_ascii_of_string lit) ++ pieces s.
Proof.
  induction lit as [|c lit IH]; intros s H; [reflexivity|].
  apply has_char_false_head in H as [Hc Hl].
  rewrite append_String. cbn [list_ascii_of_string map app].
  rewrite pieces_nomatch by now apply match_at_not_brace.
  now rewrite IH.
Qed.

Lemma length_append_str (a b : string) :
  String.length (a +:+ b) = (String.length a + String.length b)%nat.
Proof.
  induction a as [|x a IH]; [reflexivity|].
  rewrite append_String. cbn [String.length]. now rewrite IH.
Qed.

Lemma substring_prefix (a b : string) :
  substring 0 (String.length a) (a +:+ b) = a.
Proof.
  induction a as [|x a IH].
  - rewrite append_Empty. cbn [String.length]. now destruct b.
  - rewrite append_String. cbn [String.length substring]. now rewrite IH.
Qed.

Lemma substring_span src :
  substring 2 (String.length ("{{" +:+ src +:+ "}}") - 4)
            ("{{" +:+ src +:+ "}}") = src.
Proof.
  rewrite !append_String, append_Empty. cbn [String.length substring].
  rewrite length_append_str. cbn [String.length].
  replace (S (S (String.length src + 2)) - 4)%nat with (String.length src)
    by lia.
  apply substring_prefix.
Qed.

(** *** Facts about the renderer *)

Section RenderFacts.

Context {W : Type}.
Variable eval : string -> locals -> bool -> W -> jsval * list string * W.
Variable view_get : string -> W -> jsval * W.
Variable abstract_eq : jsval -> jsval -> bool.
Variable parse_html : string -> list node.
Variable style_display_none : option string -> string.

Lemma rbind_at {A B} (m : R W A) (f : A -> R W B) st :
  (m ≫= f) st
  = match m st with
    | (Ok a, st') => f a st'
    | (Throw e, st') => (Throw e, st')
    | (OutOfFuel, st') => (OutOfFuel, st')
    end.
Proof. reflexivity. Qed.

Lemma rret_at {A} (a : A) (st : rstate W) :
  (mret a : R W A) st = (Ok a, st).
Proof. reflexivity. Qed.

Lemma run_eval_eq e tv nr st v warns w' :
  eval e tv nr (host st) = (v, warns, w') ->
  run_eval eval e tv nr st = (Ok v, evaluated st warns w').
Proof. intros H. unfold run_eval. now rewrite H. Qed.

Lemma ensures_ret {A} (a : A) (Q : rstate W -> A -> rstate W -> Prop) :
  (forall st, Q st a st) -> ensures (mret a : R W A) Q.
Proof. intros H st a' st' [= <- <-]. apply H. Qed.

(** A property of the result alone passes through whatever runs first. *)
Lemma ensures_bind_result {A B} (m : R W A) (f : A -> R W B) (P : B -> Prop) :
  (forall a, ensures (f a) (fun _ b _ => P b)) ->
  ensures (m ≫= f) (fun _ b _ => P b).
Proof.
  intros Hf st b st'. rewrite rbind_at.
  destruct (m st) as [[a|e|] st1]; try discriminate. apply Hf.
Qed.

Lemma evaluated_nil (st : rstate W) : evaluated st [] (host st) = st.
Proof. destruct st. unfold evaluated. cbn. now rewrite app_nil_r. Qed.

(** One span: the value decides the text, and an object costs one
    diagnostic. *)
Lemma moustache_span_eq src tv st res warns w' :
  eval src tv false (host st) = (res, warns, w') ->
  moustache_span eval ("{{" +:+ src +:+ "}}") tv st
  = (Ok (replacement res),
     evaluated (evaluated st warns w') (span_warnings src res) w').
Proof.
  intros H. unfold moustache_span. rewrite substring_span, rbind_at.
  rewrite (run_eval_eq _ _ _ _ _ _ _ H).
  destruct res as [| |[]| | | | | |]; cbn; unfold evaluated; cbn;
    rewrite ?app_nil_r; reflexivity.
Qed.

Lemma replace_pieces_literal tv l : forall ps st,
  replace_pieces eval (map Lit l ++ ps) tv st
  = match replace_pieces eval ps tv st with
    | (Ok out, st') => (Ok (string_of_list_ascii l +:+ out), st')
    | other => other
    end.
Proof.
  induction l as [|c l IH]; intros ps st; cbn [map app replace_pieces].
  - destruct (replace_pieces eval ps tv st) as [[out|e|] st']; reflexivity.
  - rewrite rbind_at, IH.
    destruct (replace_pieces eval ps tv st) as [[out|e|] st']; reflexivity.
Qed.

Abbreviation renderT :=
  (renderTemplate eval view_get abstract_eq parse_html style_display_none).
Abbreviation cloneE :=
  (cloneElement eval view_get abstract_eq parse_html style_display_none).

(** *** C10: what a moustache span is replaced by *)

(** A text node is scanned whatever it holds. *)
Lemma renderTemplate_text text into tv :
  text <> EmptyString ->
  renderT (TextNode text) into tv
  = (text' ← parseMoustache eval text tv; mret (into ++ [TextNode text'])).
Proof.
  intros H. unfold renderTemplate, renderTemplate_with.
  apply String.eqb_neq in H. now rewrite H.
Qed.

(** A plain attribute is scanned only when its value begins with two
    opening braces; otherwise it is copied as it is. *)
Lemma clone_attr_plain orig tv a val b :
  Str.startsWith ":" a = false ->
  Str.startsWith "v-" a = false ->
  clone_attr eval view_get abstract_eq orig tv a val b
  = (val' ← (if Str.startsWith "{{" val then parseMoustache eval val tv
             else mret val);
     if negb (attr_truthy (getAttribute orig ("v-bind:" +:+ a)))
     then mret (b_setAttribute a val' b)
     else mret b).
Proof. intros H1 H2. unfold clone_attr. now rewrite H1, H2. Qed.

Lemma ensures_bind_inv {A B} (m : R W A) (f : A -> R W B)
  (I : A -> Prop) (Q : B -> Prop) :
  ensures m (fun _ a _ => I a) ->
  (forall a, I a -> ensures (f a) (fun _ b _ => Q b)) ->
  ensures (m ≫= f) (fun _ b _ => Q b).
Proof.
  intros Hm Hf st b st'. rewrite rbind_at.
  destruct (m st) as [[a| |] st1] eqn:E; [|discriminate..].
  intros E2. exact (Hf a (Hm st a st1 E) st1 b st' E2).
Qed.

Ltac ensures_step :=
  first
    [ apply ensures_ret; intros
    | apply ensures_bind_result; intros
    | lazymatch goal with
      | |- ensures (if ?c then _ else _) _ => destruct c
      | |- ensures (match ?x with _ => _ end) _ => destruct x
      | |- ensures (let _ := _ in _) _ => cbv zeta
      end ].

Lemma bound_attribute_base a :
  Str.startsWith ":" a = true ->
  hd EmptyString (Str.split ":" ("v-bind" +:+ a)) = "v-bind".
Proof.
  destruct a as [|c a]; [discriminate|]. unfold Str.startsWith.
  cbn [String.prefix].
  destruct (ascii_dec ":" c) as [<-|]; [|discriminate]. intros _.
  rewrite !append_String, append_Empty. unfold Str.split.
  cbn [Str.split_go String.prefix String.length Nat.sub].
  repeat match goal with
         | |- context [ascii_dec ?x ?y] =>
             let d := eval vm_compute in (ascii_dec x y) in
             change (ascii_dec x y) with d; cbv iota
         end.
  now destruct a.
Qed.

(** Only a [v-html] attribute sets the markup that replaces the
    children. *)
Lemma clone_attr_innerhtml orig tv a val b :
  String.eqb (hd EmptyString (Str.split ":" a)) "v-html" = false ->
  ensures (clone_attr eval view_get abstract_eq orig tv a val b)
          (fun _ b' _ => b_innerhtml b' = b_innerhtml b).
Proof.
  intros H. unfold clone_attr.
  destruct (Str.startsWith ":" a) eqn:C.
  - rewrite (bound_attribute_base a C).
    change (String.eqb "v-bind" "v-model") with false.
    change (String.eqb "v-bind" "v-on") with false.
    change (String.eqb "v-bind" "v-bind") with true.
    cbv iota. destruct (Str.startsWith "v-" ("v-bind" +:+ a)).
    + unfold clone_v_bind. repeat ensures_step; reflexivity.
    + repeat ensures_step; reflexivity.
  - rewrite H. unfold clone_v_model, clone_v_on, clone_v_bind.
    repeat ensures_step;
      cbn;
      repeat match goal with
             | |- context [if ?c then _ else _] => destruct c
             end;
      reflexivity.
Qed.

Lemma clone_attrs_innerhtml orig tv attrs : forall b,
  html_free attrs = true ->
  ensures (clone_attrs eval view_get abstract_eq orig tv attrs b)
          (fun _ b' _ => b_innerhtml b' = b_innerhtml b).
Proof.
  induction attrs as [|[a val] attrs IH]; intros b H; cbn [clone_attrs].
  - now apply ensures_ret.
  - cbn [html_free forallb fst] in H. apply andb_prop in H as [Ha H].
    apply negb_true_iff in Ha.
    apply (ensures_bind_inv _ _ (fun b' => b_innerhtml b' = b_innerhtml b)).
    + now apply clone_attr_innerhtml.
    + intros b' E. rewrite <- E. now apply IH.
Qed.

Lemma stamp_innerhtml tv b : b_innerhtml (stamp tv b) = b_innerhtml b.
Proof. unfold stamp. now destruct (String.eqb _ _). Qed.

(** The text of a leaf element: what its children rendered to is replaced
    by one text node, the text content of the template element with its
    spans replaced. *)
Lemma cloneElement_leaf_text u t a v l kids tv st0 nw st' :
  html_free a = true ->
  childElementCount (Element u t a v l kids) = 0%nat ->
  textContent (Element u t a v l kids) <> EmptyString ->
  cloneE (Element u t a v l kids) tv st0 = (Ok nw, st') ->
  exists st1 text',
    parseMoustache eval (textContent (Element u t a v l kids)) tv st1
    = (Ok text', st') /\
    childNodes_of nw
    = if String.eqb text' EmptyString then [] else [TextNode text'].
Proof.
  intros Hh Hc Ht. cbn [cloneElement]. rewrite rbind_at. cbn [createElement].
  rewrite rbind_at.
  destruct (clone_attrs _ _ _ _ _ _ _ _) as [[b| |] st1] eqn:C;
    [|discriminate..].
  pose proof (clone_attrs_innerhtml _ _ _ _ Hh _ _ _ C) as Hb.
  cbn [b_innerhtml] in Hb. cbv zeta.
  rewrite stamp_innerhtml, Hb. cbn [jtruthy]. cbv iota.
  rewrite rbind_at.
  match goal with |- context [?go kids [] st1] =>
    destruct (go kids [] st1) as [[rendered| |] st2] end;
    [|discriminate..].
  rewrite Hc. apply String.eqb_neq in Ht. rewrite Ht. cbn [Nat.eqb negb andb].
  rewrite !rbind_at.
  destruct (parseMoustache eval _ tv st2) as [[text'| |] st3] eqn:P;
    [|discriminate..].
  rewrite !rret_at. intros [= <- <-]. exists st2, text'. now split.
Qed.

(** X25.  Every match of the moustache expression has the shape
    [{{src}}] with no closing brace in [src].  When [src] evaluates to
    [res], the span is replaced by ["null"] for [null], by ["undefined"] for
    [undefined], by ["[Object]"] for an array or an object, after one
    diagnostic naming [src], and by [String (res)] otherwise; the
    diagnostics of the evaluation itself come first, and nothing else
    changes.  In a text the literal part before the span is copied, the span
    is replaced, and the scan goes on behind it.  This is done to every text
    node, to the text content of an element that has no element child (and
    takes its content from no [v-html]), and to a plain attribute value that
    begins with two opening braces; any other plain attribute value is
    copied as it is. *)
Theorem moustache_span_replacement
  (src : string) (tv : locals) (st : rstate W)
  (res : jsval) (warns : list string) (w' : W) :
  has_char "}" src = false ->
  eval src tv false (host st) = (res, warns, w') ->
  safe res = true ->
  let m := "{{" +:+ src +:+ "}}" in
  let st1 := evaluated (evaluated st warns w') (span_warnings src res) w' in
  moustache_span eval m tv st
  = (Ok match res with
        | JNull => "null"
        | JUndef => "undefined"
        | JArr _ | JObj _ => "[Object]"
        | v => to_string v
        end, st1) /\
  console st1
  = console st ++ warns
    ++ match res with
       | JArr _ | JObj _ =>
           ["[Vidi] got an object when evaluating {{" +:+ src +:+ "}}"]
       | _ => []
       end /\
  (forall lit rest,
     has_char "{" lit = false ->
     parseMoustache eval (lit +:+ m +:+ rest) tv st
     = match parseMoustache eval rest tv st1 with
       | (Ok out, st2) => (Ok (lit +:+ replacement res +:+ out), st2)
       | other => other
       end) /\
  (forall str m',
     In (Span m') (pieces str) ->
     exists src', m' = "{{" +:+ src' +:+ "}}" /\ has_char "}" src' = false) /\
  (forall text into,
     text <> EmptyString ->
     renderT (TextNode text) into tv
     = (text' ← parseMoustache eval text tv;
        mret (into ++ [TextNode text']))) /\
  (forall u t a v l kids st0 nw st',
     html_free a = true ->
     childElementCount (Element u t a v l kids) = 0%nat ->
     textContent (Element u t a v l kids) <> EmptyString ->
     cloneE (Element u t a v l kids) tv st0 = (Ok nw, st') ->
     exists st2 text',
       parseMoustache eval (textContent (Element u t a v l kids)) tv st2
       = (Ok text', st') /\
       childNodes_of nw
       = if String.eqb text' EmptyString then [] else [TextNode text']) /\
  (forall orig a val b,
     Str.startsWith ":" a = false ->
     Str.startsWith "v-" a = false ->
     clone_attr eval view_get abstract_eq orig tv a val b
     = (val' ← (if Str.startsWith "{{" val then parseMoustache eval val tv
                else mret val);
        if negb (attr_truthy (getAttribute orig ("v-bind:" +:+ a)))
        then mret (b_setAttribute a val' b)
        else mret b)).
Proof.
  intros Hs He _ m st1.
  pose proof (moustache_span_eq src tv st res warns w' He) as Hm.
  fold m st1 in Hm.
  split; [|split; [|split; [|split; [|split; [|split]]]]].
  7: { intros orig a val b. apply clone_attr_plain. }
  6: { intros u t a v l kids st0 nw st'. apply cloneElement_leaf_text. }
  5: { intros text into. apply renderTemplate_text. }
  - rewrite Hm. now destruct res.
  - subst st1. unfold evaluated. cbn [console].
    rewrite <- List.app_assoc. now destruct res.
  - intros lit rest Hl. unfold parseMoustache.
    rewrite pieces_literal by assumption.
    rewrite replace_pieces_literal.
    assert (Hp : pieces (m +:+ rest) = Span m :: pieces rest).
    { subst m. rewrite !append_assoc_str.
      change ("{{" +:+ src +:+ "}}" +:+ rest)
        with (String "{" (String "{" (src +:+ "}}" +:+ rest))).
      apply pieces_match.
      change (String "{" (String "{" (src +:+ "}}" +:+ rest)))
        with ("{{" +:+ src +:+ "}}" +:+ rest).
      now apply match_at_spec. }
    rewrite Hp. cbn [replace_pieces]. rewrite rbind_at, Hm, rbind_at.
    destruct (replace_pieces eval (pieces rest) tv st1) as [[out|e|] st2];
      try reflexivity.
    cbn. now rewrite string_of_list_ascii_of_string.
  - intros str m'. apply pieces_spans.
Qed.

(** *** C8: a false conditional *)

Lemma attr_truthy_some s : s <> EmptyString -> attr_truthy (Some s) = true.
Proof. intros H. cbn. apply String.eqb_neq in H. now rewrite H. Qed.

(** An element that is not iterated takes one position among the children
    of its parent, rendered or not. *)
Lemma rendered_element_one_position into tv other st0 out st' :
  is_element other = true ->
  getAttribute other "v-for" = None ->
  renderT other into tv st0 = (Ok out, st') ->
  List.length out = S (List.length into).
Proof.
  intros He Hfor.
  revert st0 out st'.
  change (ensures (renderT other into tv)
            (fun _ out _ => List.length out = S (List.length into))).
  unfold renderTemplate, renderTemplate_with.
  destruct other as [u t a v l kids|d|d]; try discriminate He.
  rewrite Hfor. cbn [attr_truthy].
  apply ensures_bind_result. intros shown. destruct (negb shown).
  - apply ensures_ret. intros _. rewrite length_app. cbn. lia.
  - apply ensures_bind_result. intros hide.
    intros s o s'. unfold appendClone_with. rewrite !rbind_at.
    destruct (cloneE _ tv s) as [[nw|e|] s1]; try discriminate.
    rewrite !rret_at. intros [= <- _]. rewrite length_app. cbn. lia.
Qed.


(** *** Element identities only go up *)

Lemma node_nested_ind (P : node -> Prop) :
  (forall u t a v l kids, Forall P kids -> P (Element u t a v l kids)) ->
  (forall d, P (TextNode d)) ->
  (forall d, P (CommentNode d)) ->
  forall n, P n.
Proof.
  intros HE HT HC. fix IH 1.
  intros [u t a v l kids|d|d]; [apply HE|apply HT|apply HC].
  induction kids as [|k kids IHk]; constructor; [apply IH|exact IHk].
Qed.

Lemma grows_ret {A} (a : A) : grows (mret a : R W A).
Proof. intros st. cbn. lia. Qed.

Lemma grows_bind {A B} (m : R W A) (f : A -> R W B) :
  grows m -> (forall a, grows (f a)) -> grows (m ≫= f).
Proof.
  intros Hm Hf st. rewrite rbind_at. specialize (Hm st).
  destruct (m st) as [[a|e|] st1]; cbn [snd] in *; try assumption.
  specialize (Hf a st1). lia.
Qed.

Lemma grows_run_eval e tv nr : grows (run_eval eval e tv nr).
Proof.
  intros st. unfold run_eval. destruct (eval _ _ _ _) as [[v ws] w]. cbn. lia.
Qed.

Lemma grows_warn s : grows (warn s : R W unit).
Proof. intros st. cbn. lia. Qed.

Lemma grows_createElement t : grows (createElement t : R W node).
Proof. intros st. cbn. lia. Qed.

Lemma grows_set_cache k e : grows (set_cache k e : R W unit).
Proof. intros st. cbn. lia. Qed.

Lemma grows_get_state : grows (get_state : R W (rstate W)).
Proof. intros st. cbn. lia. Qed.

Lemma grows_rthrow {A} e : grows (rthrow e : R W A).
Proof. intros st. cbn. lia. Qed.

Lemma grows_getChild tv index : grows (getChild view_get tv index).
Proof.
  unfold getChild. destruct (get_local tv index); try apply grows_ret.
  intros st. destruct (view_get _ _). cbn. lia.
Qed.

Lemma grows_moustache_span m tv : grows (moustache_span eval m tv).
Proof.
  unfold moustache_span. apply grows_bind; [apply grows_run_eval|].
  intros res. destruct res; try apply grows_ret;
    destruct (negb _); try apply grows_ret;
    (apply grows_bind; [apply grows_warn|intros; apply grows_ret]).
Qed.

Lemma grows_replace_pieces ps tv : grows (replace_pieces eval ps tv).
Proof.
  induction ps as [|[c|m] ps IH]; cbn [replace_pieces].
  - apply grows_ret.
  - apply grows_bind; [exact IH|intros; apply grows_ret].
  - apply grows_bind; [apply grows_moustache_span|]. intros r.
    apply grows_bind; [exact IH|intros; apply grows_ret].
Qed.

Lemma grows_parseMoustache str tv : grows (parseMoustache eval str tv).
Proof. apply grows_replace_pieces. Qed.

Ltac grows_step :=
  first
    [ apply grows_ret
    | apply grows_run_eval
    | apply grows_warn
    | apply grows_createElement
    | apply grows_set_cache
    | apply grows_get_state
    | apply grows_rthrow
    | apply grows_getChild
    | apply grows_parseMoustache
    | apply grows_bind; [|intros]
    | lazymatch goal with
      | |- ?g (if ?c then _ else _) => destruct c
      | |- ?g (match ?x with _ => _ end) => destruct x
      | |- ?g (let _ := _ in _) => cbv zeta
      end ].

Lemma grows_clone_attr orig tv a val b :
  grows (clone_attr eval view_get abstract_eq orig tv a val b).
Proof.
  unfold clone_attr, clone_v_model, clone_v_on, clone_v_bind.
  repeat grows_step.
Qed.

Lemma grows_clone_attrs orig tv attrs : forall b,
  grows (clone_attrs eval view_get abstract_eq orig tv attrs b).
Proof.
  induction attrs as [|[a val] attrs IH]; intros b; cbn [clone_attrs].
  - apply grows_ret.
  - apply grows_bind; [apply grows_clone_attr|intros; apply IH].
Qed.

Lemma grows_appendClone_with (clone : locals -> R W node) into tv hide :
  (forall tv, grows (clone tv)) ->
  grows (appendClone_with style_display_none clone into tv hide).
Proof.
  intros Hc. unfold appendClone_with.
  apply grows_bind; [apply Hc|intros; apply grows_ret].
Qed.

Lemma grows_render_entries (clone : locals -> R W node) loopfor loopvar
  indexvar countvar hide tv es :
  (forall tv, grows (clone tv)) ->
  forall index into,
    grows (render_entries style_display_none clone loopfor loopvar indexvar
             countvar hide tv es index into).
Proof.
  intros Hc. induction es as [|[i x] es IH]; intros index into;
    cbn [render_entries].
  - apply grows_ret.
  - cbv zeta. apply grows_bind; [now apply grows_appendClone_with|].
    intros [into' elm]. apply grows_bind; [apply grows_get_state|].
    intros st0. apply grows_bind; [|intros; apply IH].
    destruct (loopcache st0 !! loopfor); [apply grows_set_cache|apply grows_rthrow].
Qed.

Lemma grows_render_afresh (clone : locals -> R W node) loopfor hide tv into
  data :
  (forall tv, grows (clone tv)) ->
  grows (render_afresh style_display_none clone loopfor hide tv into data).
Proof.
  intros Hc. unfold render_afresh.
  destruct (loop_names loopfor) as [[loopvar indexvar] countvar].
  apply grows_bind; [apply grows_set_cache|].
  intros. now apply grows_render_entries.
Qed.

Lemma grows_render_for (clone : locals -> R W node) loopfor hide tv into :
  (forall tv, grows (clone tv)) ->
  grows (render_for eval style_display_none clone loopfor hide tv into).
Proof.
  intros Hc. unfold render_for, render_collection.
  destruct (nth_error _ 1); [|apply grows_rthrow].
  apply grows_bind; [apply grows_run_eval|]. intros data.
  apply grows_bind; [apply grows_get_state|]. intros st0.
  destruct (loopcache st0 !! loopfor) as [cache|].
  - destruct (String.eqb _ _); [apply grows_ret|].
    now apply grows_render_afresh.
  - now apply grows_render_afresh.
Qed.

Lemma grows_renderTemplate_with (clone : locals -> R W node) orig into tv :
  (forall tv, grows (clone tv)) ->
  grows (renderTemplate_with eval style_display_none clone orig into tv).
Proof.
  intros Hc. unfold renderTemplate_with. destruct orig as [u t a v l kids|d|d].
  - apply grows_bind; [repeat grows_step|]. intros shown.
    destruct (negb shown); [apply grows_ret|].
    apply grows_bind; [repeat grows_step|]. intros hide.
    destruct (attr_truthy _).
    + now apply grows_render_for.
    + apply grows_bind; [now apply grows_appendClone_with|].
      intros [into' elm]. apply grows_ret.
  - repeat grows_step.
  - apply grows_ret.
Qed.

Lemma grows_cloneElement orig : forall tv, grows (cloneE orig tv).
Proof.
  induction orig as [u t a v l kids IH|d|d] using node_nested_ind; intros tv;
    cbn [cloneElement].
  - apply grows_bind; [apply grows_createElement|]. intros nw.
    apply grows_bind; [apply grows_clone_attrs|]. intros b. cbv zeta.
    destruct (jtruthy (b_innerhtml _)); [apply grows_ret|].
    apply grows_bind.
    + generalize (@nil node). induction IH as [|k kids Hk _ IHk]; intros into.
      * apply grows_ret.
      * apply grows_bind; [now apply grows_renderTemplate_with|]. intros into'.
        apply IHk.
    + intros rendered. repeat grows_step.
  - repeat grows_step.
  - repeat grows_step.
Qed.

Lemma grows_render_kids (kids : list node) tv : forall into,
  grows ((fix go (ks : list node) (into : list node) : R W (list node) :=
            match ks with
            | [] => mret into
            | k :: ks' =>
                into' ← renderTemplate_with eval style_display_none
                           (cloneE k) k into tv;
                go ks' into'
            end) kids into).
Proof.
  induction kids as [|k kids IH]; intros into.
  - apply grows_ret.
  - apply grows_bind; [|intros; apply IH].
    apply grows_renderTemplate_with. apply grows_cloneElement.
Qed.

(** The clone of an element is a new element: it gets the identity that was
    next when the cloning began. *)
Lemma cloneElement_fresh u t a v l kids tv :
  ensures (cloneE (Element u t a v l kids) tv)
    (fun st nw st' => uid_of nw = Some (doc st) /\ (doc st < doc st')%nat).
Proof.
  intros st nw st' H. cbn [cloneElement] in H. rewrite rbind_at in H.
  unfold createElement at 1 in H. cbv beta iota in H.
  match type of H with
  | ?m ?s = _ =>
      assert (Hg : grows m);
      [| assert (Hu : ensures m (fun _ n _ => uid_of n = Some (doc st)));
         [| split; [exact (Hu _ _ _ H)|];
            specialize (Hg s); rewrite H in Hg; cbn in Hg; lia ] ]
  end.
  - apply grows_bind; [apply grows_clone_attrs|]. intros b. cbv zeta.
    destruct (jtruthy (b_innerhtml _)); [apply grows_ret|].
    apply grows_bind; [apply grows_render_kids|].
    intros rendered. repeat grows_step.
  - apply ensures_bind_result. intros b. cbv zeta.
    destruct (jtruthy (b_innerhtml _)); [now apply ensures_ret|].
    apply ensures_bind_result. intros rendered.
    apply ensures_bind_result. intros children. now apply ensures_ret.
Qed.

Lemma clones_afresh_cloneElement orig :
  is_element orig = true -> clones_afresh (cloneE orig).
Proof.
  intros He. split.
  - apply grows_cloneElement.
  - destruct orig as [u t a v l kids|d|d]; try discriminate He.
    intros tv. apply cloneElement_fresh.
Qed.

Lemma made_between_widen lo lo' hi hi' n :
  (lo' <= lo)%nat -> (hi <= hi')%nat ->
  made_between lo hi n -> made_between lo' hi' n.
Proof. intros H1 H2 (u & Hu & Hb). exists u. split; [exact Hu|lia]. Qed.

Lemma uid_with_attrs n a : uid_of (with_attrs n a) = uid_of n.
Proof. now destruct n. Qed.

(** The loop over the entries clones each entry afresh. *)
Lemma render_entries_fresh (clone : locals -> R W node) loopfor loopvar
  indexvar countvar hide tv es :
  clones_afresh clone ->
  forall index into st out st',
    render_entries style_display_none clone loopfor loopvar indexvar countvar
      hide tv es index into st = (Ok out, st') ->
    (doc st <= doc st')%nat /\
    exists news,
      out = into ++ news /\ List.length news = List.length es /\
      Forall (made_between (doc st) (doc st')) news.
Proof.
  intros [Hg Hf]. induction es as [|[i x] es IH]; intros index into st out st';
    cbn [render_entries].
  - intros [= <- <-]. split; [lia|]. exists []. now rewrite app_nil_r.
  - cbv zeta. rewrite rbind_at. unfold appendClone_with at 1.
    rewrite rbind_at.
    match goal with
    | |- context [clone ?tv3 st] =>
        pose proof (Hf tv3 st) as Hc; destruct (clone tv3 st) as [[nw|e|] st1]
    end; try discriminate.
    destruct (Hc nw st1 eq_refl) as [Hu Hd]. clear Hc.
    rewrite rret_at, rbind_at. unfold get_state at 1. cbv beta iota.
    rewrite rbind_at.
    destruct (loopcache st1 !! loopfor) as [e|]; [|discriminate].
    unfold set_cache at 1. cbv beta iota. intros H.
    apply IH in H as [Hle (news & -> & Hlen & Hall)]. cbn [doc] in *.
    split; [lia|].
    match goal with
    | |- context [(into ++ [?elm]) ++ news] =>
        exists (elm :: news); split; [now rewrite <- List.app_assoc|];
        split; [cbn; lia|]; constructor
    end.
    + destruct hide.
      * exists (doc st). rewrite uid_with_attrs. split; [exact Hu|lia].
      * exists (doc st). split; [exact Hu|lia].
    + eapply List.Forall_impl; [|exact Hall]. intros n.
      apply made_between_widen; lia.
Qed.

(** *** The cache entry of a loop site *)

Lemma keeps_ret {A} key (a : A) : keeps key (mret a : R W A).
Proof. intros st. reflexivity. Qed.

Lemma keeps_bind {A B} key (m : R W A) (f : A -> R W B) :
  keeps key m -> (forall a, keeps key (f a)) -> keeps key (m ≫= f).
Proof.
  intros Hm Hf st. rewrite rbind_at. specialize (Hm st).
  destruct (m st) as [[a|e|] st1]; cbn [snd] in *; try assumption.
  now rewrite Hf.
Qed.

Lemma keeps_run_eval key e tv nr : keeps key (run_eval eval e tv nr).
Proof.
  intros st. unfold run_eval. now destruct (eval _ _ _ _) as [[v ws] w].
Qed.

Lemma keeps_warn key s : keeps key (warn s : R W unit).
Proof. intros st. reflexivity. Qed.

Lemma keeps_createElement key t : keeps key (createElement t : R W node).
Proof. intros st. reflexivity. Qed.

Lemma keeps_get_state key : keeps key (get_state : R W (rstate W)).
Proof. intros st. reflexivity. Qed.

Lemma keeps_rthrow {A} key e : keeps key (rthrow e : R W A).
Proof. intros st. reflexivity. Qed.

Lemma keeps_set_cache key k e :
  k <> key -> keeps key (set_cache k e : R W unit).
Proof. intros H st. cbn. now rewrite lookup_insert_ne. Qed.

Lemma keeps_getChild key tv index : keeps key (getChild view_get tv index).
Proof.
  unfold getChild. destruct (get_local tv index); try apply keeps_ret.
  intros st. now destruct (view_get _ _).
Qed.

Lemma keeps_moustache_span key m tv : keeps key (moustache_span eval m tv).
Proof.
  unfold moustache_span. apply keeps_bind; [apply keeps_run_eval|].
  intros res. destruct res; try apply keeps_ret;
    destruct (negb _); try apply keeps_ret;
    (apply keeps_bind; [apply keeps_warn|intros; apply keeps_ret]).
Qed.

Lemma keeps_parseMoustache key str tv : keeps key (parseMoustache eval str tv).
Proof.
  unfold parseMoustache. induction (pieces str) as [|[c|m] ps IH];
    cbn [replace_pieces].
  - apply keeps_ret.
  - apply keeps_bind; [exact IH|intros; apply keeps_ret].
  - apply keeps_bind; [apply keeps_moustache_span|]. intros r.
    apply keeps_bind; [exact IH|intros; apply keeps_ret].
Qed.

Ltac keeps_step :=
  first
    [ apply keeps_ret
    | apply keeps_run_eval
    | apply keeps_warn
    | apply keeps_createElement
    | apply keeps_get_state
    | apply keeps_rthrow
    | apply keeps_getChild
    | apply keeps_parseMoustache
    | apply keeps_bind; [|intros]
    | lazymatch goal with
      | |- ?g (if ?c then _ else _) => destruct c
      | |- ?g (match ?x with _ => _ end) => destruct x
      | |- ?g (let _ := _ in _) => cbv zeta
      end ].

Lemma keeps_clone_attrs key orig tv attrs : forall b,
  keeps key (clone_attrs eval view_get abstract_eq orig tv attrs b).
Proof.
  induction attrs as [|[a val] attrs IH]; intros b; cbn [clone_attrs].
  - apply keeps_ret.
  - apply keeps_bind; [|intros; apply IH].
    unfold clone_attr, clone_v_model, clone_v_on, clone_v_bind.
    repeat keeps_step.
Qed.

Lemma keeps_appendClone_with key (clone : locals -> R W node) into tv hide :
  (forall tv, keeps key (clone tv)) ->
  keeps key (appendClone_with style_display_none clone into tv hide).
Proof.
  intros Hc. unfold appendClone_with.
  apply keeps_bind; [apply Hc|intros; apply keeps_ret].
Qed.

Lemma keeps_render_entries key (clone : locals -> R W node) loopfor loopvar
  indexvar countvar hide tv es :
  loopfor <> key ->
  (forall tv, keeps key (clone tv)) ->
  forall index into,
    keeps key (render_entries style_display_none clone loopfor loopvar
                 indexvar countvar hide tv es index into).
Proof.
  intros Hne Hc. induction es as [|[i x] es IH]; intros index into;
    cbn [render_entries].
  - apply keeps_ret.
  - cbv zeta. apply keeps_bind; [now apply keeps_appendClone_with|].
    intros [into' elm]. apply keeps_bind; [apply keeps_get_state|].
    intros st0. apply keeps_bind; [|intros; apply IH].
    destruct (loopcache st0 !! loopfor);
      [now apply keeps_set_cache|apply keeps_rthrow].
Qed.

Lemma keeps_render_for key (clone : locals -> R W node) loopfor hide tv into :
  loopfor <> key ->
  (forall tv, keeps key (clone tv)) ->
  keeps key (render_for eval style_display_none clone loopfor hide tv into).
Proof.
  intros Hne Hc. unfold render_for, render_collection, render_afresh.
  destruct (nth_error _ 1); [|apply keeps_rthrow].
  destruct (loop_names loopfor) as [[loopvar indexvar] countvar].
  apply keeps_bind; [apply keeps_run_eval|]. intros data.
  apply keeps_bind; [apply keeps_get_state|]. intros st0.
  destruct (loopcache st0 !! loopfor) as [cache|].
  - destruct (String.eqb _ _); [apply keeps_ret|].
    apply keeps_bind; [now apply keeps_set_cache|].
    intros. now apply keeps_render_entries.
  - apply keeps_bind; [now apply keeps_set_cache|].
    intros. now apply keeps_render_entries.
Qed.

Lemma opt_string_eqb_false_neq a b : opt_string_eqb a b = false -> a <> b.
Proof. intros H ->. now rewrite opt_string_eqb_refl in H. Qed.

Lemma keeps_renderTemplate_with key (clone : locals -> R W node) orig into tv :
  opt_string_eqb (getAttribute orig "v-for") (Some key) = false ->
  (forall tv, keeps key (clone tv)) ->
  keeps key (renderTemplate_with eval style_display_none clone orig into tv).
Proof.
  intros Hk Hc. unfold renderTemplate_with.
  destruct orig as [u t a v l kids|d|d].
  - apply keeps_bind; [repeat keeps_step|]. intros shown.
    destruct (negb shown); [apply keeps_ret|].
    apply keeps_bind; [repeat keeps_step|]. intros hide.
    destruct (getAttribute (Element u t a v l kids) "v-for") as [lf|] eqn:F.
    + destruct (attr_truthy (Some lf)).
      * cbn [from_option]. unfold id. apply keeps_render_for; [|exact Hc].
        apply opt_string_eqb_false_neq in Hk. congruence.
      * apply keeps_bind; [now apply keeps_appendClone_with|].
        intros [into' elm]. apply keeps_ret.
    + cbn [attr_truthy].
      apply keeps_bind; [now apply keeps_appendClone_with|].
      intros [into' elm]. apply keeps_ret.
  - repeat keeps_step.
  - apply keeps_ret.
Qed.

Lemma loops_on_false key u t a v l kids :
  loops_on key (Element u t a v l kids) = false ->
  opt_string_eqb (getAttr "v-for" a) (Some key) = false /\
  existsb (loops_on key) kids = false.
Proof. cbn [loops_on]. apply orb_false_elim. Qed.

(** Cloning an element that has no loop site with the text [key] inside
    leaves the cache entry of [key] alone. *)
Lemma keeps_cloneElement key orig :
  inner_free key orig = true -> forall tv, keeps key (cloneE orig tv).
Proof.
  induction orig as [u t a v l kids IH|d|d] using node_nested_ind;
    intros Hfree tv; cbn [cloneElement].
  - apply keeps_bind; [apply keeps_createElement|]. intros nw.
    apply keeps_bind; [apply keeps_clone_attrs|]. intros b. cbv zeta.
    destruct (jtruthy (b_innerhtml _)); [apply keeps_ret|].
    apply keeps_bind.
    + unfold inner_free in Hfree. cbn [childNodes_of] in Hfree.
      apply negb_true_iff in Hfree.
      generalize (@nil node).
      induction IH as [|k kids Hk _ IHk]; intros into.
      * apply keeps_ret.
      * cbn [existsb] in Hfree. apply orb_false_elim in Hfree as [Hk1 Hk2].
        apply keeps_bind; [|intros into'; now apply IHk].
        destruct k as [u' t' a' v' l' kids'|d|d].
        -- apply loops_on_false in Hk1 as [Hfor Hin].
           apply keeps_renderTemplate_with; [exact Hfor|].
           apply Hk. unfold inner_free. cbn [childNodes_of]. now rewrite Hin.
        -- unfold renderTemplate_with. repeat keeps_step.
        -- apply keeps_ret.
    + intros rendered. repeat keeps_step.
  - repeat keeps_step.
  - repeat keeps_step.
Qed.

(** The loop gathers the roots it makes in the cache entry of its site. *)
Lemma render_entries_cache (clone : locals -> R W node) loopfor loopvar
  indexvar countvar hide tv es :
  (forall tv, keeps loopfor (clone tv)) ->
  forall index into st out st' chk els,
    loopcache st !! loopfor = Some (MkEntry chk els) ->
    render_entries style_display_none clone loopfor loopvar indexvar countvar
      hide tv es index into st = (Ok out, st') ->
    exists news,
      out = into ++ news /\
      loopcache st' !! loopfor = Some (MkEntry chk (els ++ news)).
Proof.
  intros Hk. induction es as [|[i x] es IH];
    intros index into st out st' chk els Hc; cbn [render_entries].
  - intros [= <- <-]. exists []. now rewrite !app_nil_r.
  - cbv zeta. rewrite rbind_at. unfold appendClone_with at 1.
    rewrite rbind_at.
    match goal with
    | |- context [clone ?tv3 st] =>
        pose proof (Hk tv3 st) as Hc1;
        destruct (clone tv3 st) as [[nw|e|] st1]
    end; try discriminate.
    cbn [snd] in Hc1. rewrite Hc in Hc1.
    rewrite rret_at, rbind_at. unfold get_state at 1. cbv beta iota.
    rewrite rbind_at, Hc1. unfold set_cache at 1. cbv beta iota.
    cbn [datachk elements]. intros H.
    eapply IH in H; [|cbn [loopcache]; apply lookup_insert_eq].
    destruct H as (news & -> & Hfin).
    eexists (_ :: news). split; [now rewrite <- List.app_assoc|].
    rewrite Hfin. now rewrite <- List.app_assoc.
Qed.

(** *** C6: the loop cache *)

(** An element with a [v-for] attribute and neither [v-if] nor [v-show]
    goes straight to the loop. *)
Lemma renderTemplate_loop orig into tv loopfor :
  is_element orig = true ->
  getAttribute orig "v-if" = None ->
  getAttribute orig "v-show" = None ->
  getAttribute orig "v-for" = Some loopfor ->
  loopfor <> EmptyString ->
  renderT orig into tv
  = render_for eval style_display_none (cloneE orig) loopfor false tv into.
Proof.
  intros He Hif Hshow Hfor Hne. unfold renderTemplate, renderTemplate_with.
  destruct orig as [u t a v l kids|d|d]; try discriminate He.
  rewrite Hif, Hshow, Hfor, (attr_truthy_some _ Hne). reflexivity.
Qed.

Lemma filter_twice (f g : node -> bool) l :
  List.filter f (List.filter g l) = List.filter (fun x => g x && f x) l.
Proof.
  induction l as [|x l IH]; [reflexivity|]. cbn [List.filter].
  destruct (g x); cbn [List.filter andb]; [|exact IH].
  destruct (f x); now rewrite IH.
Qed.

Lemma filter_all (l : list node) : List.filter (fun _ => true) l = l.
Proof. induction l as [|x l IH]; [reflexivity|]. cbn. now rewrite IH. Qed.

(** Appending elements of which none occurs twice: those that had a place
    among the children leave it, and all of them end up behind the others,
    in their order. *)
Lemma appendChild_all els : forall into,
  apart els = true ->
  fold_left appendChild els into
  = List.filter (fun n => negb (existsb (same_node n) els)) into ++ els.
Proof.
  induction els as [|e es IH]; intros into H; cbn [fold_left].
  - cbn [existsb negb]. now rewrite filter_all, app_nil_r.
  - cbn [apart] in H. apply andb_prop in H as [He H].
    rewrite (IH _ H). unfold appendChild.
    rewrite List.filter_app, filter_twice. cbn [List.filter].
    rewrite He. rewrite <- !List.app_assoc. cbn [app]. f_equal.
    apply List.filter_ext. intros n. cbn [existsb]. now rewrite negb_orb.
Qed.


End RenderFacts.

(** *** The renderer on the example host *)

Lemma moustache_span_replacement_witness :
  Host.parseMoustache "n: {{obj}}!" [] (Host.start [("obj", JObj [])] 0)
  = (Ok "n: [Object]!",
     MkR [("obj", JObj [])] ∅
         ["[Vidi] got an object when evaluating {{obj}}"] 0).
Proof.
  destruct (moustache_span_replacement Host.eval Host.view_get
              Host.abstract_eq Host.parse_html Host.style_display_none
              "obj" [] (Host.start [("obj", JObj [])] 0) (JObj []) []
              [("obj", JObj [])] eq_refl eq_refl eq_refl) as (_ & _ & Hp & _).
  exact (Hp "n: " "!" eq_refl).
Defined.

(** C10.  A plain attribute whose value holds a span but does not begin
    with the opening braces is not scanned: [class="btn {{cls}}"] is copied
    as it is, span included. *)
Lemma attribute_span_left_alone :
  ~ Host.attribute_spans_replaced "btn {{cls}}" [("cls", JStr "x")].
Proof. unfold Host.attribute_spans_replaced. vm_compute. discriminate. Qed.

Example attribute_span_values :
  getAttribute (Host.rendered_link "btn {{cls}}" [("cls", JStr "x")]) "class"
  = Some "btn {{cls}}" /\
  getAttribute (Host.rendered_link "{{cls}} btn" [("cls", JStr "x")]) "class"
  = Some "x btn".
Proof. vm_compute. split; reflexivity. Qed.

(** The text of a leaf element is scanned twice, once as a text node and
    once as the text content of the element, so an object costs two
    diagnostics there. *)
Example leaf_text_scanned_twice :
  console (snd (Host.renderTemplate
                  (Element 0 "P" [] None [] [TextNode "{{obj}}"]) [] []
                  (Host.start [("obj", JObj [])] 0)))
  = ["[Vidi] got an object when evaluating {{obj}}";
     "[Vidi] got an object when evaluating {{obj}}"].
Proof. vm_compute. reflexivity. Qed.

Example scenario_A :
  fst (Host.renderTemplate
         (Element 0 "SPAN" [] None [] [TextNode "{{count}}"]) [] []
         (Host.start [("count", JNum 0)] 0))
  = Ok [Element 0 "SPAN" [] None [] [TextNode "0"]] /\
  fst (Host.renderTemplate
         (Element 0 "SPAN" [] None [] [TextNode "{{count}}"]) [] []
         (Host.start [("count", JNum 5)] 1))
  = Ok [Element 1 "SPAN" [] None [] [TextNode "5"]].
Proof. vm_compute. split; reflexivity. Qed.


Example conditional_loop_positions :
  Host.positions Host.guarded_loop
    [("flag", JBool false); ("items", JArr [JStr "a"; JStr "b"])] = Some 1%nat /\
  Host.positions Host.guarded_loop
    [("flag", JBool true); ("items", JArr [JStr "a"; JStr "b"])] = Some 2%nat.
Proof. vm_compute. split; reflexivity. Qed.



Example stale_loop_roots :
  Host.rerender [("items", JArr [JStr "Aa"])] [("items", JArr [JStr "BB"])]
  = (Ok [Element 0 "LI" [] None [] [TextNode "Aa"]],
     Ok [Element 0 "LI" [] None [] [TextNode "Aa"]]) /\
  Host.rerender [("items", JArr [JStr "Aa"])] [("items", JArr [JStr "Ab"])]
  = (Ok [Element 0 "LI" [] None [] [TextNode "Aa"]],
     Ok [Element 1 "LI" [] None [] [TextNode "Ab"]]).
Proof. vm_compute. split; reflexivity. Qed.

(** Two loop sites with the same text under one parent share one cache
    entry: the second finds the roots the first has just made and appends
    them again, which moves them, so the parent holds them once. *)
Example twin_sites_share_roots :
  fst (Host.cloneElement Host.twin_lists []
         (Host.start [("items", JArr [JStr "a"; JStr "b"])] 0))
  = Ok (Element 0 "UL" [] None []
          [Element 1 "LI" [] None [] [TextNode "a"];
           Element 2 "LI" [] None [] [TextNode "b"]]).
Proof. vm_compute. reflexivity. Qed.


(* ====================================================================== *)
(** ** Further properties of the scheduler                                *)
(* ====================================================================== *)

Lemma tally_app (p : event -> bool) (l l' : list event) :
  List.length (List.filter p (l ++ l'))
  = (List.length (List.filter p l) + List.length (List.filter p l'))%nat.
Proof. now rewrite List.filter_app, List.length_app. Qed.

Lemma events_emit e s : events (emit e s) = events s ++ [e].
Proof. reflexivity. Qed.

Ltac sched_crush :=
  unfold render_debt, creations, renders; cbn;
  rewrite ?tally_app; cbn; try lia.

Lemma setPath_snd path v s :
  snd (setPath path v s) = entered path v s \/
  exists h', snd (setPath path v s) = render (with_hp h' (entered path v s)).
Proof.
  rewrite setPath_unfold. cbv zeta.
  destruct (walk _ _ _); [|now left..].
  destruct (_ && _); [now left|].
  destruct (set_prop _ _ _ _); [right; eexists; reflexivity|now left].
Qed.

Lemma deletePath_snd path s :
  snd (deletePath path s) = emit (HErase path) s \/
  exists h', snd (deletePath path s)
             = render (with_hp h' (emit (HErase path) s)).
Proof.
  unfold deletePath.
  destruct (walk _ _ _); [right; eexists; reflexivity|now left..].
Qed.

Ltac next_char k :=
  destruct k as [|[[|] [|] [|] [|] [|] [|] [|] [|]] k]; try reflexivity.

Lemma getPath_snd path s : snd (getPath path s) = emit (HRead path) s.
Proof.
  unfold getPath. destruct path as [|k tl]; [reflexivity|].
  next_char k.
  all: next_char k.
  all: next_char k.
  all: next_char k.
  all: try next_char k.
  all: try next_char k.
  all: try next_char k.
  all: try next_char k.
  all: destruct tl; reflexivity.
Qed.

Ltac free_char k :=
  destruct k as [|[[|] [|] [|] [|] [|] [|] [|] [|]] k];
  try (intros _; reflexivity); try (intros H; discriminate H).

Lemma getPath_free path s :
  reserved path = false ->
  fst (getPath path s) = getPath_loop (hp s) (VRef (data s)) path.
Proof.
  unfold getPath, reserved. destruct path as [|k tl]; [reflexivity|].
  free_char k.
  all: free_char k.
  all: free_char k.
  all: free_char k.
  all: try free_char k.
  all: try free_char k.
  all: try free_char k.
  all: try free_char k.
  all: destruct tl; try (intros _; reflexivity); intros H; discriminate H.
Qed.

(** Once a view has rendered, a call of [render()] renders nothing by
    itself. *)
Lemma render_rendered s :
  renderedOnce s = true ->
  renderedOnce (render s) = true /\ renders (render s) = renders s.
Proof.
  destruct s as [h d e w ou oc rl ro rt nt ev]. cbn [renderedOnce].
  intros ->. destruct rl, ou, oc, rt; split; try reflexivity; sched_crush.
Qed.

Lemma render_created s :
  renderedOnce s = true -> creations (render s) = creations s.
Proof.
  destruct s as [h d e w ou oc rl ro rt nt ev]. cbn [renderedOnce].
  intros ->. destruct rl, ou, oc, rt; sched_crush.
Qed.

Lemma created_emit e s :
  is_create e = false -> creations (emit e s) = creations s.
Proof.
  intros E. unfold creations. rewrite events_emit, tally_app. cbn.
  rewrite E. cbn. lia.
Qed.

Lemma created_entered path v s :
  creations (entered path v s) = creations s.
Proof.
  unfold entered. destruct path as [|k [|]]; try now apply created_emit.
  destruct (bool_decide _); [|now apply created_emit].
  rewrite created_emit by reflexivity. now apply created_emit.
Qed.

Lemma timer_fires_created t s :
  renderedOnce s = true ->
  renderedOnce (timer_fires t s) = true /\
  creations (timer_fires t s) = creations s.
Proof.
  destruct s as [h d e w ou oc rl ro rt nt ev]. cbn [renderedOnce].
  intros ->. destruct rt as [t'|]; [|now split].
  unfold timer_fires. cbn [renderTimeout].
  destruct (Nat.eqb t t'); [|now split].
  split; [reflexivity|sched_crush].
Qed.

Lemma rendered_emit e s :
  is_dorender e = false ->
  renderedOnce (emit e s) = renderedOnce s /\ renders (emit e s) = renders s.
Proof.
  intros E. split; [reflexivity|].
  unfold renders. rewrite events_emit, tally_app. cbn. rewrite E. cbn. lia.
Qed.

Lemma rendered_entered path v s :
  renderedOnce (entered path v s) = renderedOnce s /\
  renders (entered path v s) = renders s.
Proof.
  unfold entered. destruct path as [|k [|]]; try now apply rendered_emit.
  destruct (bool_decide _); [|now apply rendered_emit].
  destruct (rendered_emit (Watch k v) (emit (HWrite [k] v) s) eq_refl) as [-> ->].
  now apply rendered_emit.
Qed.

Lemma rendered_with_hp h s :
  renderedOnce (with_hp h s) = renderedOnce s /\
  renders (with_hp h s) = renders s.
Proof. now destruct s. Qed.

Lemma step_rendered c s :
  is_timer c = false -> renderedOnce s = true ->
  renderedOnce (step c s) = true /\ renders (step c s) = renders s.
Proof.
  intros T Hs. destruct c as [| | |path v|path|path|t]; cbn [step];
    try discriminate T.
  - now apply render_rendered.
  - now destruct s.
  - unfold unlock. destruct (renderlock s); [|easy].
    destruct (render_rendered (with_renderlock false s)) as [G1 G2];
      [now destruct s|]. split; [exact G1|]. rewrite G2. now destruct s.
  - destruct (rendered_entered path v s) as [E1 E2].
    destruct (setPath_snd path v s) as [->|[h' ->]]; [now rewrite E1, E2|].
    destruct (rendered_with_hp h' (entered path v s)) as [F1 F2].
    destruct (render_rendered (with_hp h' (entered path v s))) as [G1 G2];
      [congruence|]. split; congruence.
  - destruct (rendered_emit (HErase path) s eq_refl) as [E1 E2].
    destruct (deletePath_snd path s) as [->|[h' ->]]; [now rewrite E1, E2|].
    destruct (rendered_with_hp h' (emit (HErase path) s)) as [F1 F2].
    destruct (render_rendered (with_hp h' (emit (HErase path) s))) as [G1 G2];
      [congruence|]. split; congruence.
  - rewrite getPath_snd.
    destruct (rendered_emit (HRead path) s eq_refl) as [-> ->]. easy.
Qed.

Lemma run_rendered cs : forall s,
  forallb (fun c => negb (is_timer c)) cs = true -> renderedOnce s = true ->
  renderedOnce (run cs s) = true /\ renders (run cs s) = renders s.
Proof.
  induction cs as [|c cs IH]; intros s F Hs; [easy|].
  cbn in F. apply andb_prop in F as [Fc F].
  apply negb_true_iff in Fc.
  destruct (step_rendered c s Fc Hs) as [H1 H2].
  change (run (c :: cs) s) with (run cs (step c s)).
  destruct (IH _ F H1) as [-> ->]. easy.
Qed.

Lemma timer_fires_rendered t s :
  renderedOnce s = true ->
  renderedOnce (timer_fires t s) = true /\
  (render_debt (timer_fires t s) <= render_debt s)%nat.
Proof.
  destruct s as [h d e w ou oc rl ro rt nt ev]. cbn [renderedOnce].
  intros ->. destruct rt as [t'|]; [|split; [reflexivity|cbn; lia]].
  unfold timer_fires. cbn [renderTimeout].
  destruct (Nat.eqb t t'); [|split; [reflexivity|lia]].
  split; [reflexivity|sched_crush].
Qed.

Lemma timers_rendered ts : forall s,
  renderedOnce s = true ->
  (render_debt (run (map TimerFires ts) s) <= render_debt s)%nat.
Proof.
  induction ts as [|t ts IH]; intros s Hs; [reflexivity|].
  change (run (map TimerFires (t :: ts)) s)
    with (run (map TimerFires ts) (timer_fires t s)).
  destruct (timer_fires_rendered t s Hs) as [H1 H2].
  etransitivity; [apply IH, H1|exact H2].
Qed.

Lemma step_created c s :
  renderedOnce s = true ->
  renderedOnce (step c s) = true /\ creations (step c s) = creations s.
Proof.
  intros Hs. destruct (is_timer c) eqn:T.
  - destruct c; try discriminate T. now apply timer_fires_created.
  - split; [now apply step_rendered|].
    destruct c as [| | |path v|path|path|t]; cbn [step]; try discriminate T.
    + now apply render_created.
    + now destruct s.
    + unfold unlock. destruct (renderlock s); [|reflexivity].
      rewrite render_created by now destruct s. now destruct s.
    + destruct (setPath_snd path v s) as [->|[h' ->]];
        [apply created_entered|].
      destruct (rendered_entered path v s) as [E _].
      destruct (rendered_with_hp h' (entered path v s)) as [F _].
      rewrite render_created by congruence.
      rewrite <- (created_entered path v s). now destruct (entered path v s).
    + destruct (deletePath_snd path s) as [->|[h' ->]];
        [now apply created_emit|].
      rewrite render_created by (now destruct s).
      now rewrite <- (created_emit (HErase path) s).
    + rewrite getPath_snd. now apply created_emit.
Qed.

(** X1.  Once a view has rendered, [self.$oncreate] never runs again:
    whatever is called on the view, in whatever order, and whichever timers
    fire, [renderedOnce] stays set and the creation hook is not invoked. *)
Theorem creation_hook_runs_no_more (cs : list call) (s : view) :
  renderedOnce s = true ->
  renderedOnce (run cs s) = true /\ creations (run cs s) = creations s.
Proof.
  revert s. induction cs as [|c cs IH]; intros s Hs; [now split|].
  change (run (c :: cs) s) with (run cs (step c s)).
  destruct (step_created c s Hs) as [H1 H2].
  destruct (IH _ H1) as [H3 H4]. split; [exact H3|congruence].
Qed.

Lemma creation_hook_runs_no_more_witness :
  let s := MkView Scenario.heapN 1%positive VNull [] true true false true
             None 1%nat [] in
  let cs := [CallSetPath ["n"] (VNum 1); TimerFires 1; CallLock;
             CallDeletePath ["x"]; CallUnlock; TimerFires 2] in
  creations (run cs s) = creations s.
Proof.
  apply (creation_hook_runs_no_more
           [CallSetPath ["n"] (VNum 1); TimerFires 1; CallLock;
            CallDeletePath ["x"]; CallUnlock; TimerFires 2]
           (MkView Scenario.heapN 1%positive VNull [] true true false true
              None 1%nat [])).
  reflexivity.
Defined.



(* ====================================================================== *)
(** ** Further properties of the handler: what a read sees                *)
(* ====================================================================== *)

Lemma strict_eq_true a b : strict_eq a b = true -> a = b.
Proof.
  destruct a, b; cbn; try discriminate; try reflexivity; intros E.
  - now apply Bool.eqb_prop in E as ->.
  - now apply Z.eqb_eq in E as ->.
  - now apply String.eqb_eq in E as ->.
  - now apply Pos.eqb_eq in E as ->.
Qed.

Lemma typeof_object_ref h x :
  String.eqb (typeof h x) "object" = true -> nullish x = false ->
  exists l, x = VRef l.
Proof. destruct x; cbn; try discriminate; eauto. Qed.

(** Along a route the read of [getPath] arrives where the walk of
    [setPath] arrives. *)
Lemma getPath_loop_route h l k pre : forall obj,
  walk h obj pre = Ok (VRef l) ->
  route_ok h l obj pre = true ->
  getPath_loop h obj (pre ++ [k]) = get_prop h (VRef l) k.
Proof.
  induction pre as [|k0 pre IH]; intros obj Hw Hr.
  - cbn [walk] in Hw. injection Hw as ->. cbn [route_ok] in Hr.
    rewrite andb_true_r in Hr.
    cbn [app getPath_loop]. rewrite Hr. cbn [negb].
    now destruct (negb (truthy _)).
  - cbn [walk] in Hw. cbn [route_ok] in Hr.
    apply andb_prop in Hr as [Ht Hr]. apply andb_prop in Hr as [_ Hr].
    destruct (nullish (get_prop h obj k0)) eqn:N; [discriminate|].
    cbn [app getPath_loop]. rewrite Ht. cbn [negb].
    assert (T : String.eqb (typeof h (get_prop h obj k0)) "object" = true).
    { destruct pre; cbn [route_ok] in Hr; now apply andb_prop in Hr as [? _]. }
    destruct (typeof_object_ref _ _ T N) as [l0 E]. rewrite E in *.
    cbn [truthy negb]. now apply IH.
Qed.

Lemma typeof_store (h : heap) l ps x :
  typeof (<[l := Obj (okind_of (obj_at h l)) ps]> h) x = typeof h x.
Proof.
  destruct x as [| | | | | |l0]; try reflexivity. cbn.
  destruct (decide (l = l0)) as [->|Ne].
  - now rewrite obj_at_insert_eq.
  - now rewrite obj_at_insert_ne.
Qed.

Lemma get_prop_store_other (h : heap) l o x k :
  strict_eq x (VRef l) = false ->
  get_prop (<[l := o]> h) x k = get_prop h x k.
Proof.
  destruct x as [| | | | | |l0]; try reflexivity. cbn. intros E.
  apply Pos.eqb_neq in E. now rewrite obj_at_insert_ne.
Qed.

(** A store into the object a route ends in leaves the route as it is. *)
Lemma route_store (h : heap) l ps pre : forall obj,
  walk h obj pre = Ok (VRef l) ->
  route_ok h l obj pre = true ->
  let h' := <[l := Obj (okind_of (obj_at h l)) ps]> h in
  walk h' obj pre = Ok (VRef l) /\ route_ok h' l obj pre = true.
Proof.
  induction pre as [|k0 pre IH]; intros obj Hw Hr h'.
  - cbn [walk route_ok] in *. split; [exact Hw|]. unfold h'.
    now rewrite typeof_store.
  - cbn [walk] in Hw. cbn [route_ok] in Hr.
    apply andb_prop in Hr as [Ht Hr]. apply andb_prop in Hr as [Hd Hr].
    apply negb_true_iff in Hd.
    destruct (nullish (get_prop h obj k0)) eqn:N; [discriminate|].
    destruct (IH _ Hw Hr) as [IH1 IH2].
    cbn [walk route_ok]. unfold h'.
    rewrite typeof_store, Ht, Hd, (get_prop_store_other _ _ _ _ _ Hd), N.
    cbn [negb andb]. now split.
Qed.

Lemma removelast_snoc {A} (l : list A) x : removelast (l ++ [x]) = l.
Proof. now rewrite removelast_app, app_nil_r. Qed.

Lemma last_key_snoc pre k : last_key (pre ++ [k]) = k.
Proof. unfold last_key. now rewrite last_last. Qed.

Lemma render_data s : data (render s) = data s.
Proof.
  destruct s as [h d e w ou oc rl ro rt nt ev].
  now destruct rl, ro, ou, oc, rt.
Qed.

Lemma assoc_get_del_eq k ps :
  NoDup (map fst ps) -> assoc_get k (assoc_del k ps) = VUndef.
Proof.
  induction ps as [|[k' x] ps IH]; [reflexivity|].
  cbn [map fst]. intros ND. apply NoDup_cons in ND as [Nin ND].
  cbn [assoc_del]. destruct (String.eqb k k') eqn:E.
  - apply String.eqb_eq in E as ->.
    clear IH ND. induction ps as [|[k2 x2] ps IH2]; [reflexivity|].
    cbn [assoc_get]. destruct (String.eqb k' k2) eqn:E2.
    + apply String.eqb_eq in E2 as ->. exfalso. apply Nin. cbn [map fst].
      apply elem_of_cons. now left.
    + apply IH2. intros ?. apply Nin. cbn [map fst].
      apply elem_of_cons. now right.
  - cbn [assoc_get]. rewrite E. now apply IH.
Qed.

(** X3.  On a view that has rendered, a write that raises has changed
    neither the model nor the scheduler: it has called no watcher and asked
    for no render; all it leaves is its own entry in the trace.  (The
    segments before the last run through plain objects, under names that
    [Object.prototype] does not define.) *)
Theorem failed_write_changes_nothing (path : list string) (v : value) (s : view) :
  renderedOnce s = true ->
  own_route (hp s) (VRef (data s)) (removelast path) = true ->
  fst (setPath path v s) <> Ok true ->
  hp (snd (setPath path v s)) = hp s /\
  scheduler (snd (setPath path v s)) = scheduler s /\
  events (snd (setPath path v s)) = events s ++ [HWrite path v].
Proof.
  intros _ _ F.
  assert (E : snd (setPath path v s) = entered path v s).
  { revert F. rewrite setPath_unfold. cbv zeta.
    destruct (walk _ _ _); [|reflexivity..].
    destruct (_ && _); [now intros []|].
    destruct (set_prop _ _ _ _); [now intros []|reflexivity]. }
  rewrite E, entered_hp, entered_scheduler, entered_events.
  repeat split. f_equal. f_equal.
  destruct path as [|k [|k' rest]]; try reflexivity.
  exfalso. apply F. rewrite setPath_unfold. cbv zeta. cbn [removelast walk].
  destruct (_ && _); [reflexivity|]. reflexivity.
Qed.

Lemma failed_write_changes_nothing_witness :
  let s := vw Scenario.worldM in
  hp (snd (setPath ["a"; "b"; "x"] (VNum 1) s)) = hp s /\
  scheduler (snd (setPath ["a"; "b"; "x"] (VNum 1) s)) = scheduler s /\
  events (snd (setPath ["a"; "b"; "x"] (VNum 1) s))
  = events s ++ [HWrite ["a"; "b"; "x"] (VNum 1)].
Proof.
  apply (failed_write_changes_nothing ["a"; "b"; "x"] (VNum 1)
           (vw Scenario.worldM)); [reflexivity|reflexivity|].
  vm_compute. discriminate.
Defined.

(** What [setPath] leaves in the model at the end of a route of plain
    objects: the loop of [getPath] finds the value there. *)
Lemma setPath_stores pre k v s l :
  walk (hp s) (VRef (data s)) pre = Ok (VRef l) ->
  route_ok (hp s) l (VRef (data s)) pre = true ->
  let s' := snd (setPath (pre ++ [k]) v s) in
  fst (setPath (pre ++ [k]) v s) = Ok true /\
  getPath_loop (hp s') (VRef (data s')) (pre ++ [k]) = v.
Proof.
  intros Hw Hr. cbv zeta.
  rewrite setPath_unfold. cbv zeta.
  rewrite removelast_snoc, last_key_snoc, entered_hp, entered_data, Hw.
  destruct (_ && _) eqn:Same.
  - cbn [fst snd]. split; [reflexivity|].
    rewrite entered_hp, entered_data.
    rewrite (getPath_loop_route _ _ _ _ _ Hw Hr).
    apply andb_prop in Same as [_ Same]. now apply strict_eq_true.
  - cbn [set_prop fst snd]. split; [reflexivity|].
    rewrite render_hp, render_data. cbn [hp data with_hp].
    rewrite entered_data.
    destruct (route_store (hp s) l
                (assoc_set k v (oprops (obj_at (hp s) l))) pre _ Hw Hr)
      as [Hw' Hr'].
    rewrite (getPath_loop_route _ _ _ _ _ Hw' Hr').
    cbn [get_prop]. rewrite obj_at_insert_eq. cbn [oprops].
    apply assoc_get_set_eq.
Qed.

(** X4.  On a view that has rendered, a write through a route of plain
    objects, under names that [Object.prototype] does not define, is seen by
    the next read of the same path: [setPath] succeeds and [getPath] then
    gives the value written, whatever it is. *)
Theorem write_then_read
  (pre : list string) (k : string) (v : value) (s : view) (l : loc) :
  renderedOnce s = true ->
  walk (hp s) (VRef (data s)) pre = Ok (VRef l) ->
  route_ok (hp s) l (VRef (data s)) pre = true ->
  own_route (hp s) (VRef (data s)) (pre ++ [k]) = true ->
  reserved (pre ++ [k]) = false ->
  let r := setPath (pre ++ [k]) v s in
  fst r = Ok true /\ fst (getPath (pre ++ [k]) (snd r)) = v.
Proof.
  intros _ Hw Hr _ Hres r. unfold r.
  destruct (setPath_stores pre k v s l Hw Hr) as [Done Stored].
  split; [exact Done|].
  rewrite (getPath_free _ _ Hres). exact Stored.
Qed.

Lemma write_then_read_witness :
  let r := setPath ["obj"; "sub"] (VNum 7)
             (Scenario.idle Scenario.heapD []) in
  fst r = Ok true /\ fst (getPath ["obj"; "sub"] (snd r)) = VNum 7.
Proof.
  apply (write_then_read ["obj"] "sub" (VNum 7)
           (Scenario.idle Scenario.heapD []) 2%positive); reflexivity.
Defined.

(** X5.  On a view that has rendered, after [deletePath] has erased a key
    through a route of plain objects, under names that [Object.prototype]
    does not define, a read of the same path gives [undefined]. *)
Theorem erase_then_read
  (pre : list string) (k : string) (s : view) (l : loc) :
  renderedOnce s = true ->
  walk (hp s) (VRef (data s)) pre = Ok (VRef l) ->
  route_ok (hp s) l (VRef (data s)) pre = true ->
  own_route (hp s) (VRef (data s)) (pre ++ [k]) = true ->
  keys_unique (hp s) l ->
  reserved (pre ++ [k]) = false ->
  let r := deletePath (pre ++ [k]) s in
  fst r = Ok true /\ fst (getPath (pre ++ [k]) (snd r)) = VUndef.
Proof.
  intros _ Hw Hr _ Hu Hres r. unfold r.
  rewrite (getPath_free _ _ Hres).
  unfold deletePath.
  rewrite removelast_snoc, last_key_snoc.
  change (hp (emit (HErase (pre ++ [k])) s)) with (hp s).
  change (data (emit (HErase (pre ++ [k])) s)) with (data s).
  rewrite Hw. cbn [fst snd del_prop]. split; [reflexivity|].
  rewrite render_hp, render_data. cbn [hp data with_hp].
  change (data (emit (HErase (pre ++ [k])) s)) with (data s).
  destruct (route_store (hp s) l
              (assoc_del k (oprops (obj_at (hp s) l))) pre _ Hw Hr)
    as [Hw' Hr'].
  rewrite (getPath_loop_route _ _ _ _ _ Hw' Hr').
  cbn [get_prop]. rewrite obj_at_insert_eq. cbn [oprops].
  now apply assoc_get_del_eq.
Qed.

Lemma erase_then_read_witness :
  let r := deletePath ["a"; "b"] (Scenario.idle Scenario.heapM []) in
  fst r = Ok true /\ fst (getPath ["a"; "b"] (snd r)) = VUndef.
Proof.
  apply (erase_then_read ["a"] "b" (Scenario.idle Scenario.heapM [])
           2%positive); try reflexivity.
  unfold keys_unique. vm_compute. apply NoDup_singleton.
Defined.

Lemma getPath_loop_missing h k post pre : forall obj o,
  follow h obj pre = Some o ->
  nullish (get_prop h o k) = true ->
  truthy (getPath_loop h obj (pre ++ k :: post)) = false.
Proof.
  assert (F : forall x, nullish x = true -> truthy x = false)
    by (now intros []).
  induction pre as [|k0 pre IH]; intros obj o Hf Hn.
  - cbn [follow] in Hf. injection Hf as ->. cbn [app getPath_loop].
    destruct (negb (String.eqb _ _)); [reflexivity|].
    rewrite (F _ Hn). cbn [negb]. now apply F.
  - cbn [follow] in Hf. cbn [app getPath_loop].
    destruct (negb (String.eqb _ _)); [reflexivity|].
    destruct (nullish (get_prop h obj k0)); [discriminate|].
    destruct (truthy (get_prop h obj k0)) eqn:T; cbn [negb]; [|exact T].
    now apply (IH _ o).
Qed.

(** X6.  Where a write raises, a read gives way: the read of a path that goes
    through a missing segment raises nothing and gives a falsy value.  (The
    segments before the missing one run through plain objects, and neither
    they nor the missing one are names that [Object.prototype] defines.) *)
Theorem read_through_missing_segment
  (path : list string) (k : string) (s : view) :
  missing_intermediate (hp s) (VRef (data s)) path k ->
  own_route (hp s) (VRef (data s)) path = true ->
  reserved path = false ->
  truthy (fst (getPath path s)) = false /\
  snd (getPath path s) = emit (HRead path) s.
Proof.
  intros (pre & post & o & -> & _ & Hf & Hn) _ Hres.
  rewrite (getPath_free _ _ Hres), getPath_snd. split; [|reflexivity].
  now apply (getPath_loop_missing _ _ _ _ _ o).
Qed.

Lemma read_through_missing_segment_witness :
  truthy (fst (getPath ["a"; "b"; "x"] (vw Scenario.worldM))) = false /\
  snd (getPath ["a"; "b"; "x"] (vw Scenario.worldM))
  = emit (HRead ["a"; "b"; "x"]) (vw Scenario.worldM).
Proof.
  apply (read_through_missing_segment ["a"; "b"; "x"] "b"
           (vw Scenario.worldM)); [|reflexivity|reflexivity].
  exists ["a"], ["x"], (VRef 2). repeat split; discriminate.
Defined.

(* ====================================================================== *)
(** ** Further properties of the wrapper                                  *)
(* ====================================================================== *)

Lemma up_with_vw s σ w : up (proxy_at (with_vw s σ) w) = up (proxy_at σ w).
Proof. unfold proxy_at, with_vw. cbn. now destruct (proxies σ !! w). Qed.

Lemma subtrees_with_vw s σ w :
  subtrees (proxy_at (with_vw s σ) w) = subtrees (proxy_at σ w).
Proof. unfold proxy_at, with_vw. cbn. now destruct (proxies σ !! w). Qed.

Lemma subtrees_with_heap h σ w :
  subtrees (proxy_at (with_heap h σ) w) = subtrees (proxy_at σ w).
Proof. unfold proxy_at, with_heap. cbn. now destruct (proxies σ !! w). Qed.

Lemma subtrees_drop w prop σ :
  subtrees (proxy_at (drop_subtree w prop σ) w) !! prop = None.
Proof.
  unfold drop_subtree. destruct (subtrees (proxy_at σ w) !! prop) eqn:E.
  - rewrite proxy_at_with_subtrees. cbn. apply lookup_delete_eq.
  - exact E.
Qed.

Lemma handler_snd {A} (f : view -> outcome A * view) σ :
  snd (handler f σ) = with_vw (snd (f (vw σ))) σ.
Proof. unfold handler. now destruct (f (vw σ)). Qed.

(** A read through the wrapper when no child wrapper is cached for the
    key. *)
Lemma getProperty_miss w prop σ :
  subtrees (proxy_at σ w) !! prop = None ->
  let P := keypath (up (proxy_at σ w)) prop in
  let handled := fst (getPath P (vw σ)) in
  let σ1 := with_vw (snd (getPath P (vw σ))) σ in
  getProperty w prop σ
  = if nullish handled
       || negb (String.eqb (typeof (hp (vw σ1)) handled) "object")
       || isElement (hp (vw σ1)) handled
    then (Ok (HValue handled), σ1)
    else (ensure_target w prop ;; d ← make_subtree w prop; mret (HProxy d)) σ1.
Proof.
  intros E. cbv zeta. unfold getProperty. rewrite bind_get_world, E.
  rewrite bind_at. unfold handler at 1.
  destruct (getPath _ (vw σ)) as [v s'] eqn:G. cbn [fst snd].
  rewrite bind_get_world.
  destruct (nullish v); [reflexivity|].
  destruct (negb (String.eqb _ _)); [reflexivity|].
  destruct (isElement _ v); reflexivity.
Qed.

(** What [make_subtree] leaves when it succeeds. *)
Lemma make_subtree_ok w prop σ d σ' :
  make_subtree w prop σ = (Ok d, σ') ->
  exists l,
    get_prop (hp (vw σ)) (VRef (target (proxy_at σ w))) prop = VRef l /\
    d = fresh (dom (proxies σ)) /\
    σ' = with_subtrees w (<[prop := d]> (subtrees (proxy_at σ w)))
           (MkWorld (vw σ)
              (<[d := MkProxy l
                        (Sub (up (proxy_at σ w))
                             (if String.eqb prop EmptyString then None
                              else Some prop)) ∅]> (proxies σ))).
Proof.
  unfold make_subtree.
  destruct (get_prop _ _ prop) as [| | | | | |l]; try discriminate.
  intros [= <- <-]. now exists l.
Qed.

Lemma ensure_target_ok w prop σ σ' :
  ensure_target w prop σ = (Ok tt, σ') ->
  proxies σ' = proxies σ /\ events (vw σ') = events (vw σ) /\
  data (vw σ') = data (vw σ).
Proof.
  unfold ensure_target. destruct (truthy _); [now intros [= <-]|].
  destruct (alloc _ _) as [l h1]. destruct (set_prop _ _ _ _); [|discriminate].
  intros [= <-]. now destruct σ as [[] ?].
Qed.

(** A read that hands back a child wrapper leaves it cached under the
    key. *)
Lemma getProperty_caches w prop σ d σ' :
  getProperty w prop σ = (Ok (HProxy d), σ') ->
  subtrees (proxy_at σ' w) !! prop = Some d.
Proof.
  destruct (subtrees (proxy_at σ w) !! prop) as [d0|] eqn:E.
  - unfold getProperty. rewrite bind_get_world, E. now intros [= <- <-].
  - rewrite (getProperty_miss _ _ _ E). cbv zeta.
    destruct (_ || _); [discriminate|].
    rewrite bind_at. destruct (ensure_target _ _ _) as [[[]| |] σ2];
      [|discriminate..].
    rewrite bind_at. destruct (make_subtree _ _ σ2) as [[d1| |] σ3] eqn:Mk;
      [|discriminate..].
    intros [= <- <-].
    apply make_subtree_ok in Mk as (l & _ & _ & ->).
    rewrite proxy_at_with_subtrees. cbn. apply lookup_insert_eq.
Qed.

(** X7.  A read that handed back the wrapper of a child hands back the same
    wrapper when it is repeated, and the repetition does not call the
    handler: it changes nothing at all. *)
Theorem wrapper_handle_is_stable (w : wid) (prop : string) (σ σ' : world)
  (d : wid) :
  getProperty w prop σ = (Ok (HProxy d), σ') ->
  getProperty w prop σ' = (Ok (HProxy d), σ').
Proof.
  intros G. apply getProperty_caches in G.
  unfold getProperty. now rewrite bind_get_world, G.
Qed.

Lemma wrapper_handle_is_stable_witness :
  getProperty root "obj" Scenario.worldD
  = (Ok (HProxy Scenario.objD), Scenario.worldD).
Proof.
  apply (wrapper_handle_is_stable root "obj"
           (create (Scenario.idle Scenario.heapD [])) Scenario.worldD
           Scenario.objD).
  reflexivity.
Defined.

(** X8.  The wrapper a read creates for a child: it is a new one, its path is
    the parent's path with the key added, so that every handler call made
    through it names the path from the root of the model; its target is the
    very object the parent's target holds under the key; and its creation
    has cost one handler read. *)
Theorem child_wrapper_extends_path (w : wid) (prop : string) (σ σ' : world)
  (d : wid) :
  is_Some (proxies σ !! w) ->
  subtrees (proxy_at σ w) !! prop = None ->
  prop <> EmptyString ->
  getProperty w prop σ = (Ok (HProxy d), σ') ->
  proxies σ !! d = None /\
  keypath0 (up (proxy_at σ' d)) = keypath0 (up (proxy_at σ w)) ++ [prop] /\
  (forall q, keypath (up (proxy_at σ' d)) q
             = keypath (up (proxy_at σ w)) prop
               ++ (if String.eqb q EmptyString then [] else [q])) /\
  get_prop (hp (vw σ')) (VRef (target (proxy_at σ' w))) prop
  = VRef (target (proxy_at σ' d)) /\
  events (vw σ')
  = events (vw σ) ++ [HRead (keypath0 (up (proxy_at σ w)) ++ [prop])].
Proof.
  intros [P HP] E Hprop G.
  assert (Ne : String.eqb prop EmptyString = false)
    by now apply String.eqb_neq.
  assert (KP : keypath (up (proxy_at σ w)) prop
               = keypath0 (up (proxy_at σ w)) ++ [prop]).
  { unfold keypath. now rewrite Ne. }
  rewrite (getProperty_miss _ _ _ E) in G. cbv zeta in G.
  destruct (_ || _); [discriminate|].
  rewrite bind_at in G.
  destruct (ensure_target _ _ _) as [[[]| |] σ2] eqn:En; [|discriminate..].
  rewrite bind_at in G.
  destruct (make_subtree _ _ σ2) as [[d1| |] σ3] eqn:Mk; [|discriminate..].
  injection G as <- <-.
  apply ensure_target_ok in En as (Pr & Ev & _). cbn [proxies with_vw] in Pr.
  apply make_subtree_ok in Mk as (l & Hl & -> & ->).
  set (d := fresh (dom (proxies σ2))).
  assert (Hd : proxies σ !! d = None).
  { apply (not_elem_of_dom (D := gset wid)). rewrite <- Pr. apply is_fresh. }
  assert (Hwd : w <> d) by (intros ->; congruence).
  assert (Pw : proxy_at σ2 w = P).
  { unfold proxy_at. now rewrite Pr, HP. }
  assert (Pw0 : proxy_at σ w = P).
  { unfold proxy_at. now rewrite HP. }
  assert (Ud : forall m (τ : world),
             proxies τ = <[d := m]> (proxies σ2) ->
             proxy_at (with_subtrees w (<[prop := d]> (subtrees P)) τ) d = m).
  { intros m τ Hτ. unfold proxy_at at 1, with_subtrees. cbn [proxies].
    rewrite lookup_insert_ne by exact Hwd. rewrite Hτ.
    now rewrite lookup_insert_eq. }
  rewrite Pw in *. rewrite Pw0 in *.
  split; [exact Hd|].
  erewrite Ud by reflexivity. rewrite proxy_at_with_subtrees.
  cbn [up target keypath0 seg]. rewrite Ne. cbn [seg].
  split; [reflexivity|]. split.
  { intros q. unfold keypath. cbn [keypath0 seg]. now rewrite Ne. }
  split.
  - unfold with_subtrees. cbn [vw hp]. unfold proxy_at at 1. cbn [proxies].
    rewrite lookup_insert_ne by congruence. rewrite Pr, HP. cbn [default].
    exact Hl.
  - unfold with_subtrees. cbn [vw]. rewrite Ev. cbn [vw with_vw].
    rewrite getPath_snd, events_emit, KP. reflexivity.
Qed.

Lemma child_wrapper_extends_path_witness :
  keypath0 (up (proxy_at Scenario.worldD Scenario.objD)) = [] ++ ["obj"].
Proof.
  apply (child_wrapper_extends_path root "obj"
           (create (Scenario.idle Scenario.heapD [])) Scenario.worldD
           Scenario.objD); try reflexivity.
  - vm_compute. eauto.
  - discriminate.
Defined.

Lemma store_target_subtrees w prop v σ w' :
  subtrees (proxy_at (snd (store_target w prop v σ)) w')
  = subtrees (proxy_at σ w').
Proof.
  unfold store_target. destruct (set_prop _ _ _ _); [|reflexivity].
  apply subtrees_with_heap.
Qed.

(** X9.  No wrapper outlives the object it was made for at its parent: once a
    value that is not a plain object is written under a key, or the key is
    erased, the parent keeps no child wrapper for it, whether the handler
    accepted the call or raised. *)
Theorem scalar_write_and_erase_drop_wrapper
  (n : nat) (w : wid) (prop : string) (v : value) (ischild : bool) (σ : world) :
  (isobj (hp (vw σ)) v = false ->
   subtrees (proxy_at (snd (setProperty (S n) w prop v ischild σ)) w) !! prop
   = None) /\
  subtrees (proxy_at (snd (deleteProperty w prop σ)) w) !! prop = None.
Proof.
  split.
  - intros Hv. destruct ischild.
    + rewrite (setProperty_child_scalar _ _ _ _ _ Hv), bind_at.
      pose proof (store_target_subtrees w prop v (drop_subtree w prop σ) w)
        as S.
      destruct (store_target w prop v (drop_subtree w prop σ))
        as [[[]| |] σ1]; cbn [snd] in S; unfold mret, M_ret; cbn [snd];
        rewrite S; apply subtrees_drop.
    + rewrite (setProperty_scalar _ _ _ _ _ Hv), handler_snd.
      rewrite subtrees_with_vw. apply subtrees_drop.
  - rewrite deleteProperty_unfold, handler_snd, subtrees_with_vw.
    apply subtrees_drop.
Qed.

Lemma scalar_write_and_erase_drop_wrapper_witness :
  subtrees (proxy_at Scenario.worldD root) !! "obj" = Some Scenario.objD /\
  subtrees (proxy_at (snd (setProperty 1 root "obj" (VNum 3) false
                             Scenario.worldD)) root) !! "obj" = None.
Proof.
  split; [reflexivity|].
  apply (proj1 (scalar_write_and_erase_drop_wrapper 0 root "obj" (VNum 3)
                  false Scenario.worldD)).
  reflexivity.
Defined.

(** X10.  On a view that has rendered, a primitive written through a wrapper
    is what the next read through the same wrapper gives back, when the
    wrapper's path is a route of plain objects and neither its segments nor
    the name written are names that [Object.prototype] defines. *)
Theorem wrapper_write_then_read
  (n : nat) (w : wid) (prop : string) (v : value) (σ : world) (l : loc) :
  let pre := keypath0 (up (proxy_at σ w)) in
  prop <> EmptyString ->
  is_prim v = true ->
  renderedOnce (vw σ) = true ->
  walk (hp (vw σ)) (VRef (data (vw σ))) pre = Ok (VRef l) ->
  route_ok (hp (vw σ)) l (VRef (data (vw σ))) pre = true ->
  own_route (hp (vw σ)) (VRef (data (vw σ))) (pre ++ [prop]) = true ->
  reserved (pre ++ [prop]) = false ->
  let r := setProperty (S n) w prop v false σ in
  fst r = Ok true /\
  fst (getProperty w prop (snd r)) = Ok (HValue v).
Proof.
  intros pre Hprop Hv _ Hw Hr _ Hres r. unfold r.
  assert (Ne : String.eqb prop EmptyString = false)
    by now apply String.eqb_neq.
  assert (KP : keypath (up (proxy_at σ w)) prop = pre ++ [prop]).
  { unfold keypath. now rewrite Ne. }
  rewrite (setProperty_scalar _ _ _ _ _ (isobj_prim _ _ Hv)).
  rewrite handler_fst, handler_snd, drop_subtree_vw, KP.
  destruct (setPath_stores pre prop v (vw σ) l Hw Hr) as [W G].
  rewrite <- (getPath_free _ _ Hres) in G.
  split; [exact W|].
  set (σ' := with_vw _ _).
  assert (E : subtrees (proxy_at σ' w) !! prop = None).
  { unfold σ'. rewrite subtrees_with_vw. apply subtrees_drop. }
  rewrite (getProperty_miss _ _ _ E). cbv zeta.
  assert (U : up (proxy_at σ' w) = up (proxy_at σ w)).
  { unfold σ'. now rewrite up_with_vw, drop_subtree_up. }
  rewrite U, KP.
  assert (V : vw σ' = snd (setPath (pre ++ [prop]) v (vw σ))) by reflexivity.
  rewrite V, G.
  assert (C : nullish v
              || negb (String.eqb
                         (typeof (hp (vw (with_vw
                            (snd (getPath (pre ++ [prop])
                               (snd (setPath (pre ++ [prop]) v (vw σ)))))
                            σ'))) v) "object") = true)
    by (now destruct v).
  now rewrite C.
Qed.

Lemma wrapper_write_then_read_witness :
  let r := setProperty 1 Scenario.objD "sub" (VNum 7) false Scenario.worldD in
  fst r = Ok true /\
  fst (getProperty Scenario.objD "sub" (snd r)) = Ok (HValue (VNum 7)).
Proof.
  apply (wrapper_write_then_read 0 Scenario.objD "sub" (VNum 7)
           Scenario.worldD 2%positive); try reflexivity.
  discriminate.
Defined.

(* ====================================================================== *)
(** ** Further properties of Vidi.checksum                                *)
(* ====================================================================== *)

Lemma to_int32_congr a b :
  a mod 2 ^ 32 = b mod 2 ^ 32 -> Checksum.to_int32 a = Checksum.to_int32 b.
Proof. unfold Checksum.to_int32. now intros ->. Qed.

Lemma to_int32_mod a : Checksum.to_int32 a mod 2 ^ 32 = a mod 2 ^ 32.
Proof.
  unfold Checksum.to_int32.
  pose proof (Z.mod_pos_bound a (2 ^ 32) eq_refl) as B.
  destruct (Z.ltb_spec (a mod 2 ^ 32) (2 ^ 31)).
  - now rewrite Z.mod_mod.
  - rewrite <- (Z.mod_add _ 1) by lia.
    replace (a mod 2 ^ 32 - 2 ^ 32 + 1 * 2 ^ 32) with (a mod 2 ^ 32) by lia.
    now rewrite Z.mod_mod.
Qed.

Lemma to_int32_range a :
  - 2 ^ 31 <= Checksum.to_int32 a < 2 ^ 31.
Proof.
  unfold Checksum.to_int32.
  pose proof (Z.mod_pos_bound a (2 ^ 32) eq_refl) as B.
  destruct (Z.ltb_spec (a mod 2 ^ 32) (2 ^ 31)); lia.
Qed.

Lemma to_int32_idem a :
  Checksum.to_int32 (Checksum.to_int32 a) = Checksum.to_int32 a.
Proof. apply to_int32_congr, to_int32_mod. Qed.

(** One round of the loop: the shift and the subtraction are a
    multiplication by 31, up to the wrap-around. *)
Lemma hash_step h c :
  Checksum.or32 ((Checksum.shl32 h 5 - h) + c) 0
  = Checksum.to_int32 (31 * h + c).
Proof.
  unfold Checksum.or32, Checksum.shl32.
  change (Checksum.to_int32 0) with 0. rewrite Z.lor_0_r, to_int32_idem.
  apply to_int32_congr.
  rewrite Z.shiftl_mul_pow2 by lia.
  set (x := Checksum.to_int32 (Checksum.to_int32 h * 2 ^ 5)).
  assert (X : x mod 2 ^ 32 = (32 * h) mod 2 ^ 32).
  { unfold x. rewrite to_int32_mod, Z.mul_mod, to_int32_mod by lia.
    rewrite <- Z.mul_mod by lia. f_equal. lia. }
  rewrite Z.add_mod, Zminus_mod, X by lia.
  rewrite <- Zminus_mod, <- Z.add_mod by lia. f_equal. lia.
Qed.

Lemma poly_congr s : forall a b,
  a mod 2 ^ 32 = b mod 2 ^ 32 ->
  poly s a mod 2 ^ 32 = poly s b mod 2 ^ 32.
Proof.
  induction s as [|c s IH]; intros a b E; [exact E|].
  cbn [poly]. apply IH.
  rewrite Z.add_mod, Z.mul_mod, E by lia.
  now rewrite <- Z.mul_mod, <- Z.add_mod by lia.
Qed.

(** The loop is the polynomial, wrapped once at the end. *)
Lemma hash_loop_poly s : forall h,
  Checksum.hash_loop s (Checksum.to_int32 h)
  = Checksum.to_int32 (poly s h).
Proof.
  induction s as [|c s IH]; intros h; [reflexivity|].
  cbn [Checksum.hash_loop poly]. rewrite hash_step, IH.
  apply to_int32_congr, poly_congr.
  rewrite Z.add_mod, Z.mul_mod, to_int32_mod by lia.
  now rewrite <- Z.mul_mod, <- Z.add_mod by lia.
Qed.

Lemma hash_loop_app s : forall t h,
  Checksum.hash_loop (s +:+ t) h
  = Checksum.hash_loop t (Checksum.hash_loop s h).
Proof.
  induction s as [|c s IH]; intros t h; [reflexivity|].
  rewrite append_String. cbn [Checksum.hash_loop]. apply IH.
Qed.

(** X11.  The hash behind [Vidi.checksum] is the polynomial hash with
    multiplier 31 over the character codes, wrapped to 32 bits: the shift
    and the subtraction of the loop multiply by 31.  It lies in the signed
    32-bit range, and the number that is printed lies between 0 and
    2^31 + 1. *)
Theorem checksum_is_polynomial_hash (s : string) :
  Checksum.hash_loop s 0 = Checksum.to_int32 (poly s 0) /\
  - 2 ^ 31 <= Checksum.hash_loop s 0 < 2 ^ 31 /\
  0 <= folded (Checksum.hash_loop s 0) <= 2 ^ 31 + 1 /\
  Checksum.checksum s
  = (let code := Str.padStart0 8
                   (Checksum.toString16 (folded (Checksum.hash_loop s 0))) in
     substring 0 4 code +:+ "-" +:+ Str.drop 4 code).
Proof.
  assert (E : Checksum.hash_loop s 0 = Checksum.to_int32 (poly s 0))
    by apply (hash_loop_poly s 0).
  pose proof (to_int32_range (poly s 0)) as B. rewrite <- E in B.
  repeat split; try lia; try exact E.
  - unfold folded. destruct (Z.ltb_spec (Checksum.hash_loop s 0) 0); lia.
  - unfold folded. destruct (Z.ltb_spec (Checksum.hash_loop s 0) 0); lia.
Qed.

(** Two strings whose polynomials agree up to the wrap-around have the
    same checksum. *)
Lemma checksum_congr a b :
  poly a 0 mod 2 ^ 32 = poly b 0 mod 2 ^ 32 ->
  Checksum.checksum a = Checksum.checksum b.
Proof.
  intros E. unfold Checksum.checksum.
  pose proof (hash_loop_poly a 0) as Ha. pose proof (hash_loop_poly b 0) as Hb.
  change (Checksum.to_int32 0) with 0 in Ha, Hb.
  now rewrite Ha, Hb, (to_int32_congr _ _ E).
Qed.

Lemma poly_app s : forall t h, poly (s +:+ t) h = poly t (poly s h).
Proof.
  induction s as [|c s IH]; intros t h; [reflexivity|].
  rewrite append_String. cbn [poly]. apply IH.
Qed.

(** X12.  The checksum cannot tell [Aa] from [BB], wherever they stand: two
    texts that differ only in that have the same checksum.  So have any two
    texts whose polynomials agree modulo 2^32. *)
Theorem checksum_collisions (p q : string) :
  Checksum.checksum (p +:+ "Aa" +:+ q) = Checksum.checksum (p +:+ "BB" +:+ q)
  /\ (forall a b, poly a 0 mod 2 ^ 32 = poly b 0 mod 2 ^ 32 ->
                  Checksum.checksum a = Checksum.checksum b).
Proof.
  split; [|exact checksum_congr].
  apply checksum_congr. rewrite !poly_app. f_equal.
  apply (f_equal (poly q)). cbn [poly].
  change (Checksum.charCode "A") with 65.
  change (Checksum.charCode "a") with 97.
  change (Checksum.charCode "B") with 66. lia.
Qed.

Lemma to_lu_add_nat r : forall n,
  HexadecimalPos.Unsigned.to_lu (n + N.of_nat r)
  = Nat.iter r Hexadecimal.Little.succ (HexadecimalPos.Unsigned.to_lu n).
Proof.
  induction r as [|r IH]; intros n.
  - now rewrite N.add_0_r.
  - rewrite Nat2N.inj_succ, N.add_succ_r, HexadecimalPos.Unsigned.to_lu_succ.
    now rewrite IH.
Qed.

Lemma iter_succ_digit r d :
  (r < 16)%nat ->
  Hexadecimal.nb_digits (Nat.iter r Hexadecimal.Little.succ (Hexadecimal.D0 d))
  = S (Hexadecimal.nb_digits d).
Proof.
  intros Hr. do 16 (destruct r as [|r]; [reflexivity|]). lia.
Qed.

(** A number below [16^k] has at most [k] hexadecimal digits. *)
Lemma to_lu_digits k : forall n,
  (n < 16 ^ N.of_nat k)%N -> (0 < n)%N ->
  (Hexadecimal.nb_digits (HexadecimalPos.Unsigned.to_lu n) <= k)%nat.
Proof.
  induction k as [|k IH]; intros n Hn Hp.
  - cbn in Hn. lia.
  - rewrite Nat2N.inj_succ, N.pow_succ_r' in Hn.
    pose proof (N.div_mod n 16 ltac:(lia)) as E.
    pose proof (N.mod_lt n 16 ltac:(lia)) as Hr.
    set (q := (n / 16)%N) in *. set (r := (n mod 16)%N) in *.
    rewrite E, <- (N2Nat.id r), to_lu_add_nat.
    assert (Hr' : (N.to_nat r < 16)%nat) by lia.
    destruct q as [|p] eqn:Q.
    + change (HexadecimalPos.Unsigned.to_lu (16 * 0))
        with (Hexadecimal.D0 Hexadecimal.Nil).
      rewrite iter_succ_digit by exact Hr'. cbn. lia.
    + rewrite HexadecimalPos.Unsigned.to_lhex_tenfold.
      rewrite iter_succ_digit by exact Hr'.
      apply le_n_S, IH; lia.
Qed.

Lemma string_of_uint_length d :
  String.length (HexadecimalString.NilEmpty.string_of_uint d)
  = Hexadecimal.nb_digits d.
Proof. induction d; cbn; congruence. Qed.

Lemma toString16_length z :
  0 <= z < 2 ^ 32 -> (String.length (Checksum.toString16 z) <= 8)%nat.
Proof.
  intros Hz. unfold Checksum.toString16.
  destruct (Z.to_N z) as [|p] eqn:E; [cbn; lia|].
  unfold N.to_hex_uint, Pos.to_hex_uint, HexadecimalString.NilZero.string_of_uint.
  destruct (Hexadecimal.rev (Pos.to_little_hex_uint p)) eqn:R; [cbn; lia|..];
    rewrite <- R, string_of_uint_length, HexadecimalFacts.nb_digits_rev;
    apply (to_lu_digits 8 (N.pos p)); lia.
Qed.

Lemma string_of_list_ascii_length l :
  String.length (string_of_list_ascii l) = List.length l.
Proof. induction l; cbn; congruence. Qed.

Lemma padStart0_length n s :
  String.length (Str.padStart0 n s) = Nat.max n (String.length s).
Proof.
  unfold Str.padStart0.
  rewrite length_append_str, string_of_list_ascii_length, repeat_length. lia.
Qed.

(** X13.  A checksum always reads [xxxx-xxxx]: nine characters, the fifth of
    them the dash. *)
Theorem checksum_has_nine_characters (s : string) :
  String.length (Checksum.checksum s) = 9%nat /\
  String.get 4 (Checksum.checksum s) = Some "-"%char.
Proof.
  unfold Checksum.checksum.
  set (hash := Checksum.hash_loop s 0).
  assert (B : 0 <= (if hash <? 0 then - (hash - 1) else hash) < 2 ^ 32).
  { pose proof (hash_loop_poly s 0) as E.
    change (Checksum.to_int32 0) with 0 in E.
    pose proof (to_int32_range (poly s 0)) as R. rewrite <- E in R.
    fold hash in R. destruct (Z.ltb_spec hash 0); lia. }
  pose proof (toString16_length _ B) as L.
  pose proof (padStart0_length 8
                (Checksum.toString16 (if hash <? 0 then - (hash - 1) else hash)))
    as P.
  rewrite Nat.max_l in P by exact L.
  destruct (Str.padStart0 8 _) as [|c1 [|c2 [|c3 [|c4 [|c5 [|c6 [|c7 [|c8 [|c9 t]]]]]]]]];
    try discriminate P.
  split; reflexivity.
Qed.

Lemma checksum_not_empty s : Checksum.checksum s <> EmptyString.
Proof.
  unfold Checksum.checksum. intros E.
  apply (f_equal String.length) in E.
  rewrite !length_append_str in E. cbn in E. lia.
Qed.

(* ====================================================================== *)
(** ** Further properties of compareNodes                                 *)
(* ====================================================================== *)

Lemma getAttr_setAttr_eq a v l : getAttr a (setAttr a v l) = Some v.
Proof.
  induction l as [|[a' v'] l IH]; cbn; [now rewrite String.eqb_refl|].
  destruct (String.eqb a a') eqn:E; cbn; [now rewrite String.eqb_refl|].
  now rewrite E.
Qed.

Lemma getAttr_setAttr_ne a b v l :
  a <> b -> getAttr a (setAttr b v l) = getAttr a l.
Proof.
  intros Ne. apply String.eqb_neq in Ne.
  induction l as [|[a' v'] l IH]; cbn; [now rewrite Ne|].
  destruct (String.eqb b a') eqn:E; cbn.
  - apply String.eqb_eq in E as <-. now rewrite Ne.
  - now rewrite IH.
Qed.

Lemma getAttr_removeAttr_ne a b l :
  a <> b -> getAttr a (removeAttr b l) = getAttr a l.
Proof.
  intros Ne. apply String.eqb_neq in Ne.
  induction l as [|[a' v'] l IH]; cbn; [reflexivity|].
  destruct (String.eqb b a') eqn:E; cbn.
  - apply String.eqb_eq in E as <-. now rewrite Ne.
  - now rewrite IH.
Qed.

Lemma getAttr_None a l : getAttr a l = None <-> a ∉ map fst l.
Proof.
  induction l as [|[a' v'] l IH]; cbn [getAttr map fst].
  - split; [intros _; apply not_elem_of_nil|reflexivity].
  - rewrite not_elem_of_cons. destruct (String.eqb_spec a a') as [->|Ne].
    + split; [discriminate|now intros []].
    + rewrite IH. tauto.
Qed.

Lemma getAttr_removeAttr_eq a l :
  NoDup (map fst l) -> getAttr a (removeAttr a l) = None.
Proof.
  induction l as [|[a' v'] l IH]; cbn [removeAttr map fst]; [reflexivity|].
  intros ND. apply NoDup_cons in ND as [Nin ND].
  destruct (String.eqb_spec a a') as [->|Ne].
  - now apply getAttr_None.
  - cbn [getAttr]. apply String.eqb_neq in Ne. rewrite Ne. now apply IH.
Qed.

Lemma names_setAttr a v l :
  map fst (setAttr a v l)
  = match getAttr a l with
    | Some _ => map fst l
    | None => map fst l ++ [a]
    end.
Proof.
  induction l as [|[a' v'] l IH]; cbn [setAttr getAttr map fst app];
    [reflexivity|].
  destruct (String.eqb_spec a a') as [->|Ne]; [reflexivity|].
  cbn [map fst]. rewrite IH. now destruct (getAttr a l).
Qed.

Lemma NoDup_setAttr a v l :
  NoDup (map fst l) -> NoDup (map fst (setAttr a v l)).
Proof.
  intros ND. rewrite names_setAttr. destruct (getAttr a l) eqn:E; [exact ND|].
  apply NoDup_app. split; [exact ND|]. split.
  - intros x Hx Hx'. apply list_elem_of_singleton in Hx' as ->.
    now apply getAttr_None in E.
  - apply NoDup_singleton.
Qed.

Lemma NoDup_removeAttr a l :
  NoDup (map fst l) -> NoDup (map fst (removeAttr a l)).
Proof.
  induction l as [|[a' v'] l IH]; cbn [removeAttr map fst]; [easy|].
  intros ND. apply NoDup_cons in ND as [Nin ND].
  destruct (String.eqb a a'); [exact ND|].
  cbn [map fst]. apply NoDup_cons. split; [|now apply IH].
  intros In. apply Nin. clear -In.
  induction l as [|[a2 v2] l IH]; cbn [removeAttr map fst] in *; [easy|].
  destruct (String.eqb a a2).
  - apply elem_of_cons. now right.
  - cbn [map fst] in In. apply elem_of_cons in In as [->|In].
    + apply elem_of_cons. now left.
    + apply elem_of_cons. right. now apply IH.
Qed.

Lemma opt_string_eqb_true a b : opt_string_eqb a b = true -> a = b.
Proof.
  destruct a, b; cbn; try discriminate; try reflexivity.
  now intros ->%String.eqb_eq.
Qed.

(** One round of the attribute loops brings the name in line and leaves
    the other names alone. *)
Lemma sync_attr_spec right a left :
  NoDup (map fst left) ->
  NoDup (map fst (sync_attr right a left)) /\
  getAttr a (sync_attr right a left) = getAttr a right /\
  (forall b, b <> a -> getAttr b (sync_attr right a left) = getAttr b left).
Proof.
  intros ND. unfold sync_attr.
  destruct (opt_string_eqb _ _) eqn:E.
  - apply opt_string_eqb_true in E. now repeat split.
  - destruct (getAttr a right) as [v|] eqn:R.
    + split; [now apply NoDup_setAttr|]. split.
      * apply getAttr_setAttr_eq.
      * intros b Hb. now apply getAttr_setAttr_ne.
    + split; [now apply NoDup_removeAttr|]. split.
      * now apply getAttr_removeAttr_eq.
      * intros b Hb. now apply getAttr_removeAttr_ne.
Qed.

Lemma sync_attrs_spec right names : forall left,
  NoDup (map fst left) ->
  NoDup (map fst (sync_attrs right names left)) /\
  forall a, getAttr a (sync_attrs right names left)
            = if bool_decide (a ∈ names) then getAttr a right
              else getAttr a left.
Proof.
  induction names as [|n names IH]; intros left ND.
  - split; [exact ND|]. intros a. cbn.
    rewrite bool_decide_eq_false_2; [reflexivity|apply not_elem_of_nil].
  - destruct (sync_attr_spec right n left ND) as (ND1 & Hn & Ho).
    destruct (IH _ ND1) as [ND2 H2].
    change (sync_attrs right (n :: names) left)
      with (sync_attrs right names (sync_attr right n left)).
    split; [exact ND2|]. intros a. rewrite H2.
    destruct (bool_decide (a ∈ names)) eqn:D.
    + apply bool_decide_eq_true_1 in D.
      rewrite bool_decide_eq_true_2; [reflexivity|].
      apply elem_of_cons. now right.
    + apply bool_decide_eq_false_1 in D.
      destruct (decide (a = n)) as [->|Ne].
      * rewrite bool_decide_eq_true_2; [exact Hn|]. apply elem_of_cons.
        now left.
      * rewrite bool_decide_eq_false_2; [now apply Ho|].
        intros [->|?]%elem_of_cons; tauto.
Qed.

(** The two attribute loops of [compareNodes] together. *)
Lemma sync_both_same right left :
  NoDup (map fst left) ->
  same_attrs
    (sync_attrs right (map fst right) (sync_attrs right (map fst left) left))
    right.
Proof.
  intros ND a.
  destruct (sync_attrs_spec right (map fst left) left ND) as [ND1 H1].
  destruct (sync_attrs_spec right (map fst right) _ ND1) as [_ H2].
  rewrite H2, H1.
  destruct (bool_decide (a ∈ map fst right)) eqn:D; [reflexivity|].
  destruct (bool_decide (a ∈ map fst left)) eqn:D'; [reflexivity|].
  apply bool_decide_eq_false_1 in D, D'.
  apply getAttr_None in D, D'. congruence.
Qed.

Lemma sync_attrs_same right names : forall left,
  same_attrs left right -> sync_attrs right names left = left.
Proof.
  induction names as [|n names IH]; intros left S; [reflexivity|].
  change (sync_attrs right (n :: names) left)
    with (sync_attrs right names (sync_attr right n left)).
  assert (E : sync_attr right n left = left).
  { unfold sync_attr. now rewrite (S n), opt_string_eqb_refl. }
  rewrite E. now apply IH.
Qed.

(** X14.  A node is compatible with itself, and comparing it with itself
    changes nothing: not the node, and not the document. *)
Theorem node_is_compatible_with_itself (n : node) (d : nat) :
  compareNodes n n d = (true, n, d).
Proof.
  unfold compareNodes.
  rewrite nodeType_eqb_refl, opt_string_eqb_refl. cbn [negb].
  destruct (is_element n && _); [reflexivity|].
  unfold resize. rewrite Nat.ltb_irrefl.
  unfold settle. rewrite String.eqb_refl, andb_false_r.
  rewrite opt_string_eqb_refl. cbn [negb].
  destruct n as [u t a v l c| |]; cbn [is_element]; [|reflexivity..].
  rewrite opt_string_eqb_refl, andb_false_r.
  cbn [attrs_of with_attrs].
  rewrite (sync_attrs_same a (map fst a) a) by (intros k; reflexivity).
  rewrite (sync_attrs_same a (map fst a) a) by (intros k; reflexivity).
  reflexivity.
Qed.

Lemma resize_spec left right d left1 d1 :
  resize left right d = Some (left1, d1) ->
  List.length (childNodes_of left1) = List.length (childNodes_of right) /\
  (d <= d1)%nat /\
  nodeType_of left1 = nodeType_of left /\ tagName_of left1 = tagName_of left /\
  uid_of left1 = uid_of left /\ listeners_of left1 = listeners_of left /\
  value_of left1 = value_of left /\ attrs_of left1 = attrs_of left.
Proof.
  unfold resize.
  destruct (Nat.ltb_spec (List.length (childNodes_of left))
                         (List.length (childNodes_of right))) as [Lt|Ge].
  - destruct (Nat.eqb_spec (List.length (childNodes_of left)) 0) as [|Nz];
      [discriminate|].
    destruct (Nat.ltb _ _); [discriminate|].
    rewrite pad_spec. intros [= <- <-].
    destruct left as [u t a v l c| |]; cbn in Nz; try lia.
    cbn. rewrite List.length_app, List.length_map, List.length_seq.
    cbn in Lt. repeat split; lia.
  - destruct (Nat.ltb_spec (List.length (childNodes_of right))
                           (List.length (childNodes_of left))) as [Lt|Ge'].
    + destruct (Nat.ltb _ _); [discriminate|]. intros [= <- <-].
      destruct left as [u t a v l c| |]; cbn in Lt; try lia.
      cbn. rewrite List.length_firstn. repeat split; lia.
    + intros [= <- <-]. repeat split; lia.
Qed.

Lemma settle_spec left1 right d1 left' d' :
  nodeType_of left1 = nodeType_of right ->
  NoDup (map fst (attrs_of left1)) ->
  settle left1 right d1 = (true, left', d') ->
  d' = d1 /\ childNodes_of left' = childNodes_of left1 /\
  nodeType_of left' = nodeType_of left1 /\
  tagName_of left' = tagName_of left1 /\
  uid_of left' = uid_of left1 /\ listeners_of left' = listeners_of left1 /\
  value_of left' = value_of right /\
  same_attrs (attrs_of left') (attrs_of right) /\
  (childElementCount left' = 0%nat -> textContent left' = textContent right).
Proof.
  intros Ty ND. unfold settle.
  destruct (Nat.eqb (childElementCount left1) 0
            && negb (String.eqb (textContent left1) (textContent right)))
    eqn:Tx; [discriminate|].
  assert (Txt : childElementCount left1 = 0%nat ->
                textContent left1 = textContent right).
  { intros Z. rewrite Z in Tx. cbn in Tx. apply negb_false_iff in Tx.
    now apply String.eqb_eq. }
  destruct left1 as [u t a v l c|x|x];
    destruct right as [u2 t2 a2 v2 l2 c2|y|y]; try discriminate Ty.
  - cbn [value_of].
    assert (V : (if negb (opt_string_eqb v v2)
                 then with_value (Element u t a v l c) v2
                 else Element u t a v l c) = Element u t a v2 l c).
    { destruct (opt_string_eqb v v2) eqn:E; cbn [negb with_value];
        [|reflexivity]. now apply opt_string_eqb_true in E as ->. }
    rewrite V. cbn [is_element]. cbv zeta.
    destruct ((attr_truthy _ || attr_truthy _) && _); [discriminate|].
    intros H. inversion H; subst. cbn. repeat split; try assumption.
    now apply sync_both_same.
  - cbn. intros H. inversion H; subst. cbn. repeat split; try assumption.
  - cbn. intros H. inversion H; subst. cbn. repeat split; try assumption.
Qed.

(** A comparison that answers [true] for a node that is not kept has gone
    through both halves of [compareNodes]. *)
Lemma compareNodes_parts left right d left' d' :
  kept left = false ->
  compareNodes left right d = (true, left', d') ->
  nodeType_of left = nodeType_of right /\
  tagName_of left = tagName_of right /\
  exists left1 d1,
    resize left right d = Some (left1, d1) /\
    settle left1 right d1 = (true, left', d').
Proof.
  intros K. unfold compareNodes. unfold kept in K. rewrite K.
  destruct (nodeType_eqb _ _) eqn:Ty; [|discriminate].
  destruct (opt_string_eqb (tagName_of left) _) eqn:Tg; [|discriminate].
  cbn [negb]. apply opt_string_eqb_true in Tg.
  destruct (resize left right d) as [[left1 d1]|] eqn:Rs; [|discriminate].
  intros St. split; [|split; [exact Tg|now exists left1, d1]].
  now destruct (nodeType_of left), (nodeType_of right).
Qed.

(** What the reconciler needs of a compatible pair: the old node has the
    shape of the new one, above its children. *)
Lemma compatible_node_shape left right left' d d' :
  NoDup (map fst (attrs_of left)) ->
  kept left = false ->
  compareNodes left right d = (true, left', d') ->
  nodeType_of left' = nodeType_of right /\
  tagName_of left' = tagName_of right /\
  value_of left' = value_of right /\
  same_attrs (attrs_of left') (attrs_of right) /\
  List.length (childNodes_of left') = List.length (childNodes_of right) /\
  (childElementCount left' = 0%nat -> textContent left' = textContent right).
Proof.
  intros ND K C.
  destruct (compareNodes_parts _ _ _ _ _ K C)
    as (Ty & Tg & left1 & d1 & Rs & St).
  apply resize_spec in Rs as (R1 & _ & R3 & R4 & _ & _ & _ & R8).
  apply settle_spec in St
    as (_ & S1 & S2 & S3 & _ & _ & S6 & S7 & S8); [|congruence..].
  rewrite S1. repeat split; try congruence; try assumption.
Qed.

(** X15.  When [compareNodes] finds the old node compatible and the node is not
    marked to be kept, the old node has taken the state of the new one: it
    answers every [getAttribute] as the new node does, has its value and as
    many children, and, where it has no element below it, its text; it is
    still the same element, with the listeners it had. *)
Theorem compatible_node_takes_new_state
  (left right left' : node) (d d' : nat) :
  NoDup (map fst (attrs_of left)) ->
  kept left = false ->
  compareNodes left right d = (true, left', d') ->
  nodeType_of left' = nodeType_of right /\
  tagName_of left' = tagName_of right /\
  uid_of left' = uid_of left /\
  listeners_of left' = listeners_of left /\
  value_of left' = value_of right /\
  same_attrs (attrs_of left') (attrs_of right) /\
  List.length (childNodes_of left') = List.length (childNodes_of right) /\
  (childElementCount left' = 0%nat -> textContent left' = textContent right) /\
  (d <= d')%nat.
Proof.
  intros ND K C.
  destruct (compareNodes_parts _ _ _ _ _ K C)
    as (Ty & Tg & left1 & d1 & Rs & St).
  apply resize_spec in Rs as (R1 & R2 & R3 & R4 & R5 & R6 & R7 & R8).
  apply settle_spec in St
    as (-> & S1 & S2 & S3 & S4 & S5 & S6 & S7 & S8); [|congruence..].
  rewrite S1. repeat split; try congruence; try assumption.
Qed.

Lemma compatible_node_takes_new_state_witness :
  let left := Element 1 "A" [("class", "x"); ("id", "a")] None [] [] in
  let right := Element 2 "A" [("href", "#"); ("class", "y")] (Some "v") [] [] in
  same_attrs (attrs_of (snd (fst (compareNodes left right 3))))
             (attrs_of right).
Proof.
  cbv zeta.
  apply (compatible_node_takes_new_state
           (Element 1 "A" [("class", "x"); ("id", "a")] None [] [])
           (Element 2 "A" [("href", "#"); ("class", "y")] (Some "v") [] [])
           _ 3 3); [|reflexivity..].
  cbn. apply NoDup_cons. split; [|apply NoDup_singleton].
  intros H%list_elem_of_singleton. discriminate H.
Defined.

(* ====================================================================== *)
(** ** Properties of transplantDom                                        *)
(* ====================================================================== *)

Lemma same_shape_refl n : same_shape n n.
Proof.
  induction n as [u t a v l kids IH| |] using node_nested_ind; cbn; trivial.
  repeat split; trivial.
  induction IH as [|k kids Hk _ IHk]; [exact I|]. now split.
Qed.

Lemma attrs_unique_element u t a v l kids :
  attrs_unique (Element u t a v l kids)
  <-> NoDup (map fst a) /\ Forall attrs_unique kids.
Proof.
  cbn [attrs_unique]. apply and_iff_compat_l.
  induction kids as [|k kids IH]; [split; [constructor|trivial]|].
  rewrite IH, Forall_cons. reflexivity.
Qed.

Lemma unpinned_inv n :
  unpinned n = true ->
  kept n = false /\ non_interactive n = false /\
  forallb unpinned (childNodes_of n) = true.
Proof.
  destruct n as [u t a v l kids| |]; cbn [unpinned childNodes_of].
  - intros H. apply andb_prop in H as [H H3]. apply andb_prop in H as [H1 H2].
    apply negb_true_iff in H1, H2. easy.
  - easy.
  - easy.
Qed.

(** Where [compareNodes] finds the nodes compatible, the children of the
    old node are children it had, or new empty [div]s. *)
Lemma compareNodes_children (Q : node -> Prop) left right d left' d' :
  kept left = false ->
  compareNodes left right d = (true, left', d') ->
  (forall u, Q (filler u)) ->
  Forall Q (childNodes_of left) -> Forall Q (childNodes_of left').
Proof.
  intros K. unfold compareNodes. unfold kept in K. rewrite K.
  destruct (negb (nodeType_eqb _ _)); [discriminate|].
  destruct (negb (opt_string_eqb _ _)); [discriminate|].
  destruct (resize left right d) as [[left1 d1]|] eqn:Rs; [|discriminate].
  intros St HQ HF.
  pose proof (settle_frame left1 right d1) as [Fr _]. rewrite St in Fr.
  cbn [fst snd] in Fr. rewrite Fr. clear St Fr.
  revert Rs. unfold resize.
  destruct (Nat.ltb _ _).
  - destruct (Nat.eqb_spec (List.length (childNodes_of left)) 0) as [|Nz];
      [discriminate|].
    destruct (Nat.ltb _ _); [discriminate|].
    rewrite pad_spec. intros [= <- _].
    rewrite childNodes_with_childNodes.
    + apply Forall_app. split; [exact HF|].
      apply Forall_forall. intros x Hx.
      apply list_elem_of_fmap in Hx as (u & -> & _). apply HQ.
    + apply has_children_is_element. lia.
  - destruct (Nat.ltb_spec (List.length (childNodes_of right))
                           (List.length (childNodes_of left))) as [Lt|Ge].
    + destruct (Nat.ltb _ _); [discriminate|]. intros [= <- _].
      rewrite childNodes_with_childNodes.
      * now apply Forall_take.
      * apply has_children_is_element. lia.
    + now intros [= <- _].
Qed.

Lemma textContent_same_shape a : forall b,
  same_shape a b -> textContent a = textContent b.
Proof.
  induction a as [u t aa v l kids IH|x|x] using node_nested_ind;
    intros [u2 t2 ab v2 l2 kids2|y|y]; cbn [same_shape]; try easy;
    try (now intros ->).
  intros (_ & _ & _ & All). cbn [textContent].
  revert kids2 All. induction IH as [|k kids Hk _ IHk]; intros [|k2 kids2];
    try easy.
  intros [S All]. specialize (IHk _ All). specialize (Hk _ S).
  destruct k, k2; cbn [same_shape] in S; try easy; rewrite ?IHk; try easy.
  - now rewrite Hk.
  - now rewrite Hk.
Qed.

Lemma same_shape_element u t a v l kids u2 t2 a2 v2 l2 kids2 :
  same_shape (Element u t a v l kids) (Element u2 t2 a2 v2 l2 kids2)
  <-> t = t2 /\ same_attrs a a2 /\ v = v2 /\ Forall2 same_shape kids kids2.
Proof.
  cbn [same_shape]. do 3 apply and_iff_compat_l.
  revert kids2. induction kids as [|k kids IH]; intros [|k2 kids2].
  - split; [constructor|trivial].
  - split; [easy|]. intros H. inversion H.
  - split; [easy|]. intros H. inversion H.
  - rewrite IH. split.
    + intros [? ?]. now constructor.
    + intros H. inversion H; subst. now split.
Qed.

Lemma forallb_true_Forall {A} (f : A -> bool) l :
  forallb f l = true <-> Forall (fun x => f x = true) l.
Proof.
  induction l as [|x l IH]; cbn [forallb]; [split; [constructor|trivial]|].
  rewrite andb_true_iff, IH, Forall_cons. reflexivity.
Qed.

Section TransplantFacts.

Context {W : Type}.
Variable eval : string -> locals -> bool -> W -> jsval * list string * W.
Variable view_get : string -> W -> jsval * W.
Variable abstract_eq : jsval -> jsval -> bool.
Variable parse_html : string -> list node.
Variable style_display_none : option string -> string.

Abbreviation transplantT :=
  (transplantDom eval view_get abstract_eq parse_html style_display_none).
Abbreviation cloneT :=
  (cloneElement eval view_get abstract_eq parse_html style_display_none).

(** The loop over the children, as [transplantDom] runs it. *)
Abbreviation childrenT active :=
  (transplant_children (fun i f => transplantT active i f false)).

(** [transplantDom] below the root. *)
Lemma transplantDom_inner active into from :
  transplantT active into from false
  = if kept into then mret (MkGraft into false [])
    else if non_interactive into then mret (MkGraft from true [])
    else
      st ← get_state;
      let '(ok, into1, doc1) := compareNodes into from (doc st) in
      set_doc doc1 ;;
      if negb ok then
        cloneT from [] ;;
        (if has_focus active into then
           match uid_of from with
           | Some u => mret (MkGraft from false [u])
           | None => rthrow (TypeError "from.focus is not a function")
           end
         else mret (MkGraft from false []))
      else
        match from with
        | Element _ _ _ _ _ fkids =>
            r ← childrenT active (childNodes_of into1) fkids;
            mret (MkGraft (with_childNodes into1 (fst r)) false (snd r))
        | _ => mret (MkGraft into1 false [])
        end.
Proof. destruct from; reflexivity. Qed.

(** [transplantDom] at the root. *)
Lemma transplantDom_root active into from :
  transplantT active into from true
  = match from with
    | Element _ _ _ _ _ fkids =>
        r ← childrenT active (childNodes_of into) fkids;
        mret (MkGraft (with_childNodes into (fst r)) false (snd r))
    | _ => mret (MkGraft into false [])
    end.
Proof. destruct from; reflexivity. Qed.

(** What a call below the root has done when it returns. *)
Lemma transplantDom_inner_ok active into from st g st' :
  kept into = false -> non_interactive into = false ->
  transplantT active into from false st = (Ok g, st') ->
  taken g = false /\
  exists ok into1 doc1,
    compareNodes into from (doc st) = (ok, into1, doc1) /\
    if ok then
      match from with
      | Element _ _ _ _ _ fkids =>
          exists r,
            childrenT active (childNodes_of into1) fkids
              (MkR (host st) (loopcache st) (console st) doc1) = (Ok r, st') /\
            g = MkGraft (with_childNodes into1 (fst r)) false (snd r)
      | _ => g = MkGraft into1 false [] /\
             st' = MkR (host st) (loopcache st) (console st) doc1
      end
    else placed g = from.
Proof.
  intros K NI. rewrite transplantDom_inner, K, NI.
  rewrite rbind_at. cbn [get_state].
  destruct (compareNodes into from (doc st)) as [[ok into1] doc1] eqn:C.
  rewrite rbind_at. cbn [set_doc].
  destruct ok; cbn [negb].
  - destruct from as [u t a v l fkids|x|x].
    + rewrite rbind_at.
      destruct (childrenT active _ fkids _) as [[r| |] st1] eqn:Ch;
        [|discriminate..].
      rewrite rret_at. intros [= <- <-]. split; [reflexivity|].
      exists true, into1, doc1. split; [reflexivity|]. now exists r.
    + rewrite rret_at. intros [= <- <-]. split; [reflexivity|].
      exists true, into1, doc1. now split.
    + rewrite rret_at. intros [= <- <-]. split; [reflexivity|].
      exists true, into1, doc1. now split.
  - rewrite rbind_at. destruct (cloneT from [] _) as [[sup| |] st1];
      [|discriminate..].
    destruct (has_focus active into).
    + destruct (uid_of from); [|discriminate].
      rewrite rret_at. intros [= <- <-]. split; [reflexivity|].
      exists false, into1, doc1. now split.
    + rewrite rret_at. intros [= <- <-]. split; [reflexivity|].
      exists false, into1, doc1. now split.
Qed.

(** The loop brings every old child in line with its new one, when each
    call on a pair does. *)
Lemma children_same_shape active froms :
  Forall (fun f => forall into st st' g,
            attrs_unique into -> unpinned into = true ->
            transplantT active into f false st = (Ok g, st') ->
            same_shape (placed g) f /\ taken g = false) froms ->
  forall intos st r st',
    Forall attrs_unique intos -> forallb unpinned intos = true ->
    List.length intos = List.length froms ->
    childrenT active intos froms st = (Ok r, st') ->
    Forall2 same_shape (fst r) froms.
Proof.
  induction 1 as [|f fs Hf _ IH]; intros intos st r st' HU HP HL.
  - destruct intos; [|discriminate HL]. cbn. rewrite rret_at.
    intros [= <- _]. constructor.
  - destruct intos as [|i rest]; [discriminate HL|].
    cbn [transplant_children]. rewrite rbind_at.
    destruct (transplantT active i f false st) as [[g| |] st1] eqn:T;
      [|discriminate..].
    apply Forall_cons in HU as [HUi HU]. cbn [forallb] in HP.
    apply andb_prop in HP as [HPi HP].
    destruct (Hf _ _ _ _ HUi HPi T) as [S Tk]. rewrite Tk.
    rewrite rbind_at.
    destruct (childrenT active rest fs st1) as [[r1| |] st2] eqn:Ch;
      [|discriminate..].
    rewrite rret_at. intros [= <- _]. cbn [fst].
    constructor; [exact S|].
    apply (IH rest st1 r1 st2); try assumption. cbn in HL. lia.
Qed.

(** X16.  Below the root, and where nothing is marked [v-static], the
    reconciler leaves in the place of the old node a tree that a reader of the
    document cannot tell from the new one: either the old node, brought in line
    attribute by attribute, value, text and child by child, or the new node
    itself. *)
Theorem transplant_reproduces_new_tree
  (active : option nat) (from into : node) (st st' : rstate W) (g : graft) :
  attrs_unique into ->
  unpinned into = true ->
  transplantT active into from false st = (Ok g, st') ->
  same_shape (placed g) from /\ taken g = false.
Proof.
  revert into st st' g.
  induction from as [uf tf af vf lf fkids IH|y|y] using node_nested_ind;
    intros into st st' g HU HP T.
  - destruct (unpinned_inv _ HP) as (K & NI & HPk).
    destruct (transplantDom_inner_ok _ _ _ _ _ _ K NI T)
      as (Tk & ok & into1 & doc1 & C & Res).
    split; [|exact Tk]. destruct ok.
    + destruct Res as (r & Ch & ->). cbn [placed].
      assert (NDa : NoDup (map fst (attrs_of into))).
      { destruct into; cbn; [|constructor..].
        now apply attrs_unique_element in HU as [? _]. }
      destruct (compatible_node_shape _ _ _ _ _ NDa K C)
        as (Ty & Tg & Vl & At & Ln & _).
      assert (HUk : Forall attrs_unique (childNodes_of into1)).
      { apply (compareNodes_children _ _ _ _ _ _ K C).
        - intros u. cbn. split; [constructor|exact I].
        - destruct into; cbn; [|constructor..].
          now apply attrs_unique_element in HU as [_ ?]. }
      assert (HPk1 : forallb unpinned (childNodes_of into1) = true).
      { apply forallb_true_Forall.
        apply (compareNodes_children (fun n => unpinned n = true)
                 _ _ _ _ _ K C).
        - reflexivity.
        - now apply forallb_true_Forall. }
      pose proof (children_same_shape active fkids IH _ _ _ _ HUk HPk1 Ln Ch)
        as Kids.
      destruct into1 as [u1 t1 a1 v1 l1 k1|x|x]; try discriminate Ty.
      cbn [with_childNodes]. apply same_shape_element.
      cbn in Tg, Vl, At. injection Tg as ->. subst v1. easy.
    + rewrite Res. apply same_shape_refl.
  - destruct (unpinned_inv _ HP) as (K & NI & _).
    destruct (transplantDom_inner_ok _ _ _ _ _ _ K NI T)
      as (Tk & ok & into1 & doc1 & C & Res).
    split; [|exact Tk]. destruct ok.
    + destruct Res as [-> _]. cbn [placed].
      assert (NDa : NoDup (map fst (attrs_of into))).
      { destruct into; cbn; [|constructor..].
        now apply attrs_unique_element in HU as [? _]. }
      destruct (compatible_node_shape _ _ _ _ _ NDa K C)
        as (Ty & _ & _ & _ & _ & Tx).
      destruct into1 as [u1 t1 a1 v1 l1 k1|x|x]; try discriminate Ty.
      cbn in Tx. cbn. now apply Tx.
    + rewrite Res. apply same_shape_refl.
  - destruct (unpinned_inv _ HP) as (K & NI & _).
    destruct (transplantDom_inner_ok _ _ _ _ _ _ K NI T)
      as (Tk & ok & into1 & doc1 & C & Res).
    split; [|exact Tk]. destruct ok.
    + destruct Res as [-> _]. cbn [placed].
      assert (NDa : NoDup (map fst (attrs_of into))).
      { destruct into; cbn; [|constructor..].
        now apply attrs_unique_element in HU as [? _]. }
      destruct (compatible_node_shape _ _ _ _ _ NDa K C)
        as (Ty & _ & _ & _ & _ & Tx).
      destruct into1 as [u1 t1 a1 v1 l1 k1|x|x]; try discriminate Ty.
      cbn in Tx. cbn. now apply Tx.
    + rewrite Res. apply same_shape_refl.
Qed.

(** Two trees of the same shape are compatible at the top, and comparing
    them changes nothing. *)
Lemma compareNodes_same_shape into from d :
  same_shape into from -> kept into = false ->
  compareNodes into from d = (true, into, d).
Proof.
  intros S K. pose proof (textContent_same_shape _ _ S) as Tx.
  unfold compareNodes. unfold kept in K. rewrite K.
  destruct into as [u t a v l kids|x|x], from as [u2 t2 a2 v2 l2 kids2|y|y];
    try (now cbn in S).
  - apply same_shape_element in S as (-> & At & -> & Kids).
    cbn [nodeType_of nodeType_eqb tagName_of opt_string_eqb negb].
    rewrite String.eqb_refl. cbn [negb].
    unfold resize. cbn [childNodes_of].
    rewrite (Forall2_length _ _ _ Kids), Nat.ltb_irrefl.
    unfold settle. rewrite Tx, String.eqb_refl, andb_false_r.
    cbn [value_of]. rewrite opt_string_eqb_refl. cbn [negb is_element].
    unfold getAttribute. cbn [attrs_of]. rewrite (At "v-eventid").
    rewrite opt_string_eqb_refl, andb_false_r.
    rewrite (sync_attrs_same a2 (map fst a) a At).
    rewrite (sync_attrs_same a2 (map fst a2) a At). reflexivity.
  - cbn in S. subst y. unfold resize, settle.
    cbn [nodeType_of nodeType_eqb tagName_of opt_string_eqb negb is_element
         andb childNodes_of List.length Nat.ltb Nat.leb textContent value_of].
    now rewrite String.eqb_refl.
  - cbn in S. subst y. unfold resize, settle.
    cbn [nodeType_of nodeType_eqb tagName_of opt_string_eqb negb is_element
         andb childNodes_of List.length Nat.ltb Nat.leb textContent value_of].
    now rewrite String.eqb_refl.
Qed.

Lemma set_doc_same (st : rstate W) : set_doc (doc st) st = (Ok tt, st).
Proof. now destruct st. Qed.

(** The loop leaves the old children as they are, when each call on a pair
    does. *)
Lemma children_unchanged active froms :
  Forall (fun f => forall into st,
            same_shape into f -> unpinned into = true ->
            transplantT active into f false st
            = (Ok (MkGraft into false []), st)) froms ->
  forall intos st,
    Forall2 same_shape intos froms -> forallb unpinned intos = true ->
    childrenT active intos froms st = (Ok (intos, []), st).
Proof.
  induction 1 as [|f fs Hf _ IH]; intros intos st HS HP.
  - inversion HS; subst. reflexivity.
  - inversion HS as [|i f' rest fs' Si Sr]; subst.
    cbn [forallb] in HP. apply andb_prop in HP as [HPi HP].
    cbn [transplant_children]. rewrite rbind_at, (Hf _ _ Si HPi).
    cbn [taken]. rewrite rbind_at, (IH _ _ Sr HP). reflexivity.
Qed.

(** X17.  Where the old tree already has the shape of the new one and nothing
    in it is marked [v-static], the reconciler changes nothing: every old
    node stays the element it was, no element is created, nothing is
    evaluated and nothing gets the focus. *)
Theorem transplant_same_tree_changes_nothing
  (active : option nat) (from into : node) (st : rstate W) :
  same_shape into from ->
  unpinned into = true ->
  transplantT active into from false st = (Ok (MkGraft into false []), st).
Proof.
  revert into st.
  induction from as [uf tf af vf lf fkids IH|y|y] using node_nested_ind;
    intros into st S HP;
    destruct (unpinned_inv _ HP) as (K & NI & HPk);
    rewrite transplantDom_inner, K, NI, rbind_at; cbn [get_state];
    rewrite (compareNodes_same_shape _ _ _ S K), rbind_at, set_doc_same;
    cbn [negb].
  - destruct into as [u t a v l kids|x|x]; try (now cbn in S).
    apply same_shape_element in S as (_ & _ & _ & Kids).
    cbn [childNodes_of] in *.
    rewrite rbind_at, (children_unchanged active fkids IH _ _ Kids HPk).
    reflexivity.
  - reflexivity.
  - reflexivity.
Qed.

Lemma transplantDom_taken active into from st g st' :
  transplantT active into from false st = (Ok g, st') ->
  taken g = true -> non_interactive into = true.
Proof.
  intros T Tk. destruct (kept into) eqn:K.
  - rewrite transplantDom_inner, K in T. injection T as <- _. discriminate Tk.
  - destruct (non_interactive into) eqn:NI; [reflexivity|].
    destruct (transplantDom_inner_ok _ _ _ _ _ _ K NI T) as [Tk' _].
    congruence.
Qed.

(** The loop does not come to an end when there are fewer old children than
    new ones. *)
Lemma children_overrun active froms : forall intos st,
  (List.length intos < List.length froms)%nat ->
  forallb (fun n => negb (non_interactive n)) intos = true ->
  forall r, fst (childrenT active intos froms st) <> Ok r.
Proof.
  induction froms as [|f fs IH]; intros intos st HL HN r; [cbn in HL; lia|].
  destruct intos as [|i rest]; [discriminate|].
  cbn [forallb] in HN. apply andb_prop in HN as [HNi HN].
  apply negb_true_iff in HNi.
  cbn [transplant_children]. rewrite rbind_at.
  destruct (transplantT active i f false st) as [[g| |] st1] eqn:T;
    [|discriminate..].
  destruct (taken g) eqn:Tk.
  { apply (transplantDom_taken _ _ _ _ _ _ T) in Tk. congruence. }
  rewrite rbind_at. specialize (IH rest st1).
  destruct (childrenT active rest fs st1) as [[r1| |] st2];
    [|discriminate..].
  exfalso. apply (IH ltac:(cbn in HL; lia) HN r1). reflexivity.
Qed.

Lemma definite_ret {A} (a : A) : definite (mret a : R W A).
Proof. intros st. discriminate. Qed.

Lemma definite_bind {A B} (m : R W A) (f : A -> R W B) :
  definite m -> (forall a, definite (f a)) -> definite (m ≫= f).
Proof.
  intros Hm Hf st. rewrite rbind_at. specialize (Hm st).
  destruct (m st) as [[a|e|] st1]; cbn [fst] in *;
    [apply Hf|discriminate|easy].
Qed.

Lemma definite_run_eval e tv nr : definite (run_eval eval e tv nr).
Proof.
  intros st. unfold run_eval. destruct (eval _ _ _ _) as [[v ws] w].
  discriminate.
Qed.

Lemma definite_warn s : definite (warn s : R W unit).
Proof. intros st. discriminate. Qed.

Lemma definite_createElement t : definite (createElement t : R W node).
Proof. intros st. discriminate. Qed.

Lemma definite_set_cache k e : definite (set_cache k e : R W unit).
Proof. intros st. discriminate. Qed.

Lemma definite_set_doc d : definite (set_doc d : R W unit).
Proof. intros st. discriminate. Qed.

Lemma definite_get_state : definite (get_state : R W (rstate W)).
Proof. intros st. discriminate. Qed.

Lemma definite_rthrow {A} e : definite (rthrow e : R W A).
Proof. intros st. discriminate. Qed.

Lemma definite_getChild tv index : definite (getChild view_get tv index).
Proof.
  unfold getChild. destruct (get_local tv index); try apply definite_ret.
  intros st. destruct (view_get _ _). discriminate.
Qed.

Ltac definite_step :=
  first
    [ apply definite_ret
    | apply definite_run_eval
    | apply definite_warn
    | apply definite_createElement
    | apply definite_set_cache
    | apply definite_set_doc
    | apply definite_get_state
    | apply definite_rthrow
    | apply definite_getChild
    | apply definite_bind; [|intros]
    | lazymatch goal with
      | |- ?g (if ?c then _ else _) => destruct c
      | |- ?g (match ?x with _ => _ end) => destruct x
      | |- ?g (let _ := _ in _) => cbv zeta
      end ].

Lemma definite_replace_pieces ps tv : definite (replace_pieces eval ps tv).
Proof.
  induction ps as [|[c|m] ps IH]; cbn [replace_pieces].
  - apply definite_ret.
  - apply definite_bind; [exact IH|intros; apply definite_ret].
  - apply definite_bind; [unfold moustache_span; repeat definite_step|].
    intros r. apply definite_bind; [exact IH|intros; apply definite_ret].
Qed.

Lemma definite_parseMoustache str tv : definite (parseMoustache eval str tv).
Proof. apply definite_replace_pieces. Qed.

Lemma definite_clone_attrs orig tv attrs : forall b,
  definite (clone_attrs eval view_get abstract_eq orig tv attrs b).
Proof.
  induction attrs as [|[a val] attrs IH]; intros b; cbn [clone_attrs].
  - apply definite_ret.
  - apply definite_bind; [|intros; apply IH].
    unfold clone_attr, clone_v_model, clone_v_on, clone_v_bind.
    repeat first [apply definite_parseMoustache | definite_step].
Qed.

Lemma definite_renderTemplate_with (clone : locals -> R W node) orig into tv :
  (forall tv, definite (clone tv)) ->
  definite (renderTemplate_with eval style_display_none clone orig into tv).
Proof.
  intros Hc.
  assert (Ha : forall into tv hide,
             definite (appendClone_with style_display_none clone into tv hide)).
  { intros. unfold appendClone_with.
    apply definite_bind; [apply Hc|intros; apply definite_ret]. }
  assert (He : forall loopfor loopvar indexvar countvar hide tv es index into,
             definite (render_entries style_display_none clone loopfor loopvar
                         indexvar countvar hide tv es index into)).
  { intros loopfor loopvar indexvar countvar hide tv0 es.
    induction es as [|[i x] es IH]; intros index into0; cbn [render_entries].
    - apply definite_ret.
    - cbv zeta. apply definite_bind; [apply Ha|].
      intros [into' elm]. apply definite_bind; [apply definite_get_state|].
      intros st0. apply definite_bind; [|intros; apply IH].
      destruct (loopcache st0 !! loopfor);
        [apply definite_set_cache|apply definite_rthrow]. }
  assert (Hf : forall loopfor hide tv into data,
             definite (render_afresh style_display_none clone loopfor hide tv
                         into data)).
  { intros. unfold render_afresh.
    destruct (loop_names loopfor) as [[loopvar indexvar] countvar].
    apply definite_bind; [apply definite_set_cache|]. intros. apply He. }
  unfold renderTemplate_with. destruct orig as [u t a v l kids|d|d].
  - apply definite_bind; [repeat definite_step|]. intros shown.
    destruct (negb shown); [apply definite_ret|].
    apply definite_bind; [repeat definite_step|]. intros hide.
    destruct (attr_truthy _).
    + unfold render_for, render_collection.
      destruct (nth_error _ 1); [|apply definite_rthrow].
      apply definite_bind; [apply definite_run_eval|]. intros data.
      apply definite_bind; [apply definite_get_state|]. intros st0.
      destruct (loopcache st0 !! _) as [cache|]; [|apply Hf].
      destruct (String.eqb _ _); [apply definite_ret|apply Hf].
    + apply definite_bind; [apply Ha|]. intros [into' elm].
      apply definite_ret.
  - repeat first [apply definite_parseMoustache | definite_step].
  - apply definite_ret.
Qed.

(** [cloneElement] has no recursion budget to run out of. *)
Lemma definite_cloneElement orig : forall tv, definite (cloneT orig tv).
Proof.
  induction orig as [u t a v l kids IH|d|d] using node_nested_ind; intros tv;
    cbn [cloneElement].
  - apply definite_bind; [apply definite_createElement|]. intros nw.
    apply definite_bind; [apply definite_clone_attrs|]. intros b. cbv zeta.
    destruct (jtruthy (b_innerhtml _)); [apply definite_ret|].
    apply definite_bind.
    + generalize (@nil node). induction IH as [|k kids Hk _ IHk]; intros into.
      * apply definite_ret.
      * apply definite_bind; [now apply definite_renderTemplate_with|].
        intros into'. apply IHk.
    + intros rendered.
      repeat first [apply definite_parseMoustache | definite_step].
  - repeat first [apply definite_parseMoustache | definite_step].
  - repeat first [apply definite_parseMoustache | definite_step].
Qed.

Lemma definite_children_upto active n : forall froms,
  (List.length froms <= n)%nat ->
  Forall (fun f => forall into, definite (transplantT active into f false))
         froms ->
  forall intos, definite (childrenT active intos froms).
Proof.
  induction n as [|n IH]; intros froms HL HF intos.
  - destruct froms; [apply definite_ret|cbn in HL; lia].
  - destruct froms as [|f fs]; [apply definite_ret|].
    apply Forall_cons in HF as [Hf HF].
    destruct intos as [|i rest]; [apply definite_rthrow|].
    cbn [transplant_children].
    apply definite_bind; [apply Hf|]. intros g.
    apply definite_bind; [|intros; apply definite_ret].
    destruct (taken g).
    + destruct fs as [|f2 fs']; [apply definite_ret|].
      apply IH; [cbn in HL |- *; lia|]. now apply Forall_cons in HF as [_ ?].
    + apply IH; [cbn in HL; lia|exact HF].
Qed.

Lemma definite_children active froms :
  Forall (fun f => forall into, definite (transplantT active into f false))
         froms ->
  forall intos, definite (childrenT active intos froms).
Proof. now apply (definite_children_upto active (List.length froms)). Qed.

(** [transplantDom] has no recursion budget to run out of. *)
Lemma definite_transplantDom active from : forall into isroot,
  definite (transplantT active into from isroot).
Proof.
  induction from as [uf tf af vf lf fkids IH|y|y] using node_nested_ind;
    intros into [|].
  - rewrite transplantDom_root.
    apply definite_bind; [|intros; apply definite_ret].
    apply definite_children.
    apply Forall_forall. intros f Hf into0.
    apply (proj1 (Forall_forall _ _) IH f Hf).
  - rewrite transplantDom_inner.
    destruct (kept into); [apply definite_ret|].
    destruct (non_interactive into); [apply definite_ret|].
    apply definite_bind; [apply definite_get_state|]. intros st0.
    destruct (compareNodes _ _ _) as [[ok into1] doc1].
    apply definite_bind; [apply definite_set_doc|]. intros _.
    destruct ok; cbn [negb].
    + apply definite_bind; [|intros; apply definite_ret].
      apply definite_children.
      apply Forall_forall. intros f Hf into0.
      apply (proj1 (Forall_forall _ _) IH f Hf).
    + apply definite_bind; [apply definite_cloneElement|]. intros _.
      repeat definite_step.
  - rewrite transplantDom_root. apply definite_ret.
  - rewrite transplantDom_inner.
    repeat first [apply definite_cloneElement | definite_step].
  - rewrite transplantDom_root. apply definite_ret.
  - rewrite transplantDom_inner.
    repeat first [apply definite_cloneElement | definite_step].
Qed.

(** X18.  At the root the child counts are not evened out: when the new root
    has more children than the old one, and no old child is marked
    [non-interactive], the reconciler does not return: it raises. *)
Theorem root_growth_raises
  (active : option nat) (into from : node) (st : rstate W) :
  (List.length (childNodes_of into) < List.length (childNodes_of from))%nat ->
  forallb (fun n => negb (non_interactive n)) (childNodes_of into) = true ->
  exists e, fst (transplantT active into from true st) = Throw e.
Proof.
  intros HL HN.
  pose proof (definite_transplantDom active from into true st) as Df.
  revert Df. rewrite transplantDom_root.
  destruct from as [uf tf af vf lf fkids|y|y]; [|cbn in HL; lia..].
  cbn [childNodes_of] in HL. rewrite rbind_at.
  pose proof (children_overrun active fkids _ st HL HN) as Ov.
  destruct (childrenT active (childNodes_of into) fkids st) as [[r| |] st1].
  - now destruct (Ov r).
  - intros _. now exists e.
  - intros Df. now destruct Df.
Qed.

Lemma succeeds_ret {A} (a : A) : succeeds (mret a : R W A).
Proof. intros st. now exists a, st. Qed.

Lemma succeeds_bind {A B} (m : R W A) (f : A -> R W B) :
  succeeds m -> (forall a, succeeds (f a)) -> succeeds (m ≫= f).
Proof.
  intros Hm Hf st. rewrite rbind_at. destruct (Hm st) as (a & st1 & ->).
  apply Hf.
Qed.

Lemma succeeds_run_eval e tv nr : succeeds (run_eval eval e tv nr).
Proof.
  intros st. unfold run_eval. destruct (eval _ _ _ _) as [[v ws] w]. eauto.
Qed.

Lemma succeeds_moustache_span m tv : succeeds (moustache_span eval m tv).
Proof.
  unfold moustache_span. apply succeeds_bind; [apply succeeds_run_eval|].
  intros res. destruct res; try apply succeeds_ret;
    destruct (negb _); try apply succeeds_ret;
    (apply succeeds_bind; [intros st; cbn; eauto|intros; apply succeeds_ret]).
Qed.

(** [parseMoustache] always returns: what an expression raises is caught
    by [eval]. *)
Lemma succeeds_parseMoustache str tv : succeeds (parseMoustache eval str tv).
Proof.
  unfold parseMoustache.
  induction (pieces str) as [|[c|m] ps IH]; cbn [replace_pieces].
  - apply succeeds_ret.
  - apply succeeds_bind; [exact IH|intros; apply succeeds_ret].
  - apply succeeds_bind; [apply succeeds_moustache_span|]. intros r.
    apply succeeds_bind; [exact IH|intros; apply succeeds_ret].
Qed.

Lemma succeeds_cloneElement_text from tv :
  is_element from = false -> succeeds (cloneT from tv).
Proof.
  intros E. destruct from as [? ? ? ? ? ?|x|x]; [discriminate|..];
    cbn [cloneElement];
    (apply succeeds_bind; [intros st; cbn; eauto|]); intros nw;
    (apply succeeds_bind; [|intros; apply succeeds_ret]);
    (destruct (negb _); [|apply succeeds_ret]);
    (apply succeeds_bind;
       [apply succeeds_parseMoustache|intros; apply succeeds_ret]).
Qed.

(** X19.  When the element that has the focus gives way to a node that is not
    an element (the placeholder of a false [v-if], or a text), the
    reconciler raises after the replacement, where it calls [focus()] on the
    new node. *)
Theorem focused_element_replaced_by_text_raises
  (active : option nat) (into from : node) (st : rstate W) :
  is_element into = true ->
  is_element from = false ->
  kept into = false ->
  non_interactive into = false ->
  has_focus active into = true ->
  fst (transplantT active into from false st)
  = Throw (TypeError "from.focus is not a function").
Proof.
  intros Ei Ef K NI Hf.
  rewrite transplantDom_inner, K, NI, rbind_at. cbn [get_state].
  assert (C : compareNodes into from (doc st) = (false, into, doc st)).
  { destruct into; [|discriminate..]. now destruct from. }
  rewrite C, rbind_at, set_doc_same. cbn [negb]. rewrite rbind_at.
  destruct (succeeds_cloneElement_text from [] Ef st) as (sup & st1 & ->).
  rewrite Hf. now destruct from.
Qed.

End TransplantFacts.

Lemma transplant_reproduces_new_tree_witness :
  same_shape (placed Fixture.grafted) Fixture.new_tree /\
  taken Fixture.grafted = false.
Proof.
  apply (transplant_reproduces_new_tree Host.eval Host.view_get
           Host.abstract_eq Host.parse_html Host.style_display_none
           None Fixture.new_tree Fixture.old_tree (Fixture.start 10)
           (snd (Fixture.transplantDom None Fixture.old_tree Fixture.new_tree
                   false (Fixture.start 10)))).
  - cbn. repeat split; try apply NoDup_nil_2. apply NoDup_singleton.
  - reflexivity.
  - reflexivity.
Defined.

Example grafted_tree :
  placed Fixture.grafted
  = Element 1 "DIV" [("class", "b")] None []
      [Element 4 "SPAN" [] None [] [TextNode "y"]].
Proof. reflexivity. Qed.

Lemma transplant_same_tree_changes_nothing_witness :
  Fixture.transplantDom (Some 2%nat) Fixture.old_tree Fixture.same_tree false
    (Fixture.start 10)
  = (Ok (MkGraft Fixture.old_tree false []), Fixture.start 10).
Proof.
  apply (transplant_same_tree_changes_nothing Host.eval Host.view_get
           Host.abstract_eq Host.parse_html Host.style_display_none
           (Some 2%nat) Fixture.same_tree Fixture.old_tree (Fixture.start 10)).
  - cbn. repeat split.
  - reflexivity.
Defined.

Lemma root_growth_raises_witness :
  exists e,
    fst (Fixture.transplantDom None Fixture.short_list Fixture.long_list true
           (Fixture.start 10)) = Throw e.
Proof.
  apply (root_growth_raises Host.eval Host.view_get Host.abstract_eq
           Host.parse_html Host.style_display_none
           None Fixture.short_list Fixture.long_list (Fixture.start 10)).
  - cbn. lia.
  - reflexivity.
Defined.

Lemma focused_element_replaced_by_text_raises_witness :
  fst (Fixture.transplantDom (Some 7%nat) Fixture.input (CommentNode "v-if")
         false (Fixture.start 10))
  = Throw (TypeError "from.focus is not a function").
Proof.
  apply (focused_element_replaced_by_text_raises Host.eval Host.view_get
           Host.abstract_eq Host.parse_html Host.style_display_none
           (Some 7%nat) Fixture.input (CommentNode "v-if")
           (Fixture.start 10)); reflexivity.
Defined.

(** The sibling that follows a [non-interactive] node: the new [b] is
    passed over, the old [b] is compared with the new [c], and the old [c]
    stays as it was. *)
Example non_interactive_shifts_siblings :
  let li s u := Element u "LI" [] None [] [TextNode s] in
  let pinned := Element 1 "LI" [("v-static", "non-interactive")] None []
                  [TextNode "a"] in
  fst (Fixture.transplantDom None
         (Element 0 "UL" [] None [] [pinned; li "b" 2%nat; li "c" 3%nat])
         (Element 4 "UL" [] None []
            [li "A" 5%nat; li "B" 6%nat; li "C" 7%nat])
         true (Fixture.start 10))
  = Ok (MkGraft (Element 0 "UL" [] None []
                   [li "A" 5%nat; li "C" 7%nat; li "c" 3%nat])
                false []).
Proof. reflexivity. Qed.

(* ====================================================================== *)
(** ** Further properties of the renderer                                 *)
(* ====================================================================== *)

Section CloneFacts.

Context {W : Type}.
Variable eval : string -> locals -> bool -> W -> jsval * list string * W.
Variable view_get : string -> W -> jsval * W.
Variable abstract_eq : jsval -> jsval -> bool.
Variable parse_html : string -> list node.
Variable style_display_none : option string -> string.

Abbreviation cloneC :=
  (cloneElement eval view_get abstract_eq parse_html style_display_none).
Abbreviation renderC :=
  (renderTemplate eval view_get abstract_eq parse_html style_display_none).

Lemma string_append_nil_r s : s +:+ EmptyString = s.
Proof. induction s as [|c s IH]; [reflexivity|]. now rewrite append_String, IH. Qed.

(** Text without an opening brace holds no span. *)
Lemma parseMoustache_plain str tv (st : rstate W) :
  has_char "{" str = false -> parseMoustache eval str tv st = (Ok str, st).
Proof.
  intros H. unfold parseMoustache.
  rewrite <- (string_append_nil_r str) at 1.
  rewrite (pieces_literal str EmptyString H), pieces_equation_1.
  rewrite (replace_pieces_literal eval tv (list_ascii_of_string str) [] st).
  cbn [replace_pieces]. rewrite rret_at.
  now rewrite string_of_list_ascii_of_string, string_append_nil_r.
Qed.

(** X20.  Text that holds no opening brace is rendered as it is, and rendering
    it evaluates nothing: the state is untouched. *)
Theorem plain_text_is_copied
  (str : string) (tv : locals) (into : list node) (st : rstate W) :
  has_char "{" str = false ->
  parseMoustache eval str tv st = (Ok str, st) /\
  (str <> EmptyString ->
   renderC (TextNode str) into tv st = (Ok (into ++ [TextNode str]), st)).
Proof.
  intros H. split; [now apply parseMoustache_plain|].
  intros Ne. rewrite (renderTemplate_text eval view_get abstract_eq parse_html
                        style_display_none str into tv Ne).
  now rewrite rbind_at, parseMoustache_plain.
Qed.

Lemma signed_add s b : s <> EmptyString -> signed (b_checksum_add s b).
Proof.
  intros Ne. right. cbn. destruct (b_checksumstr b); [exact Ne|].
  rewrite append_String. discriminate.
Qed.

Lemma signed_attrs b attrs :
  signed b ->
  signed (MkBuilder attrs (b_listeners b) (b_checksumstr b) (b_innerhtml b)
            (b_setvalue b)).
Proof. intros H. exact H. Qed.

Ltac signed_step :=
  first
    [ apply ensures_ret; intros
    | apply ensures_bind_result; intros
    | lazymatch goal with
      | |- ensures (if ?c then _ else _) _ => destruct c
      | |- ensures (match ?x with _ => _ end) _ => destruct x
      | |- ensures (let _ := _ in _) _ => cbv zeta
      end ].

(** Whatever an attribute adds to the builder, a listener comes with a
    source for the signature. *)
Lemma signed_clone_attr orig tv a val b :
  signed b ->
  ensures (clone_attr eval view_get abstract_eq orig tv a val b)
          (fun _ b' _ => signed b').
Proof.
  intros H. unfold clone_attr, clone_v_model, clone_v_on, clone_v_bind.
  repeat signed_step;
    try exact H;
    try (apply signed_add; discriminate);
    try (right; cbn; destruct (b_checksumstr b); discriminate).
Qed.

Lemma signed_clone_attrs orig tv attrs : forall b,
  signed b ->
  ensures (clone_attrs eval view_get abstract_eq orig tv attrs b)
          (fun _ b' _ => signed b').
Proof.
  induction attrs as [|[a val] attrs IH]; intros b H; cbn [clone_attrs].
  - now apply ensures_ret.
  - apply (ensures_bind_inv _ _ signed signed).
    + now apply signed_clone_attr.
    + intros b' H'. now apply IH.
Qed.

Lemma stamp_listeners tv b : b_listeners (stamp tv b) = b_listeners b.
Proof. unfold stamp. now destruct (String.eqb _ _). Qed.

(** What one attribute adds to the string behind the signature. *)
Lemma clone_attr_gathers orig tv a val b :
  (String.eqb (hd EmptyString (Str.split ":" a)) "v-on" = false
   \/ Str.contains "{{" val = false) ->
  ensures (clone_attr eval view_get abstract_eq orig tv a val b)
          (fun _ b' _ => b_checksumstr b' = b_checksumstr b +:+ source_of a val).
Proof.
  intros H. unfold clone_attr, source_of.
  destruct (Str.startsWith ":" a) eqn:C.
  - rewrite (bound_attribute_base a C).
    change (String.eqb "v-bind" "v-model") with false.
    change (String.eqb "v-bind" "v-on") with false.
    change (String.eqb "v-bind" "v-bind") with true.
    cbv iota. cbn [orb].
    destruct (Str.startsWith "v-" ("v-bind" +:+ a)).
    + unfold clone_v_bind.
      repeat signed_step; cbn; now rewrite string_append_nil_r.
    + repeat signed_step; cbn; now rewrite string_append_nil_r.
  - destruct (Str.startsWith "v-" a).
    + destruct (String.eqb (hd EmptyString (Str.split ":" a)) "v-model") eqn:M.
      { cbn [orb]. unfold clone_v_model.
        repeat signed_step; cbn;
          repeat match goal with
                 | |- context [if ?c then _ else _] => destruct c
                 end; reflexivity. }
      destruct (String.eqb (hd EmptyString (Str.split ":" a)) "v-on") eqn:O.
      { cbn [orb]. destruct H as [H|H]; [discriminate H|].
        unfold clone_v_on. rewrite H.
        repeat signed_step; reflexivity. }
      cbn [orb]. unfold clone_v_bind.
      repeat signed_step; cbn;
        repeat match goal with
               | |- context [if ?c then _ else _] => destruct c
               end; now rewrite string_append_nil_r.
    + repeat signed_step; cbn; now rewrite string_append_nil_r.
Qed.

Lemma clone_attrs_gathers orig tv attrs : forall b,
  literal_handlers attrs = true ->
  ensures (clone_attrs eval view_get abstract_eq orig tv attrs b)
          (fun _ b' _ => b_checksumstr b' = b_checksumstr b +:+ gathered attrs).
Proof.
  induction attrs as [|[a val] attrs IH]; intros b H;
    cbn [clone_attrs gathered].
  - apply ensures_ret. intros _. now rewrite string_append_nil_r.
  - cbn [literal_handlers forallb fst snd] in H.
    apply andb_prop in H as [Ha H].
    apply (ensures_bind_inv _ _
             (fun b' => b_checksumstr b' = b_checksumstr b +:+ source_of a val)).
    + apply clone_attr_gathers.
      apply orb_prop in Ha as [Ha|Ha]; apply negb_true_iff in Ha; auto.
    + intros b' E st0 b2 st2 R.
      rewrite (IH b' H st0 b2 st2 R), E. apply append_assoc_str.
Qed.

(** What the clone of an element carries of its builder. *)
Lemma cloneElement_builder u t a v l kids tv st nw st' :
  cloneC (Element u t a v l kids) tv st = (Ok nw, st') ->
  exists b, signed b /\
            listeners_of nw = b_listeners b /\
            attrs_of nw = b_attrs (stamp tv b) /\
            (literal_handlers a = true -> b_checksumstr b = gathered a).
Proof.
  cbn [cloneElement]. rewrite rbind_at. cbn [createElement].
  rewrite rbind_at.
  destruct (clone_attrs _ _ _ _ _ _ _ _) as [[b| |] st1] eqn:C;
    [|discriminate..].
  assert (Sb : signed b).
  { assert (S0 : signed (MkBuilder [] [] EmptyString JNull JNull))
      by (now left).
    exact (signed_clone_attrs _ _ _ _ S0 _ _ _ C). }
  assert (Gb : literal_handlers a = true -> b_checksumstr b = gathered a).
  { intros L. exact (clone_attrs_gathers _ _ _ _ L _ _ _ C). }
  cbv zeta. destruct (jtruthy (b_innerhtml (stamp tv b))).
  - rewrite rret_at. intros [= <- _]. exists b. cbn.
    now rewrite stamp_listeners.
  - rewrite rbind_at.
    match goal with |- context [?go kids [] st1] =>
      destruct (go kids [] st1) as [[rendered| |] st2] end;
      [|discriminate..].
    rewrite rbind_at.
    match goal with |- context [(if ?c then ?x else ?y) st2] =>
      destruct ((if c then x else y) st2) as [[children| |] st3] end;
      [|discriminate..].
    rewrite rret_at. intros [= <- _]. exists b. cbn.
    now rewrite stamp_listeners.
Qed.

(** X21.  The event signature of a clone is the checksum of the sources
    gathered from the [v-model] and [v-on] attributes of the template
    element, each as [//] and the value of the attribute, in the order of
    the attributes, and of the scope (the values of [v-on] being taken as
    they are written, with no span to replace; the scope holding no number
    of 2^53 or more).  An element with a listener has such sources, and so
    carries a signature that is not empty; an element without sources has no
    listener. *)
Theorem listeners_carry_signature
  (u : nat) (t : string) (attrs : list (string * string)) (v : option string)
  (l : list (string * string)) (kids : list node)
  (tv : locals) (st st' : rstate W) (nw : node) :
  literal_handlers attrs = true ->
  forallb (fun p => safe (snd p)) tv = true ->
  cloneC (Element u t attrs v l kids) tv st = (Ok nw, st') ->
  (listeners_of nw <> [] -> gathered attrs <> EmptyString) /\
  (gathered attrs = EmptyString -> listeners_of nw = []) /\
  (gathered attrs <> EmptyString ->
   getAttribute nw "v-eventid"
   = Some (Checksum.checksum (signature_text (gathered attrs) tv)) /\
   attr_truthy (getAttribute nw "v-eventid") = true).
Proof.
  intros L _ C.
  destruct (cloneElement_builder _ _ _ _ _ _ _ _ _ _ C)
    as (b & Sb & Lb & Ab & Gb).
  specialize (Gb L).
  split; [|split].
  - intros Hl. destruct Sb as [Nil|Ne]; congruence.
  - intros E. destruct Sb as [Nil|Ne]; congruence.
  - intros Ne. unfold getAttribute. rewrite Ab. unfold stamp. rewrite Gb.
    apply String.eqb_neq in Ne. rewrite Ne. cbn [b_setAttribute b_attrs].
    rewrite getAttr_setAttr_eq. split; [reflexivity|].
    cbn [attr_truthy]. apply negb_true_iff, String.eqb_neq.
    apply checksum_not_empty.
Qed.

(** X22.  A loop over a collection that has nothing to enumerate (an empty
    array or object, an empty string, [null], [undefined], a number, a
    boolean) raises nothing and adds nothing to the output: the template
    element is not cloned at all, and the loop cache is left with an entry
    that holds no element. *)
Theorem empty_collection_renders_nothing
  (clone : locals -> R W node) (loopfor loopval : string) (hide : bool)
  (tv : locals) (into : list node) (st : rstate W)
  (data : jsval) (warns : list string) (w' : W) :
  nth_error (Str.split " in " loopfor) 1 = Some loopval ->
  eval loopval tv false (host st) = (data, warns, w') ->
  entries data = [] ->
  (forall cache, loopcache st !! loopfor = Some cache ->
                 datachk cache <> Checksum.checksum_value data) ->
  render_for eval style_display_none clone loopfor hide tv into st
  = (Ok into,
     MkR w' (<[loopfor := MkEntry (Checksum.checksum_value data) []]>
               (loopcache st))
         (console st ++ warns) (doc st)).
Proof.
  intros Hs He Hd Hc. unfold render_for. rewrite Hs, rbind_at.
  rewrite (run_eval_eq eval _ _ _ _ _ _ _ He).
  unfold render_collection. rewrite rbind_at. cbn [get_state].
  assert (A : render_afresh style_display_none clone loopfor hide tv into data
                (evaluated st warns w')
              = (Ok into,
                 MkR w' (<[loopfor := MkEntry (Checksum.checksum_value data) []]>
                           (loopcache st))
                     (console st ++ warns) (doc st))).
  { unfold render_afresh.
    destruct (loop_names loopfor) as [[loopvar indexvar] countvar].
    rewrite rbind_at. cbn [set_cache]. rewrite Hd. reflexivity. }
  change (loopcache (evaluated st warns w')) with (loopcache st).
  destruct (loopcache st !! loopfor) as [cache|] eqn:L; [|exact A].
  specialize (Hc cache eq_refl). apply String.eqb_neq in Hc.
  now rewrite Hc.
Qed.

End CloneFacts.

Lemma plain_text_is_copied_witness :
  Host.renderTemplate (TextNode "a } b") [] [] (Host.start [] 3)
  = (Ok [TextNode "a } b"], Host.start [] 3).
Proof.
  apply (plain_text_is_copied Host.eval Host.view_get Host.abstract_eq
           Host.parse_html Host.style_display_none "a } b" [] []
           (Host.start [] 3)).
  - reflexivity.
  - discriminate.
Defined.

Lemma empty_collection_renders_nothing_witness :
  render_for Host.eval Host.style_display_none
    (Host.cloneElement Host.item_list) "item in items" false []
    [TextNode "a"] (Host.start [("items", JNull)] 4)
  = (Ok [TextNode "a"],
     MkR [("items", JNull)]
         (<["item in items" := MkEntry (Checksum.checksum_value JNull) []]> ∅)
         [] 4).
Proof.
  apply (empty_collection_renders_nothing Host.eval Host.style_display_none
           (Host.cloneElement Host.item_list) "item in items" "items" false []
           [TextNode "a"] (Host.start [("items", JNull)] 4) JNull []
           [("items", JNull)]); try reflexivity.
  intros cache H. discriminate H.
Defined.

Lemma listeners_carry_signature_witness :
  getAttribute (Host.rendered_button "save()" 0) "v-eventid"
  = Some (Checksum.checksum "//save()//{}").
Proof.
  destruct (listeners_carry_signature Host.eval Host.view_get Host.abstract_eq
              Host.parse_html Host.style_display_none
              0 "BUTTON" [("v-on:click", "save()")] None [] [TextNode "go"]
              [] (Host.start [] 0)
              (snd (Host.cloneElement (Host.button "save()") []
                      (Host.start [] 0)))
              (Host.rendered_button "save()" 0) eq_refl eq_refl eq_refl)
    as (_ & _ & H).
  destruct H as [H _]; [discriminate|]. exact H.
Defined.

(* ====================================================================== *)
(** ** What is copied as it is                                            *)
(* ====================================================================== *)

Lemma setAttr_fresh a v l : a ∉ map fst l -> setAttr a v l = l ++ [(a, v)].
Proof.
  induction l as [|[a' v'] l IH]; cbn [setAttr map fst app]; [reflexivity|].
  intros Nin. apply not_elem_of_cons in Nin as [Ne Nin].
  apply String.eqb_neq in Ne. rewrite Ne. now rewrite IH.
Qed.

(** Among plain attributes there is no [v-bind:] twin of any name. *)
Lemma plain_attrs_unbound a attrs :
  forallb plain_attr attrs = true -> getAttr ("v-bind:" +:+ a) attrs = None.
Proof.
  induction attrs as [|[n val] attrs IH]; cbn [forallb getAttr]; [reflexivity|].
  intros H. apply andb_prop in H as [Hp H]. rewrite (IH H).
  unfold plain_attr in Hp. cbn [fst snd] in Hp.
  apply andb_prop in Hp as [Hp _]. apply andb_prop in Hp as [_ Hv].
  apply negb_true_iff in Hv.
  destruct (String.eqb_spec ("v-bind:" +:+ a) n) as [<-|]; [|reflexivity].
  discriminate Hv.
Qed.

Section StaticFacts.

Context {W : Type}.
Variable eval : string -> locals -> bool -> W -> jsval * list string * W.
Variable view_get : string -> W -> jsval * W.
Variable abstract_eq : jsval -> jsval -> bool.
Variable parse_html : string -> list node.
Variable style_display_none : option string -> string.

Abbreviation cloneS :=
  (cloneElement eval view_get abstract_eq parse_html style_display_none).

(** The attribute loop of [cloneElement] over plain attributes: each is set
    on the clone, in order, and nothing else happens. *)
Lemma clone_attrs_plain orig tv attrs : forall b (st : rstate W),
  forallb plain_attr attrs = true ->
  (forall a, getAttribute orig ("v-bind:" +:+ a) = None) ->
  NoDup (map fst (b_attrs b) ++ map fst attrs) ->
  clone_attrs eval view_get abstract_eq orig tv attrs b st
  = (Ok (MkBuilder (b_attrs b ++ attrs) (b_listeners b) (b_checksumstr b)
                   (b_innerhtml b) (b_setvalue b)), st).
Proof.
  induction attrs as [|[a val] attrs IH]; intros b st Hp Hb ND.
  - cbn [clone_attrs]. rewrite rret_at, app_nil_r. now destruct b.
  - cbn [forallb] in Hp. apply andb_prop in Hp as [Ha Hp].
    unfold plain_attr in Ha. cbn [fst snd] in Ha.
    apply andb_prop in Ha as [Ha H3]. apply andb_prop in Ha as [H1 H2].
    apply negb_true_iff in H1, H2, H3.
    cbn [clone_attrs]. rewrite rbind_at.
    rewrite (clone_attr_plain eval view_get abstract_eq orig tv a val b H1 H2).
    rewrite H3, rbind_at, rret_at, Hb. cbn [attr_truthy negb]. rewrite rret_at.
    cbn [map fst] in ND.
    assert (Fr : a ∉ map fst (b_attrs b)).
    { apply NoDup_app in ND as (_ & Dis & _). intros In.
      apply (Dis a In). apply elem_of_cons. now left. }
    rewrite IH; cbn [b_setAttribute b_attrs b_listeners b_checksumstr
                       b_innerhtml b_setvalue].
    + rewrite (setAttr_fresh _ _ _ Fr), <- List.app_assoc. reflexivity.
    + exact Hp.
    + exact Hb.
    + rewrite (setAttr_fresh _ _ _ Fr), map_app, <- List.app_assoc.
      exact ND.
Qed.

(** X23.  The clone of a template element whose attributes are all plain and
    named once carries exactly these attributes, in their order and with
    their values; it is a new element with the template's tag, no listener
    and no value. *)
Theorem static_attributes_are_copied
  (u : nat) (t : string) (attrs : list (string * string)) (v : option string)
  (l : list (string * string)) (kids : list node) (tv : locals)
  (st st' : rstate W) (nw : node) :
  forallb plain_attr attrs = true ->
  NoDup (map fst attrs) ->
  cloneS (Element u t attrs v l kids) tv st = (Ok nw, st') ->
  uid_of nw = Some (doc st) /\
  tagName_of nw = Some t /\
  attrs_of nw = attrs /\
  listeners_of nw = [] /\
  value_of nw = None.
Proof.
  intros Hp ND. cbn [cloneElement]. rewrite rbind_at. cbn [createElement].
  rewrite rbind_at.
  rewrite (clone_attrs_plain (Element u t attrs v l kids) tv attrs
             (MkBuilder [] [] EmptyString JNull JNull)
             _ Hp (fun a => plain_attrs_unbound a attrs Hp) ND).
  cbv zeta. cbn [stamp b_checksumstr b_attrs app b_innerhtml b_setvalue
                 b_listeners jtruthy String.eqb uid_of default].
  rewrite rbind_at.
  match goal with |- context [?go kids [] ?s] =>
    destruct (go kids [] s) as [[rendered| |] st2] end; [|discriminate..].
  rewrite rbind_at.
  match goal with |- context [(if ?c then ?x else ?y) st2] =>
    destruct ((if c then x else y) st2) as [[children| |] st3] end;
    [|discriminate..].
  rewrite rret_at. intros [= <- _]. now cbn.
Qed.

End StaticFacts.

Lemma static_attributes_are_copied_witness :
  attrs_of (Host.rendered_link "btn {{cls}}" [("cls", JStr "x")])
  = [("class", "btn {{cls}}")].
Proof.
  apply (static_attributes_are_copied Host.eval Host.view_get Host.abstract_eq
           Host.parse_html Host.style_display_none
           0 "A" [("class", "btn {{cls}}")] None [] [TextNode "go"] []
           (Host.start [("cls", JStr "x")] 0)
           (snd (Host.cloneElement
                   (Element 0 "A" [("class", "btn {{cls}}")] None []
                            [TextNode "go"]) []
                   (Host.start [("cls", JStr "x")] 0)))).
  - reflexivity.
  - apply NoDup_singleton.
  - reflexivity.
Defined.
